(** * pnglevel: changing the zlib compression level of PNG files

    A shallow embedding of the Go package [pnglevel] and the properties of
    its chunk transcoder.  Two revisions of the package are embedded:

    - [Repacker]: [pnglevel.go], the push-style transcoder
      ([Repack] drives [repack], which writes to an [io.Writer]);
    - [Reader]: the pull-style transcoder ([NewReader] / [Reader.Read],
      with [Repack] implemented as [io.Copy]).

    Bytes are [Byte.byte], Go integers are [Z] with the conversions written
    out, and the two collaborators the package takes from the Go library are
    modelled as follows: [hash/crc32] concretely (bit by bit, IEEE
    polynomial), [compress/zlib] as a parameter (class [Codec]). *)

From Stdlib Require Import ZArith List Bool Lia.
From Stdlib.Strings Require Import Byte.
Import ListNotations.
Local Open Scope Z_scope.

(* ================================================================== *)
(** ** Bytes, slices and big-endian integers *)

Definition bytes := list byte.

Definition byte_to_Z (b : byte) : Z := Z.of_N (Byte.to_N b).

Definition byte_of_Z (z : Z) : byte :=
  match Byte.of_N (Z.to_N (z mod 256)) with
  | Some b => b
  | None => x00
  end.

(** [len(b)] as a Go [int]. *)
Definition len {A} (l : list A) : Z := Z.of_nat (length l).

(** [b[:n]] for a slice known only by its contents: the first [n] elements,
    all of them when there are fewer.  Recursion is on the list, so that a
    declared length of 2^31-1 costs nothing. *)
Fixpoint take {A} (n : Z) (l : list A) : list A :=
  match l with
  | [] => []
  | x :: l' => if n <=? 0 then [] else x :: take (n - 1) l'
  end.

(** [b[n:]]. *)
Fixpoint drop {A} (n : Z) (l : list A) : list A :=
  match l with
  | [] => []
  | x :: l' => if n <=? 0 then l else drop (n - 1) l'
  end.

Fixpoint bytes_eqb (a b : bytes) : bool :=
  match a, b with
  | [], [] => true
  | x :: a', y :: b' => Byte.eqb x y && bytes_eqb a' b'
  | _, _ => false
  end.

(** [binary.BigEndian.Uint32(b)]: the first four bytes of [b]. *)
Definition Uint32 (b : bytes) : Z :=
  match b with
  | b0 :: b1 :: b2 :: b3 :: _ =>
      Z.lor (Z.lor (Z.lor (Z.shiftl (byte_to_Z b0) 24) (Z.shiftl (byte_to_Z b1) 16))
                   (Z.shiftl (byte_to_Z b2) 8)) (byte_to_Z b3)
  | _ => 0
  end.

(** [uint32(x)]: conversion of a Go integer to 32 bits. *)
Definition uint32 (x : Z) : Z := x mod 2 ^ 32.

(** [binary.Write(w, binary.BigEndian, v)] for a [uint32] [v]: its four bytes. *)
Definition PutUint32 (v : Z) : bytes :=
  [ byte_of_Z (Z.shiftr v 24); byte_of_Z (Z.shiftr v 16);
    byte_of_Z (Z.shiftr v 8); byte_of_Z v ].

(** The constants of the package. *)
Definition pngHeader : bytes := [x89; x50; x4e; x47; x0d; x0a; x1a; x0a].
Definition maxChunkLen : Z := 0x7fffffff.
Definition IDAT : bytes := [x49; x44; x41; x54].
Definition IHDR : bytes := [x49; x48; x44; x52].

(** Writing into a prefix of the scratch array: [copy(tmp[:len(b)], b)]. *)
Definition overwrite (b tmp : bytes) : bytes := b ++ skipn (length b) tmp.

(* ================================================================== *)
(** ** hash/crc32, IEEE polynomial *)

Module crc32.

Definition IEEE : Z := 0xedb88320.

(** One round of [simpleMakeTable]'s inner loop. *)
Definition shift1 (crc : Z) : Z :=
  if Z.testbit crc 0 then Z.lxor (Z.shiftr crc 1) IEEE else Z.shiftr crc 1.

(** [IEEETable[i]]. *)
Definition table (i : Z) : Z :=
  shift1 (shift1 (shift1 (shift1 (shift1 (shift1 (shift1 (shift1 i))))))).

(** The body of [simpleUpdate]'s loop, on the complemented register. *)
Definition step (crc : Z) (v : byte) : Z :=
  Z.lxor (table (Z.land (Z.lxor crc (byte_to_Z v)) 255)) (Z.shiftr crc 8).

Definition complement (crc : Z) : Z := Z.lxor crc 0xffffffff.

(** [crc32.Update(crc, IEEETable, p)]. *)
Definition Update (crc : Z) (p : bytes) : Z :=
  complement (fold_left step p (complement crc)).

(** [crc32.ChecksumIEEE(p)]. *)
Definition ChecksumIEEE (p : bytes) : Z := Update 0 p.

(** The [hash.Hash32] returned by [crc32.NewIEEE()]: its state is the
    running checksum. *)
Definition digest := Z.
Definition NewIEEE : digest := 0.
Definition Reset (d : digest) : digest := 0.
Definition Write (d : digest) (p : bytes) : digest := Update d p.
Definition Sum32 (d : digest) : Z := d.

End crc32.

(* ================================================================== *)
(** ** Errors *)

Inductive error : Type :=
| EOF                      (* io.EOF *)
| ErrUnexpectedEOF         (* io.ErrUnexpectedEOF *)
| ErrNotPNG                (* "pnglevel: not a PNG file" *)
| ErrMissingIHDR           (* "pnglevel: missing IHDR" *)
| ErrIHDRLength            (* "pnglevel: incorrect IHDR length" *)
| ErrCompressionMethod     (* "pnglevel: unsupported compression method" *)
| ErrChunkTooBig           (* "pnglevel: chunk is too big" *)
| ErrIDATTooBig            (* "pnglevel: IDAT chunk is too big" *)
| ErrChecksum              (* "pnglevel: invalid checksum" *)
| ErrIDATChecksum          (* "pnglevel: invalid checksum of IDAT chunk" *)
| ErrIDATOrder             (* "pnglevel: wrong IDAT order" *)
| ErrZlib (code : Z)       (* an error of compress/zlib's own *)
| Panic.                   (* a run-time panic (nil dereference) *)

Definition error_eqb (a b : error) : bool :=
  match a, b with
  | EOF, EOF | ErrUnexpectedEOF, ErrUnexpectedEOF | ErrNotPNG, ErrNotPNG
  | ErrMissingIHDR, ErrMissingIHDR | ErrIHDRLength, ErrIHDRLength
  | ErrCompressionMethod, ErrCompressionMethod | ErrChunkTooBig, ErrChunkTooBig
  | ErrIDATTooBig, ErrIDATTooBig | ErrChecksum, ErrChecksum
  | ErrIDATChecksum, ErrIDATChecksum | ErrIDATOrder, ErrIDATOrder
  | Panic, Panic => true
  | ErrZlib x, ErrZlib y => x =? y
  | _, _ => false
  end.

(** The errors of the spec's taxonomy that say a declared length exceeds
    2^31-1. *)
Definition chunk_too_large (e : error) : bool :=
  match e with
  | ErrChunkTooBig | ErrIDATTooBig => true
  | _ => false
  end.

(* ================================================================== *)
(** ** The byte source

    The source [p.r] is an [io.Reader] over the bytes of the input file, with
    the behaviour of [bytes.Reader]: a read hands over as many of the
    remaining bytes as fit, and [io.EOF] once none remain. *)

(** [r.Read(b)] with [len(b) = n]: the bytes read, the error, the rest. *)
Definition src_Read (n : Z) (r : bytes) : bytes * option error * bytes :=
  match r with
  | [] => ([], Some EOF, [])
  | _ => (take n r, None, drop n r)
  end.

(** [io.ReadFull(r, b)] with [len(b) = n], [n > 0]. *)
Definition ReadFull (n : nat) (r : bytes) : bytes * option error * bytes :=
  if (n <=? length r)%nat then (firstn n r, None, skipn n r)
  else match r with
       | [] => ([], Some EOF, [])
       | _ => (r, Some ErrUnexpectedEOF, [])
       end.

(** What [io.ReadFull] reports when the source has fewer bytes than asked
    for: [io.EOF] when it has none, [io.ErrUnexpectedEOF] otherwise. *)
Definition short_error (src : bytes) : error :=
  match src with
  | [] => EOF
  | _ => ErrUnexpectedEOF
  end.

(* ================================================================== *)
(** ** compress/zlib as a parameter

    The inflate side calls back into the transcoder ([zlib.NewReader(p)]
    reads from [p.Read]), so a decoding session is a tree of the calls it
    makes: it asks its source for up to [n] bytes and goes on with the
    answer, or hands decoded bytes to its caller.  A read error of the source
    other than [io.EOF] ends the session with that error (compress/flate
    passes it through), so the continuation of a read only takes the bytes
    and whether the source reported [io.EOF]. *)

(** The session after [zlib.NewReader] returned: the calls of [zr.Read]. *)
Inductive zreader : Type :=
| ZNeed (n : Z) (k : bytes -> bool -> zreader)
    (* the decoder calls Read on its source with a buffer of n bytes *)
| ZYield (out : bytes) (k : zreader)
    (* zr.Read returns (out, nil) *)
| ZStop (out : bytes) (e : error).
    (* zr.Read returns (out, e); e = io.EOF at the end of the stream *)

(** [zlib.NewReader(r)]: it reads the stream header before it returns. *)
Inductive zopen : Type :=
| ONeed (n : Z) (k : bytes -> bool -> zopen)
| OFail (e : error)
| OReady (z : zreader).

Class Codec : Type := {
  (** [zlib.NewReader] *)
  NewReader : zopen;
  (** [*zlib.Writer], writing into a [bytes.Buffer]; each operation returns
      the bytes it appends to the buffer *)
  zwriter : Type;
  NewWriterLevel : Z -> zwriter + error;
  zw_Write : zwriter -> bytes -> zwriter * bytes;
  zw_Flush : zwriter -> zwriter * bytes;
  zw_Close : zwriter -> bytes
}.

(* ================================================================== *)
(** ** A state monad with Go's error returns *)

Inductive res (A : Type) : Type :=
| Ok (a : A)
| Err (e : error).
Arguments Ok {A} a.
Arguments Err {A} e.

Definition M (S A : Type) : Type := S -> res A * S.

Definition ret {S A} (a : A) : M S A := fun s => (Ok a, s).
Definition fail {S A} (e : error) : M S A := fun s => (Err e, s).
Definition bind {S A B} (m : M S A) (f : A -> M S B) : M S B :=
  fun s => match m s with
           | (Ok a, s') => f a s'
           | (Err e, s') => (Err e, s')
           end.
Definition gets {S A} (f : S -> A) : M S A := fun s => (Ok (f s), s).
Definition modify {S} (f : S -> S) : M S unit := fun s => (Ok tt, f s).

Declare Scope go_scope.
Delimit Scope go_scope with go.
Notation "x <- m ;; k" := (bind m (fun x => k))
  (at level 61, m at next level, right associativity) : go_scope.
Notation "' pat <- m ;; k" := (bind m (fun x => match x with pat => k end))
  (at level 61, pat pattern, m at next level, right associativity) : go_scope.
Notation "m ;; k" := (bind m (fun _ => k))
  (at level 61, right associativity) : go_scope.

(* ================================================================== *)
(** ** pnglevel.go: the push-style transcoder *)

Module Repacker.

(** We want to write approximate 64K IDAT chunks when level is 0. *)
Definition bufSize : Z := 2 ^ 16 - 10.

(** [type repacker struct].  [r] holds the bytes of the source not read
    yet, [w] the bytes written to the sink so far; of [buf], a scratch
    slice, only the length [bufSize] matters. *)
Record repacker : Type := {
  r : bytes;
  w : bytes;
  level : Z;
  tmp : bytes;                 (* [13]byte *)
  crc : crc32.digest;
  idatLength : Z;              (* uint32 *)
  haveLastChunk : bool;
  haveIDAT : bool
}.

Definition set_r (v : bytes) (p : repacker) : repacker :=
  {| r := v; w := w p; level := level p; tmp := tmp p; crc := crc p;
     idatLength := idatLength p; haveLastChunk := haveLastChunk p;
     haveIDAT := haveIDAT p |}.
Definition set_w (v : bytes) (p : repacker) : repacker :=
  {| r := r p; w := v; level := level p; tmp := tmp p; crc := crc p;
     idatLength := idatLength p; haveLastChunk := haveLastChunk p;
     haveIDAT := haveIDAT p |}.
Definition set_tmp (v : bytes) (p : repacker) : repacker :=
  {| r := r p; w := w p; level := level p; tmp := v; crc := crc p;
     idatLength := idatLength p; haveLastChunk := haveLastChunk p;
     haveIDAT := haveIDAT p |}.
Definition set_crc (v : crc32.digest) (p : repacker) : repacker :=
  {| r := r p; w := w p; level := level p; tmp := tmp p; crc := v;
     idatLength := idatLength p; haveLastChunk := haveLastChunk p;
     haveIDAT := haveIDAT p |}.
Definition set_idatLength (v : Z) (p : repacker) : repacker :=
  {| r := r p; w := w p; level := level p; tmp := tmp p; crc := crc p;
     idatLength := v; haveLastChunk := haveLastChunk p;
     haveIDAT := haveIDAT p |}.
Definition set_haveLastChunk (v : bool) (p : repacker) : repacker :=
  {| r := r p; w := w p; level := level p; tmp := tmp p; crc := crc p;
     idatLength := idatLength p; haveLastChunk := v;
     haveIDAT := haveIDAT p |}.
Definition set_haveIDAT (v : bool) (p : repacker) : repacker :=
  {| r := r p; w := w p; level := level p; tmp := tmp p; crc := crc p;
     idatLength := idatLength p; haveLastChunk := haveLastChunk p;
     haveIDAT := v |}.

Local Open Scope go_scope.

(** [io.ReadFull(p.r, p.tmp[:n])] *)
Definition readTmp (n : nat) : M repacker unit := fun p =>
  let '(b, e, rest) := ReadFull n (r p) in
  let p' := set_tmp (overwrite b (tmp p)) (set_r rest p) in
  match e with
  | None => (Ok tt, p')
  | Some e => (Err e, p')
  end.

(** [p.w.Write(b)]; the sink takes every write. *)
Definition write (b : bytes) : M repacker unit :=
  modify (fun p => set_w (w p ++ b) p).

(** [io.CopyN(io.MultiWriter(p.w, p.crc), p.r, n)]: what the source still
    has of the [n] bytes goes to the sink and into the checksum, and fewer
    than [n] bytes is [io.EOF]. *)
Definition copyN (n : Z) : M repacker unit := fun p =>
  let data := take n (r p) in
  let p' := set_crc (crc32.Write (crc p) data)
              (set_w (w p ++ data) (set_r (drop n (r p)) p)) in
  if len data <? n then (Err EOF, p') else (Ok tt, p').

(** [func (p *repacker) chunk() (length int, kind string, err error)] *)
Definition chunk : M repacker (Z * bytes) :=
  readTmp 8 ;;
  t <- gets tmp ;;
  let ulen := Uint32 (firstn 4 t) in
  if ulen >? maxChunkLen then fail ErrChunkTooBig
  else
    let kind := firstn 4 (skipn 4 t) in
    modify (fun p => set_crc (crc32.Write (crc32.Reset (crc p)) kind) p) ;;
    ret (ulen, kind).

(** [func (p *repacker) verifyCrc() error] *)
Definition verifyCrc : M repacker unit :=
  readTmp 4 ;;
  t <- gets tmp ;;
  c <- gets crc ;;
  if Uint32 (firstn 4 t) =? crc32.Sum32 c then ret tt else fail ErrChecksum.

(** [func (p *repacker) handleAnyChunk(length int) error] *)
Definition handleAnyChunk (length : Z) : M repacker unit :=
  (* Write what we read in chunk(). *)
  t <- gets tmp ;;
  write (firstn 8 t) ;;
  (* Copy the chunk. *)
  copyN length ;;
  (* Verify crc. *)
  verifyCrc ;;
  (* Copy the crc. *)
  t <- gets tmp ;;
  write (firstn 4 t).

(** [func (p *repacker) header() error] *)
Definition header : M repacker unit :=
  (* Verify PNG file signature. *)
  readTmp 8 ;;
  t <- gets tmp ;;
  if negb (bytes_eqb (firstn 8 t) pngHeader) then fail ErrNotPNG
  else
    write (firstn 8 t) ;;
    (* Read IHDR chunk. *)
    '(length, kind) <- chunk ;;
    if negb (bytes_eqb kind IHDR) then fail ErrMissingIHDR
    else if negb (length =? 13) then fail ErrIHDRLength
    else
      t <- gets tmp ;;
      write (firstn 8 t) ;;
      readTmp 13 ;;
      t <- gets tmp ;;
      if negb (Byte.eqb (nth 10 t x00) x00) then fail ErrCompressionMethod
      else
        modify (fun p => set_crc (crc32.Write (crc p) (firstn 13 t)) p) ;;
        write (firstn 13 t) ;;
        verifyCrc ;;
        t <- gets tmp ;;
        write (firstn 4 t).

(** One round of the loop [for p.idatLength == 0] of [Read]: [Some] is a
    return from inside the loop. *)
Definition nextChunk (p : repacker) : option (bytes * option error) * repacker :=
  match readTmp 4 p with
  | (Err e, p) => (Some ([], Some e), p)
  | (Ok _, p) =>
      if negb (Uint32 (firstn 4 (tmp p)) =? crc32.Sum32 (crc p))
      then (Some ([], Some ErrIDATChecksum), p)
      else
        match readTmp 8 p with
        | (Err e, p) => (Some ([], Some e), p)
        | (Ok _, p) =>
            let p := set_idatLength (Uint32 (firstn 4 (tmp p))) p in
            if negb (bytes_eqb (firstn 4 (skipn 4 (tmp p))) IDAT)
            then (Some ([], Some EOF), set_haveLastChunk true p)
            else
              (None,
               set_crc (crc32.Write (crc32.Reset (crc p))
                          (firstn 4 (skipn 4 (tmp p)))) p)
        end
  end.

(** The loop [for p.idatLength == 0 { ... }].  Every round that does not
    return reads twelve bytes of the source, so [length (r p)] rounds are
    more than the loop can make (see [skipChunks_fuel]). *)
Fixpoint skipChunks (fuel : nat) (p : repacker)
  : option (bytes * option error) * repacker :=
  if idatLength p =? 0 then
    match nextChunk p with
    | (Some ret, p') => (Some ret, p')
    | (None, p') =>
        match fuel with
        | O => (Some ([], Some ErrUnexpectedEOF), p')
        | S fuel' => skipChunks fuel' p'
        end
    end
  else (None, p).

(** [func (p *repacker) Read(b []byte) (nn int, err error)] with
    [len(b) = n]: the bytes put into [b] and the error. *)
Definition Read (n : Z) (p : repacker) : (bytes * option error) * repacker :=
  if n =? 0 then (([], None), p)
  else
    match skipChunks (length (r p)) p with
    | (Some ret, p) => (ret, p)
    | (None, p) =>
        if idatLength p >? maxChunkLen then (([], Some ErrIDATTooBig), p)
        else
          let '(b, err, rest) := src_Read (Z.min n (idatLength p)) (r p) in
          let p := set_r rest p in
          let p := set_crc (crc32.Write (crc p) b) p in
          let p := set_idatLength (uint32 (idatLength p - uint32 (len b))) p in
          ((b, err), p)
    end.

(** The [repacker] that [Repack] makes: [r] over the bytes [input], and a
    sink that has received nothing. *)
Definition init (input : bytes) (lvl : Z) : repacker :=
  {| r := input; w := []; level := lvl;
     tmp := repeat x00 13; crc := crc32.NewIEEE;
     idatLength := 0; haveLastChunk := false; haveIDAT := false |}.

Section WithCodec.
Context {codec : Codec}.

(** [zlib.NewReader(p)], reading through [p.Read]. *)
Fixpoint newReader (o : zopen) : M repacker zreader := fun p =>
  match o with
  | ONeed n k =>
      match Read n p with
      | ((b, None), p') => newReader (k b false) p'
      | ((b, Some EOF), p') => newReader (k b true) p'
      | ((_, Some e), p') => (Err e, p')
      end
  | OFail e => (Err e, p)
  | OReady z => (Ok z, p)
  end.

(** The variables of [handleIDAT] that live across rounds of its loop. *)
Record locals : Type := {
  zw : zwriter;
  icrc : crc32.digest;
  buf : bytes                (* bytes.Buffer *)
}.

(** The loop body of [handleIDAT] from [zw.Write] on: recompress what was
    read and write it as one IDAT chunk. *)
Definition emit (out : bytes) (l : locals) : M repacker locals :=
  let '(zw1, b1) := zw_Write (zw l) out in
  let buf1 := buf l ++ b1 in
  let '(zw2, b2) := zw_Flush zw1 in
  let buf2 := buf1 ++ b2 in
  (* Write length, chunk name, chunk data, crc. *)
  write (PutUint32 (uint32 (len buf2))) ;;
  write IDAT ;;
  write buf2 ;;
  let icrc1 := crc32.Write (crc32.Write (icrc l) IDAT) buf2 in
  write (PutUint32 (crc32.Sum32 icrc1)) ;;
  ret {| zw := zw2; icrc := crc32.Reset icrc1; buf := [] |}.

(** The loop [for !eof] of [handleIDAT], along the decoding session:
    [ZNeed] is a read that [zr.Read] makes of [p], [ZYield] and [ZStop]
    are the returns of [zr.Read(p.buf)].  The result carries the locals
    at the return, for the deferred [zw.Close()]. *)
Fixpoint readLoop (z : zreader) (l : locals) : M repacker locals := fun p =>
  match z with
  | ZNeed n k =>
      match Read n p with
      | ((b, None), p') => readLoop (k b false) l p'
      | ((b, Some EOF), p') => readLoop (k b true) l p'
      | ((_, Some e), p') => (Err e, p')
      end
  | ZYield out k =>
      if len out =? 0 then readLoop k l p
      else
        match emit out l p with
        | (Ok l', p') => readLoop k l' p'
        | (Err e, p') => (Err e, p')
        end
  | ZStop out EOF =>
      (* eof = true *)
      if len out =? 0 then (Ok l, p) else emit out l p
  | ZStop out e => (Err e, p)
  end.

(** [func (p *repacker) handleIDAT(length int) error].  The deferred
    [zw.Close()] appends to the local [buf] after the last chunk was
    written, so what it appends is returned here and goes nowhere. *)
Definition handleIDAT (length : Z) : M repacker bytes :=
  modify (set_idatLength (uint32 length)) ;;
  zr <- newReader NewReader ;;
  lvl <- gets level ;;
  match NewWriterLevel lvl with
  | inr e => fail e
  | inl zw0 =>
      l <- readLoop zr {| zw := zw0; icrc := crc32.NewIEEE; buf := [] |} ;;
      ret (buf l ++ zw_Close (zw l))
  end.

(** One round of the loop of [repack]: [Some] is a return. *)
Definition repackChunk (p : repacker) : option (option error) * repacker :=
  match chunk p with
  | (Err EOF, p) => (Some None, p)
  | (Err e, p) => (Some (Some e), p)
  | (Ok (length, kind), p) =>
      let any (length : Z) (p : repacker) :=
        match handleAnyChunk length p with
        | (Err e, p) => (Some (Some e), p)
        | (Ok _, p) => (None, p)
        end in
      if bytes_eqb kind IDAT then
        if haveIDAT p then (Some (Some ErrIDATOrder), p)
        else
          match handleIDAT length p with
          | (Err e, p) => (Some (Some e), p)
          | (Ok _, p) =>
              let p := set_haveIDAT true p in
              (* Chunk after IDAT *)
              if negb (haveLastChunk p) then
                (* Verify checksum. *)
                match readTmp 4 p with
                | (Err e, p) => (Some (Some e), p)
                | (Ok _, p) =>
                    if negb (Uint32 (firstn 4 (tmp p)) =? crc32.Sum32 (crc p))
                    then (Some (Some ErrIDATChecksum), p)
                    else (None, p)
                end
              else
                let ulen := Uint32 (firstn 4 (tmp p)) in
                if ulen >? maxChunkLen then (Some (Some ErrChunkTooBig), p)
                else any ulen p
          end
      else any length p
  end.

(** The loop [for { ... }] of [repack].  A round that does not return
    has read the eight bytes of a chunk header, so [length (r p)] rounds
    are more than the loop can make (see [repackLoop_fuel]). *)
Fixpoint repackLoop (fuel : nat) (p : repacker) : option error * repacker :=
  match repackChunk p with
  | (Some ret, p') => (ret, p')
  | (None, p') =>
      match fuel with
      | O => (Some ErrUnexpectedEOF, p')
      | S fuel' => repackLoop fuel' p'
      end
  end.

(** [func (p *repacker) repack() error] *)
Definition repack (p : repacker) : option error * repacker :=
  match header p with
  | (Err e, p) => (Some e, p)
  | (Ok _, p) => repackLoop (length (r p)) p
  end.

(** [func Repack(w io.Writer, r io.Reader, level int) error], with the
    bytes the sink has received. *)
Definition Repack (input : bytes) (lvl : Z) : option error * bytes :=
  let '(e, p') := repack (init input lvl) in (e, w p').

End WithCodec.

End Repacker.

(* ================================================================== *)
(** ** The pull-style transcoder: [Reader] *)

Module Reader.

(** zlib reads in blocks of 32K *)
Definition bufSize : Z := 32768.

(** The constants [stStart] ... [stIDAT] of [p.stage]. *)
Inductive Stage : Type :=
| stStart | stChunkHead | stChunkData | stChunkCrc | stIDAT.

Section WithCodec.
Context {codec : Codec}.

(** [type Reader struct].  [r] holds the bytes of the source not read
    yet; [w] is the [bytes.Buffer] of output not handed to the caller
    yet; [zr] and [zw] are nil until the IDAT run starts; of [buf] only
    the length [bufSize] matters. *)
Record Reader : Type := {
  r : bytes;
  w : bytes;
  level : Z;
  tmp : bytes;               (* [13]byte *)
  crc : crc32.digest;
  readNonIDAT : bool;
  processedIDAT : bool;
  stage : Stage;
  chunkLen : Z;
  chunkType : bytes;
  zr : option zreader;
  zw : option zwriter;
  zbuf : bytes;              (* bytes.Buffer *)
  zcrc : crc32.digest;
  eof : bool
}.

Definition set_r (v : bytes) (p : Reader) : Reader :=
  {| r := v; w := w p; level := level p; tmp := tmp p; crc := crc p;
     readNonIDAT := readNonIDAT p; processedIDAT := processedIDAT p;
     stage := stage p; chunkLen := chunkLen p; chunkType := chunkType p;
     zr := zr p; zw := zw p; zbuf := zbuf p; zcrc := zcrc p;
     eof := eof p |}.
Definition set_w (v : bytes) (p : Reader) : Reader :=
  {| r := r p; w := v; level := level p; tmp := tmp p; crc := crc p;
     readNonIDAT := readNonIDAT p; processedIDAT := processedIDAT p;
     stage := stage p; chunkLen := chunkLen p; chunkType := chunkType p;
     zr := zr p; zw := zw p; zbuf := zbuf p; zcrc := zcrc p;
     eof := eof p |}.
Definition set_level (v : Z) (p : Reader) : Reader :=
  {| r := r p; w := w p; level := v; tmp := tmp p; crc := crc p;
     readNonIDAT := readNonIDAT p; processedIDAT := processedIDAT p;
     stage := stage p; chunkLen := chunkLen p; chunkType := chunkType p;
     zr := zr p; zw := zw p; zbuf := zbuf p; zcrc := zcrc p;
     eof := eof p |}.
Definition set_tmp (v : bytes) (p : Reader) : Reader :=
  {| r := r p; w := w p; level := level p; tmp := v; crc := crc p;
     readNonIDAT := readNonIDAT p; processedIDAT := processedIDAT p;
     stage := stage p; chunkLen := chunkLen p; chunkType := chunkType p;
     zr := zr p; zw := zw p; zbuf := zbuf p; zcrc := zcrc p;
     eof := eof p |}.
Definition set_crc (v : crc32.digest) (p : Reader) : Reader :=
  {| r := r p; w := w p; level := level p; tmp := tmp p; crc := v;
     readNonIDAT := readNonIDAT p; processedIDAT := processedIDAT p;
     stage := stage p; chunkLen := chunkLen p; chunkType := chunkType p;
     zr := zr p; zw := zw p; zbuf := zbuf p; zcrc := zcrc p;
     eof := eof p |}.
Definition set_readNonIDAT (v : bool) (p : Reader) : Reader :=
  {| r := r p; w := w p; level := level p; tmp := tmp p; crc := crc p;
     readNonIDAT := v; processedIDAT := processedIDAT p; stage := stage p;
     chunkLen := chunkLen p; chunkType := chunkType p; zr := zr p;
     zw := zw p; zbuf := zbuf p; zcrc := zcrc p; eof := eof p |}.
Definition set_processedIDAT (v : bool) (p : Reader) : Reader :=
  {| r := r p; w := w p; level := level p; tmp := tmp p; crc := crc p;
     readNonIDAT := readNonIDAT p; processedIDAT := v; stage := stage p;
     chunkLen := chunkLen p; chunkType := chunkType p; zr := zr p;
     zw := zw p; zbuf := zbuf p; zcrc := zcrc p; eof := eof p |}.
Definition set_stage (v : Stage) (p : Reader) : Reader :=
  {| r := r p; w := w p; level := level p; tmp := tmp p; crc := crc p;
     readNonIDAT := readNonIDAT p; processedIDAT := processedIDAT p;
     stage := v; chunkLen := chunkLen p; chunkType := chunkType p;
     zr := zr p; zw := zw p; zbuf := zbuf p; zcrc := zcrc p;
     eof := eof p |}.
Definition set_chunkLen (v : Z) (p : Reader) : Reader :=
  {| r := r p; w := w p; level := level p; tmp := tmp p; crc := crc p;
     readNonIDAT := readNonIDAT p; processedIDAT := processedIDAT p;
     stage := stage p; chunkLen := v; chunkType := chunkType p; zr := zr p;
     zw := zw p; zbuf := zbuf p; zcrc := zcrc p; eof := eof p |}.
Definition set_chunkType (v : bytes) (p : Reader) : Reader :=
  {| r := r p; w := w p; level := level p; tmp := tmp p; crc := crc p;
     readNonIDAT := readNonIDAT p; processedIDAT := processedIDAT p;
     stage := stage p; chunkLen := chunkLen p; chunkType := v; zr := zr p;
     zw := zw p; zbuf := zbuf p; zcrc := zcrc p; eof := eof p |}.
Definition set_zr (v : option zreader) (p : Reader) : Reader :=
  {| r := r p; w := w p; level := level p; tmp := tmp p; crc := crc p;
     readNonIDAT := readNonIDAT p; processedIDAT := processedIDAT p;
     stage := stage p; chunkLen := chunkLen p; chunkType := chunkType p;
     zr := v; zw := zw p; zbuf := zbuf p; zcrc := zcrc p; eof := eof p |}.
Definition set_zw (v : option zwriter) (p : Reader) : Reader :=
  {| r := r p; w := w p; level := level p; tmp := tmp p; crc := crc p;
     readNonIDAT := readNonIDAT p; processedIDAT := processedIDAT p;
     stage := stage p; chunkLen := chunkLen p; chunkType := chunkType p;
     zr := zr p; zw := v; zbuf := zbuf p; zcrc := zcrc p; eof := eof p |}.
Definition set_zbuf (v : bytes) (p : Reader) : Reader :=
  {| r := r p; w := w p; level := level p; tmp := tmp p; crc := crc p;
     readNonIDAT := readNonIDAT p; processedIDAT := processedIDAT p;
     stage := stage p; chunkLen := chunkLen p; chunkType := chunkType p;
     zr := zr p; zw := zw p; zbuf := v; zcrc := zcrc p; eof := eof p |}.
Definition set_zcrc (v : crc32.digest) (p : Reader) : Reader :=
  {| r := r p; w := w p; level := level p; tmp := tmp p; crc := crc p;
     readNonIDAT := readNonIDAT p; processedIDAT := processedIDAT p;
     stage := stage p; chunkLen := chunkLen p; chunkType := chunkType p;
     zr := zr p; zw := zw p; zbuf := zbuf p; zcrc := v; eof := eof p |}.
Definition set_eof (v : bool) (p : Reader) : Reader :=
  {| r := r p; w := w p; level := level p; tmp := tmp p; crc := crc p;
     readNonIDAT := readNonIDAT p; processedIDAT := processedIDAT p;
     stage := stage p; chunkLen := chunkLen p; chunkType := chunkType p;
     zr := zr p; zw := zw p; zbuf := zbuf p; zcrc := zcrc p; eof := v |}.
Local Open Scope go_scope.

(** [io.ReadFull(p.r, p.tmp[:n])] *)
Definition readTmp (n : nat) : M Reader unit := fun p =>
  let '(b, e, rest) := ReadFull n (r p) in
  let p' := set_tmp (overwrite b (tmp p)) (set_r rest p) in
  match e with
  | None => (Ok tt, p')
  | Some e => (Err e, p')
  end.

(** [p.w.Write(b)] *)
Definition write (b : bytes) : M Reader unit :=
  modify (fun p => set_w (w p ++ b) p).

(** [func (p *Reader) chunkHeader() (length int, kind string, err error)] *)
Definition chunkHeader : M Reader (Z * bytes) :=
  readTmp 8 ;;
  t <- gets tmp ;;
  let ulen := Uint32 (firstn 4 t) in
  if ulen >? maxChunkLen then fail ErrChunkTooBig
  else
    let kind := firstn 4 (skipn 4 t) in
    (if negb (bytes_eqb kind IDAT)
     then (* Write chunk header. *) write (firstn 8 t)
     else ret tt) ;;
    modify (fun p => set_crc (crc32.Write (crc32.Reset (crc p)) kind) p) ;;
    ret (ulen, kind).

(** [func (p *Reader) verifyCrc() error] *)
Definition verifyCrc : M Reader unit :=
  readTmp 4 ;;
  t <- gets tmp ;;
  c <- gets crc ;;
  if negb (Uint32 (firstn 4 t) =? crc32.Sum32 c) then fail ErrChecksum
  else
    write (firstn 4 t) ;;
    modify (fun p => set_crc (crc32.Reset (crc p)) p).

(** [func (p *Reader) verifyHeader() error] *)
Definition verifyHeader : M Reader unit :=
  (* Verify PNG file signature. *)
  readTmp 8 ;;
  t <- gets tmp ;;
  if negb (bytes_eqb (firstn 8 t) pngHeader) then fail ErrNotPNG
  else
    write (firstn 8 t) ;;
    (* Read IHDR chunk. *)
    '(length, kind) <- chunkHeader ;;
    if negb (bytes_eqb kind IHDR) then fail ErrMissingIHDR
    else if negb (length =? 13) then fail ErrIHDRLength
    else
      readTmp 13 ;;
      t <- gets tmp ;;
      if negb (Byte.eqb (nth 10 t x00) x00) then fail ErrCompressionMethod
      else
        modify (fun p => set_crc (crc32.Write (crc p) (firstn 13 t)) p) ;;
        write (firstn 13 t) ;;
        verifyCrc.

(** One round of the loop [for p.r.chunkLen == 0] of [idatReader.Read]:
    [Some] is a return from inside the loop. *)
Definition nextChunk (p : Reader) : option (bytes * option error) * Reader :=
  match readTmp 4 p with
  | (Err e, p) => (Some ([], Some e), p)
  | (Ok _, p) =>
      if negb (Uint32 (firstn 4 (tmp p)) =? crc32.Sum32 (crc p))
      then (Some ([], Some ErrIDATChecksum), p)
      else
        match readTmp 8 p with
        | (Err e, p) => (Some ([], Some e), p)
        | (Ok _, p) =>
            let ulen := Uint32 (firstn 4 (tmp p)) in
            if ulen >? maxChunkLen then (Some ([], Some ErrChunkTooBig), p)
            else
              let p := set_chunkLen ulen p in
              if chunkLen p >? maxChunkLen
              then (Some ([], Some ErrIDATTooBig), p)
              else
                let p := set_chunkType (firstn 4 (skipn 4 (tmp p))) p in
                let p := set_crc (crc32.Write (crc32.Reset (crc p))
                                    (firstn 4 (skipn 4 (tmp p)))) p in
                if negb (bytes_eqb (chunkType p) IDAT)
                then (Some ([], Some EOF), set_readNonIDAT true p)
                else (None, p)
        end
  end.

(** The loop [for p.r.chunkLen == 0 { ... }].  Every round that does not
    return reads twelve bytes of the source, so [length (r p)] rounds
    are more than the loop can make (see [skipChunks_fuel]). *)
Fixpoint skipChunks (fuel : nat) (p : Reader)
  : option (bytes * option error) * Reader :=
  if chunkLen p =? 0 then
    match nextChunk p with
    | (Some ret, p') => (Some ret, p')
    | (None, p') =>
        match fuel with
        | O => (Some ([], Some ErrUnexpectedEOF), p')
        | S fuel' => skipChunks fuel' p'
        end
    end
  else (None, p).

(** [func (p *idatReader) Read(b []byte) (nn int, err error)] with
    [len(b) = n]; [p.r] is the [Reader]. *)
Definition idatReader_Read (n : Z) (p : Reader)
  : (bytes * option error) * Reader :=
  if n =? 0 then (([], None), p)
  else
    match skipChunks (length (r p)) p with
    | (Some ret, p) => (ret, p)
    | (None, p) =>
        let '(b, err, rest) := src_Read (Z.min n (chunkLen p)) (r p) in
        let p := set_r rest p in
        let p := set_crc (crc32.Write (crc p) b) p in
        let p := set_chunkLen (chunkLen p - len b) p in
        ((b, err), p)
    end.

(** [zlib.NewReader(&idatReader{r: p})] *)
Fixpoint newReader (o : zopen) : M Reader zreader := fun p =>
  match o with
  | ONeed n k =>
      match idatReader_Read n p with
      | ((b, None), p') => newReader (k b false) p'
      | ((b, Some EOF), p') => newReader (k b true) p'
      | ((_, Some e), p') => (Err e, p')
      end
  | OFail e => (Err e, p)
  | OReady z => (Ok z, p)
  end.

(** [p.zr.Read(p.buf)]: the session runs up to its next return; the
    third component is the session from there on. *)
Fixpoint zr_Read (z : zreader) (p : Reader)
  : (bytes * option error * zreader) * Reader :=
  match z with
  | ZNeed n k =>
      match idatReader_Read n p with
      | ((b, None), p') => zr_Read (k b false) p'
      | ((b, Some EOF), p') => zr_Read (k b true) p'
      | ((_, Some e), p') => (([], Some e, ZStop [] e), p')
      end
  | ZYield out k => ((out, None, k), p)
  | ZStop out e => ((out, Some e, ZStop [] e), p)
  end.

(** [handleIDAT] from [p.zw.Write] on: recompress what was read and
    write it as one IDAT chunk; [at_eof] is [rerr == io.EOF]. *)
Definition emit (out : bytes) (at_eof : bool) (zw0 : zwriter)
  : M Reader unit := fun p =>
  let '(zw1, b1) := zw_Write zw0 out in
  let '(zw2, b2) := zw_Flush zw1 in
  let b3 := if at_eof then zw_Close zw2 else [] in
  let p := set_zw (Some zw2) (set_zbuf (zbuf p ++ b1 ++ b2 ++ b3) p) in
  (* Write length, chunk name, chunk data, crc. *)
  let p := set_w (w p ++ PutUint32 (uint32 (len (zbuf p)))) p in
  let p := set_w (w p ++ IDAT) p in
  let p := set_w (w p ++ zbuf p) p in
  let p := set_zcrc (crc32.Write (crc32.Write (zcrc p) IDAT) (zbuf p)) p in
  let p := set_w (w p ++ PutUint32 (crc32.Sum32 (zcrc p))) p in
  let p := set_zcrc (crc32.Reset (zcrc p)) p in
  let p := set_zbuf [] p in
  if at_eof then (Err EOF, p) else (Ok tt, p).

(** [func (p *Reader) handleIDAT() error] *)
Definition handleIDAT : M Reader unit := fun p =>
  match zr p, zw p with
  | Some z, Some zw0 =>
      let '((out, rerr, z'), p) := zr_Read z p in
      let p := set_zr (Some z') p in
      match rerr with
      | Some EOF => emit out true zw0 p
      | Some e => (Err e, p)
      | None => emit out false zw0 p
      end
  | _, _ => (Err Panic, p)
  end.

(** [func (p *Reader) handleChunkData() (err error)] *)
Definition handleChunkData : M Reader unit := fun p =>
  if bytes_eqb (chunkType p) IDAT then
    if processedIDAT p then (Err ErrIDATOrder, p)
    else
      match newReader NewReader p with
      | (Err e, p) => (Err e, set_zr None p)
      | (Ok z, p) =>
          let p := set_zr (Some z) p in
          match NewWriterLevel (level p) with
          | inr e => (Err e, set_zw None p)
          | inl zw0 =>
              let p := set_zw (Some zw0) p in
              let p := set_processedIDAT true p in
              (Ok tt, set_stage stIDAT p)
          end
      end
  else
    (* Read and chunk write data. *)
    let '(b, err, rest) := src_Read (Z.min bufSize (chunkLen p)) (r p) in
    let p := set_r rest p in
    match err with
    | Some e => (Err e, p)
    | None =>
        let p := set_w (w p ++ b) p in
        let p := set_crc (crc32.Write (crc p) b) p in
        let p := set_chunkLen (chunkLen p - len b) p in
        if chunkLen p =? 0 then (Ok tt, set_stage stChunkCrc p)
        else (Ok tt, p)
    end.

(** [func (p *Reader) refill() error] *)
Definition refill : M Reader unit := fun p =>
  match stage p with
  | stStart =>
      match verifyHeader p with
      | (Err e, p) => (Err e, p)
      | (Ok _, p) => (Ok tt, set_stage stChunkHead p)
      end
  | stChunkHead =>
      match chunkHeader p with
      | (Err e, p) => (Err e, p)
      | (Ok (length, kind), p) =>
          if length >? maxChunkLen then (Err ErrChunkTooBig, p)
          else
            (Ok tt, set_stage stChunkData
                      (set_chunkType kind (set_chunkLen length p)))
      end
  | stChunkData => handleChunkData p
  | stChunkCrc =>
      match verifyCrc p with
      | (Err e, p) => (Err e, p)
      | (Ok _, p) => (Ok tt, set_stage stChunkHead p)
      end
  | stIDAT =>
      match handleIDAT p with
      | (Err EOF, p) =>
          if negb (readNonIDAT p) then
            (* Verify checksum of last IDAT chunk without writing it. *)
            match readTmp 4 p with
            | (Err e, p) => (Err e, p)
            | (Ok _, p) =>
                if negb (Uint32 (firstn 4 (tmp p)) =? crc32.Sum32 (crc p))
                then (Err ErrIDATChecksum, p)
                else (Ok tt, set_stage stChunkHead p)
            end
          else (Ok tt, set_stage stChunkData p)
      | (Err e, p) => (Err e, p)
      | (Ok _, p) => (Ok tt, p)
      end
  end.

(** The loop [for p.w.Len() == 0] of [Read]: [Some] is a return from
    inside the loop, and the outer [None] is a loop that made more than
    [fuel] rounds. *)
Fixpoint fill (fuel : nat) (p : Reader)
  : option (option (bytes * option error) * Reader) :=
  if len (w p) =? 0 then
    if eof p then Some (Some ([], Some EOF), p)
    else
      match fuel with
      | O => None
      | S fuel' =>
          match refill p with
          | (Err EOF, p) => fill fuel' (set_eof true p)
          | (Err e, p) => Some (Some ([], Some e), p)
          | (Ok _, p) => fill fuel' p
          end
      end
  else Some (None, p).

(** [func (p *Reader) Read(b []byte) (nn int, err error)] with
    [len(b) = n]. *)
Definition Read (fuel : nat) (n : Z) (p : Reader)
  : option ((bytes * option error) * Reader) :=
  match fill fuel p with
  | None => None
  | Some (Some ret, p) => Some (ret, p)
  | Some (None, p) =>
      (* p.w.Read(b[:min(len(b), p.w.Len())]) *)
      let m := Z.min n (len (w p)) in
      Some ((take m (w p), None), set_w (drop m (w p)) p)
  end.

(** [func NewReader(r io.Reader, level int) io.Reader] *)
Definition New (input : bytes) (lvl : Z) : Reader :=
  {| r := input; w := []; level := lvl; tmp := repeat x00 13;
     crc := crc32.NewIEEE; readNonIDAT := false; processedIDAT := false;
     stage := stStart; chunkLen := 0; chunkType := [];
     zr := None; zw := None; zbuf := []; zcrc := crc32.NewIEEE;
     eof := false |}.

(** [io.Copy(w, p)]: the loop that reads [p] into a buffer of 32K and
    writes what it got to the sink [out]. *)
Fixpoint copy (fuel : nat) (p : Reader) (out : bytes)
  : option (option error * bytes) :=
  match fuel with
  | O => None
  | S fuel' =>
      match Read fuel (32 * 1024) p with
      | None => None
      | Some ((b, er), p) =>
          let out := out ++ b in
          match er with
          | Some EOF => Some (None, out)
          | Some e => Some (Some e, out)
          | None => copy fuel' p out
          end
      end
  end.

(** [func Repack(w io.Writer, r io.Reader, level int) error], with the
    bytes the sink has received; [None] when [fuel] rounds were not
    enough. *)
Definition Repack (fuel : nat) (input : bytes) (lvl : Z)
  : option (option error * bytes) :=
  copy fuel (New input lvl) [].

End WithCodec.

End Reader.

(* ================================================================== *)
(** ** A small codec to run the transcoders on

    [Stored] is an instance of [Codec] simple enough to compute with.  Its
    stream is a two-byte header ([x78] and the level), then tagged items:
    [x01 b] is the data byte [b], [x02] ends a flushed block and [x00] ends
    the stream.  The decoder reads its source in blocks of [blk] bytes and
    hands out the data of one flushed block per call; at the end of the
    stream it stops, and it asks its source for more only when it has
    nothing left to decode: a source that ends there is an unexpected end
    of input. *)

Module Stored.

Definition blk : Z := 4096.

Record writer : Type := {
  wroteHeader : bool;
  wlevel : Z;
  pending : bytes
}.

Definition stuff (data : bytes) : bytes :=
  flat_map (fun b => [x01; b]) data.

Definition head (z : writer) : bytes :=
  if wroteHeader z then [] else [x78; byte_of_Z (wlevel z)].

Definition newWriter (lvl : Z) : writer + error :=
  if (lvl <? -2) || (9 <? lvl) then inr (ErrZlib 3)
  else inl {| wroteHeader := false; wlevel := lvl; pending := [] |}.

Definition write (z : writer) (data : bytes) : writer * bytes :=
  ({| wroteHeader := true; wlevel := wlevel z; pending := pending z ++ data |},
   head z).

Definition flush (z : writer) : writer * bytes :=
  ({| wroteHeader := true; wlevel := wlevel z; pending := [] |},
   head z ++ stuff (pending z) ++ [x02]).

Definition close (z : writer) : bytes :=
  head z ++ stuff (pending z) ++ [x00].

(** The body of the stream: [inbuf] is what was read and not decoded yet,
    [acc] the data decoded since the last return. *)
Fixpoint body (fuel : nat) (inbuf acc : bytes) : zreader :=
  match fuel with
  | O => ZStop acc (ErrZlib 2)
  | S fuel' =>
      match inbuf with
      | [] =>
          ZNeed blk (fun bs eof =>
            match bs with
            | [] => if eof then ZStop acc ErrUnexpectedEOF
                    else body fuel' [] acc
            | _ => body fuel' bs acc
            end)
      | x00 :: _ => ZStop acc EOF
      | x01 :: b :: rest => body fuel' rest (acc ++ [b])
      | [x01] =>
          ZNeed blk (fun bs eof =>
            match bs with
            | [] => if eof then ZStop acc ErrUnexpectedEOF
                    else body fuel' [x01] acc
            | b :: rest => body fuel' rest (acc ++ [b])
            end)
      | x02 :: rest => ZYield acc (body fuel' rest [])
      | _ => ZStop acc (ErrZlib 1)
      end
  end.

(** The header, then the body. *)
Definition open (fuel : nat) : zopen :=
  ONeed blk (fun bs eof =>
    match bs with
    | x78 :: _ :: rest => OReady (body fuel rest [])
    | [x78] =>
        ONeed blk (fun bs eof =>
          match bs with
          | _ :: rest => OReady (body fuel rest [])
          | [] => OFail ErrUnexpectedEOF
          end)
    | [] => OFail ErrUnexpectedEOF
    | _ => OFail (ErrZlib 0)
    end).

Definition codec (fuel : nat) : Codec :=
  {| NewReader := open fuel;
     zwriter := writer;
     NewWriterLevel := newWriter;
     zw_Write := write;
     zw_Flush := flush;
     zw_Close := close |}.

(** The codec of the examples. *)
Definition exact : Codec := codec 1000.

End Stored.

(* ================================================================== *)
(** ** PNG files as data *)

Record Chunk : Type := {
  kind : bytes;          (* the four bytes of the type *)
  data : bytes
}.

(** The wire format of a chunk. *)
Definition encode (c : Chunk) : bytes :=
  PutUint32 (len (data c)) ++ kind c ++ data c
  ++ PutUint32 (crc32.ChecksumIEEE (kind c ++ data c)).

Definition encodes (cs : list Chunk) : bytes := flat_map encode cs.

Definition is_IDAT (c : Chunk) : bool := bytes_eqb (kind c) IDAT.

(** A chunk as the format has it: a four-byte type and a length within
    2^31-1. *)
Definition wf_chunk (c : Chunk) : Prop :=
  length (kind c) = 4%nat /\ len (data c) <= maxChunkLen.

Module Sample.

Definition tEXt : bytes := [x74; x45; x58; x74].
Definition IEND : bytes := [x49; x45; x4e; x44].

Definition ihdr : Chunk :=
  {| kind := IHDR;
     data := [x00; x00; x00; x01; x00; x00; x00; x01; x08; x00; x00; x00; x00] |}.
Definition text : Chunk := {| kind := tEXt; data := [x68; x69] |}.
Definition iend : Chunk := {| kind := IEND; data := [] |}.

(** The pixel data [x0a; x0b; x0c] as a [Stored] stream of level 6, in two
    IDAT chunks. *)
Definition pixels : bytes := [x0a; x0b; x0c].
Definition stream : bytes :=
  [x78; x06; x01; x0a; x01; x0b; x02; x01; x0c; x00].
Definition idat1 : Chunk := {| kind := IDAT; data := firstn 5 stream |}.
Definition idat2 : Chunk := {| kind := IDAT; data := skipn 5 stream |}.

Definition png : bytes :=
  pngHeader ++ encodes [ihdr; text; idat1; idat2; text; iend].

End Sample.

(* ================================================================== *)
(** ** The image-data run as its decoder sees it

    What [zlib.NewReader] reads through the transcoder is the data of the
    consecutive IDAT chunks, handed over chunk by chunk.  [Run] says this
    without the container around it: [cur] is what is left of the data of
    the chunk being read, [next] the data of the IDAT chunks after it, and
    [polled] whether the decoder asked for more after the last of them. *)

Module Run.

Record run : Type := {
  cur : bytes;
  next : list bytes;
  polled : bool
}.

(** The first chunk with data, and the chunks after it. *)
Fixpoint skip (l : list bytes) : option (bytes * list bytes) :=
  match l with
  | [] => None
  | [] :: l' => skip l'
  | d :: l' => Some (d, l')
  end.

(** A read with a buffer of [n] bytes: the bytes and whether the run
    reported its end. *)
Definition read (n : Z) (s : run) : (bytes * bool) * run :=
  if n =? 0 then (([], false), s)
  else if polled s then (([], true), s)
  else
    match cur s with
    | _ :: _ =>
        let m := Z.min n (len (cur s)) in
        ((take m (cur s), false),
         {| cur := drop m (cur s); next := next s; polled := false |})
    | [] =>
        match skip (next s) with
        | None => (([], true), {| cur := []; next := []; polled := true |})
        | Some (d, ds) =>
            let m := Z.min n (len d) in
            ((take m d, false),
             {| cur := drop m d; next := ds; polled := false |})
        end
    end.

(** [zlib.NewReader] on the run. *)
Fixpoint open (o : zopen) (s : run) : res zreader * run :=
  match o with
  | ONeed n k => let '((b, eof), s') := read n s in open (k b eof) s'
  | OFail e => (Err e, s)
  | OReady z => (Ok z, s)
  end.

(** All the calls of [zr.Read] up to the one that returns an error: what
    each returned, and the error of the last ([io.EOF] at the end of the
    stream). *)
Fixpoint decode (z : zreader) (s : run) : (list bytes * error) * run :=
  match z with
  | ZNeed n k => let '((b, eof), s') := read n s in decode (k b eof) s'
  | ZYield out k => let '((outs, e), s') := decode k s in ((out :: outs, e), s')
  | ZStop out e => (([out], e), s)
  end.

(** The decoder has read the whole run and no further. *)
Definition exact (s : run) : Prop :=
  cur s = [] /\ next s = [] /\ polled s = false.

Section WithCodec.
Context {codec : Codec}.

(** Decompressing a byte string: [zlib.NewReader] and reads up to
    [io.EOF], on a source that holds just these bytes. *)
Definition inflate (stream : bytes) : res bytes :=
  match open NewReader {| cur := stream; next := []; polled := false |} with
  | (Err e, _) => Err e
  | (Ok z, s) =>
      match decode z s with
      | ((outs, EOF), _) => Ok (concat outs)
      | ((_, e), _) => Err e
      end
  end.

(** What [Repacker.handleIDAT] makes of the decoder's returns: the data
    of the IDAT chunks it writes.  A return without bytes writes
    nothing. *)
Fixpoint repacked (zw : zwriter) (outs : list bytes) : list bytes :=
  match outs with
  | [] => []
  | out :: outs' =>
      if len out =? 0 then repacked zw outs'
      else
        let '(zw1, b1) := zw_Write zw out in
        let '(zw2, b2) := zw_Flush zw1 in
        (b1 ++ b2) :: repacked zw2 outs'
  end.

(** What [Reader.handleIDAT] makes of them: one chunk per return, the
    last one closing the stream. *)
Fixpoint reread (zw : zwriter) (outs : list bytes) : list bytes :=
  match outs with
  | [] => []
  | out :: outs' =>
      let '(zw1, b1) := zw_Write zw out in
      let '(zw2, b2) := zw_Flush zw1 in
      match outs' with
      | [] => [b1 ++ b2 ++ zw_Close zw2]
      | _ => (b1 ++ b2) :: reread zw2 outs'
      end
  end.

End WithCodec.

End Run.

(* ================================================================== *)
(** ** PNG files, continued *)

Definition idat (d : bytes) : Chunk := {| kind := IDAT; data := d |}.

(** A file with one image-data run: the header chunk, the chunks before the
    run, the run, the chunks after it. *)
Record Png : Type := {
  ihdr : bytes;                (* the data of IHDR *)
  pre : list Chunk;
  idat0 : bytes;               (* the data of the first IDAT chunk *)
  idats : list bytes;          (* and of the IDAT chunks after it *)
  post : list Chunk
}.

Definition ancillary (c : Chunk) : Prop := wf_chunk c /\ kind c <> IDAT.

Definition wf_png (f : Png) : Prop :=
  length (ihdr f) = 13%nat /\ nth 10 (ihdr f) x00 = x00
  /\ Forall ancillary (pre f)
  /\ Forall (fun d => len d <= maxChunkLen) (idat0 f :: idats f)
  /\ Forall ancillary (post f).

Definition png_bytes (f : Png) : bytes :=
  pngHeader ++ encode {| kind := IHDR; data := ihdr f |}
  ++ encodes (pre f)
  ++ encodes (map idat (idat0 f :: idats f))
  ++ encodes (post f).

(** The run of a file at the moment its first IDAT header was read. *)
Definition run_of (f : Png) : Run.run :=
  {| Run.cur := idat0 f; Run.next := idats f; Run.polled := false |}.

(** Reading a byte string back as chunks, checksums verified; [None] when it
    is not a sequence of chunks.  Every chunk takes at least twelve bytes,
    so [length b] is fuel enough. *)
Fixpoint parse_chunks (fuel : nat) (b : bytes) : option (list Chunk) :=
  match b with
  | [] => Some []
  | _ =>
      match fuel with
      | O => None
      | S fuel' =>
          let n := Uint32 (firstn 4 b) in
          let k := firstn 4 (skipn 4 b) in
          let body := skipn 8 b in
          let d := take n body in
          let tail := drop n body in
          if (length b <? 12)%nat || (len d <? n) || (length tail <? 4)%nat then None
          else if Uint32 (firstn 4 tail) =? crc32.ChecksumIEEE (k ++ d) then
            match parse_chunks fuel' (skipn 4 tail) with
            | Some cs => Some ({| kind := k; data := d |} :: cs)
            | None => None
            end
          else None
      end
  end.

(** Reading a file back: the chunks after the signature. *)
Definition parse_png (b : bytes) : option (list Chunk) :=
  if bytes_eqb (firstn 8 b) pngHeader then parse_chunks (length b) (skipn 8 b)
  else None.

(** The compressed stream of a file: the data of its IDAT chunks. *)
Definition idat_stream (cs : list Chunk) : bytes :=
  flat_map data (filter is_IDAT cs).

(** The output for the file [f] when the run is rewritten as IDAT chunks
    with the data [ds]: everything else as it was. *)
Definition rebuilt (f : Png) (ds : list bytes) : bytes :=
  pngHeader ++ encode {| kind := IHDR; data := ihdr f |}
  ++ encodes (pre f)
  ++ encodes (map idat ds)
  ++ encodes (post f).

(** The chunks of that output. *)
Definition chunks_of (f : Png) (ds : list bytes) : list Chunk :=
  {| kind := IHDR; data := ihdr f |} :: pre f ++ map idat ds ++ post f.

(** The image data of a file: its compressed stream, decompressed.  The
    outer [None] is a byte string that does not read back as chunks. *)
Definition pixels_of {codec : Codec} (b : bytes) : option (res bytes) :=
  match parse_png b with
  | Some cs => Some (Run.inflate (idat_stream cs))
  | None => None
  end.

(** The first violation in a file's first chunk, as the spec orders them:
    its type [k] is not IHDR, its declared length [n] is not 13, the byte at
    offset 10 of its data [d] is not zero. *)
Definition header_violation (k : bytes) (n : Z) (d : bytes) : option error :=
  if negb (bytes_eqb k IHDR) then Some ErrMissingIHDR
  else if negb (n =? 13) then Some ErrIHDRLength
  else if negb (Byte.eqb (nth 10 d x00) x00) then Some ErrCompressionMethod
  else None.

(** Files and states for the examples. *)
Module Cases.
(** [Sample.png] as a [Png]. *)
Definition file : Png :=
  {| ihdr := data Sample.ihdr; pre := [Sample.text];
     idat0 := data Sample.idat1; idats := [data Sample.idat2];
     post := [Sample.text; Sample.iend] |}.

(** A second IDAT chunk after the end of [file]. *)
Definition second_run : bytes := [x00; x00; x00; x01] ++ IDAT ++ [x00].

(** [file] with one more IDAT chunk at the end of its run, of length zero:
    the compressed stream is the same. *)
Definition empty_last : Png :=
  {| ihdr := data Sample.ihdr; pre := [Sample.text];
     idat0 := data Sample.idat1; idats := [data Sample.idat2; []];
     post := [Sample.text; Sample.iend] |}.

(** [file] followed by the header of an IDAT chunk that declares 2^31
    bytes. *)
Definition oversized_second_run : bytes :=
  png_bytes file ++ [x80; x00; x00; x00] ++ IDAT.

(** [Sample.text] with its second data byte changed and its CRC field kept. *)
Definition corrupted_text : bytes :=
  PutUint32 2 ++ Sample.tEXt ++ [x68; x6a]
  ++ PutUint32 (crc32.ChecksumIEEE (Sample.tEXt ++ data Sample.text)).

(** A file whose first ancillary chunk is corrupted. *)
Definition corrupted : bytes :=
  pngHeader ++ encode Sample.ihdr ++ corrupted_text ++ encode Sample.iend.

(** A file whose first chunk is a [tEXt] chunk that declares 2^31 bytes. *)
Definition huge_first : bytes :=
  pngHeader ++ [x80; x00; x00; x00] ++ Sample.tEXt ++ data Sample.ihdr.

(** A file whose compressed stream stops short in its only IDAT chunk,
    which is followed by a chunk that declares 2^31 bytes. *)
Definition short_then_huge : bytes :=
  pngHeader ++ encode Sample.ihdr ++ encode Sample.idat1
  ++ [x80; x00; x00; x00] ++ Sample.IEND.

(** A header chunk with compression method 1, then image data. *)
Definition method1 : bytes :=
  pngHeader ++ PutUint32 13 ++ IHDR
  ++ [x00; x00; x00; x01; x00; x00; x00; x01; x08; x00; x01; x00; x00]
  ++ encode Sample.idat1.

(** [file] with a gzip header where the compressed stream should start. *)
Definition garbled : Png :=
  {| ihdr := data Sample.ihdr; pre := [Sample.text];
     idat0 := [x1f; x8b; x08]; idats := [];
     post := [Sample.iend] |}.

(** [file] with a compressed stream that holds one flushed byte and then a
    tag that [Stored] does not know. *)
Definition broken : Png :=
  {| ihdr := data Sample.ihdr; pre := [Sample.text];
     idat0 := [x78; x06; x01; x0a; x02; x07]; idats := [];
     post := [Sample.iend] |}.

(** What [Stored.newWriter 6] returns, and what the decoder of
    [Stored.exact] returns call by call on the run of [file]. *)
Definition writer6 : Stored.writer :=
  {| Stored.wroteHeader := false; Stored.wlevel := 6; Stored.pending := [] |}.
Definition returns : list bytes := [[x0a; x0b]; [x0c]].

(** The [repacker] on [Sample.png] when [repack] has read the header of
    the first IDAT chunk and is about to call [handleIDAT]. *)
Definition run_start : Repacker.repacker :=
  {| Repacker.r := skipn 55 Sample.png; Repacker.w := [];
     Repacker.level := 6;
     Repacker.tmp := overwrite (PutUint32 5 ++ IDAT) (repeat x00 13);
     Repacker.crc := crc32.Write crc32.NewIEEE IDAT;
     Repacker.idatLength := 0; Repacker.haveLastChunk := false;
     Repacker.haveIDAT := false |}.

(** The [repacker] on [Sample.png] when the decoder has read the data of
    the last IDAT chunk: the source holds that chunk's checksum and the
    chunks after the run. *)
Definition run_end : Repacker.repacker :=
  {| Repacker.r := PutUint32 (crc32.ChecksumIEEE (IDAT ++ data Sample.idat2))
                   ++ encodes [Sample.text; Sample.iend];
     Repacker.w := []; Repacker.level := 6;
     Repacker.tmp := overwrite (PutUint32 5 ++ IDAT) (repeat x00 13);
     Repacker.crc := crc32.ChecksumIEEE (IDAT ++ data Sample.idat2);
     Repacker.idatLength := 0; Repacker.haveLastChunk := false;
     Repacker.haveIDAT := false |}.

(** The same moment in the later revision. *)
Definition rd_run_end : Reader.Reader (codec := Stored.exact) :=
  Reader.set_crc (crc32.ChecksumIEEE (IDAT ++ data Sample.idat2))
    (Reader.set_stage Reader.stIDAT
       (Reader.New
          (PutUint32 (crc32.ChecksumIEEE (IDAT ++ data Sample.idat2))
           ++ encodes [Sample.text; Sample.iend]) 6)).

(** A [Reader] whose decoder is about to return the last byte of the
    image data together with [io.EOF]. *)
Definition rd_last_read : Reader.Reader (codec := Stored.exact) :=
  Reader.set_zw (codec := Stored.exact) (Some writer6)
    (Reader.set_zr (Some (ZStop [x0c] EOF))
       (Reader.set_stage Reader.stIDAT (Reader.New [] 6))).

(** A [Reader] at a chunk boundary, with [input] left in its source. *)
Definition rd_at_chunk (input : bytes) : Reader.Reader (codec := Stored.exact) :=
  Reader.set_stage Reader.stChunkHead (Reader.New input 6).

(** The [repacker] on [Sample.png] inside [handleIDAT], before the decoder
    has read anything, and the same moment in the later revision. *)
Definition in_run : Repacker.repacker := Repacker.set_idatLength 5 run_start.
Definition rd_in_run : Reader.Reader (codec := Stored.exact) :=
  Reader.set_crc (crc32.Write crc32.NewIEEE IDAT)
    (Reader.set_chunkLen 5
       (Reader.set_stage Reader.stIDAT (Reader.New (skipn 55 Sample.png) 6))).

End Cases.

(* ================================================================== *)
(** ** Predicates on the transcoders' states *)

(** A 32-bit value. *)
Definition u32 (x : Z) : Prop := 0 <= x < 2 ^ 32.

Module RepackerInv.
Import Repacker.

(** What a read of the image-data run does not touch: nothing is written,
    the settings stay, and the source is only consumed. *)
Definition quiet (p p' : repacker) : Prop :=
  w p' = w p /\ level p' = level p /\ haveIDAT p' = haveIDAT p
  /\ (length (r p') <= length (r p))%nat.

(** What no step of the transcoder touches: the level stays, a run once
    seen stays seen, and the source is only consumed. *)
Definition steady (p p' : repacker) : Prop :=
  level p' = level p /\ (haveIDAT p = true -> haveIDAT p' = true)
  /\ (length (r p') <= length (r p))%nat.

(** What the loop of [handleIDAT] does to the state: it writes IDAT chunks
    and consumes the source. *)
Definition appended (p p' : repacker) : Prop :=
  (exists ds : list bytes, w p' = w p ++ encodes (map idat ds))
  /\ level p' = level p /\ haveIDAT p' = haveIDAT p
  /\ (length (r p') <= length (r p))%nat.

(** The state [p] is inside the run [s]: the source holds what is left of
    the current chunk, its checksum (over [IDAT], the part [done] already
    read and the part still to come), the IDAT chunks of [Run.next s], and
    then [tail]; the accumulator has seen [IDAT] and [done]. *)
Definition inside (tail : bytes) (s : Run.run) (p : repacker) : Prop :=
  exists done : bytes,
    r p = Run.cur s
          ++ PutUint32 (crc32.ChecksumIEEE (IDAT ++ done ++ Run.cur s))
          ++ encodes (map idat (Run.next s)) ++ tail
    /\ crc p = crc32.ChecksumIEEE (IDAT ++ done)
    /\ idatLength p = len (Run.cur s)
    /\ len (Run.cur s) <= maxChunkLen
    /\ Forall (fun d => len d <= maxChunkLen) (Run.next s)
    /\ haveLastChunk p = false
    /\ Run.polled s = false.

End RepackerInv.

Module ReaderInv.
Import Reader.

Section WithCodec.
Context {codec : Codec}.

(** The state [p] is inside the run [s]; see [RepackerInv.inside]. *)
Definition inside (tail : bytes) (s : Run.run) (p : Reader) : Prop :=
  exists done : bytes,
    r p = Run.cur s
          ++ PutUint32 (crc32.ChecksumIEEE (IDAT ++ done ++ Run.cur s))
          ++ encodes (map idat (Run.next s)) ++ tail
    /\ crc p = crc32.ChecksumIEEE (IDAT ++ done)
    /\ chunkLen p = len (Run.cur s)
    /\ len (Run.cur s) <= maxChunkLen
    /\ Forall (fun d => len d <= maxChunkLen) (Run.next s)
    /\ readNonIDAT p = false
    /\ Run.polled s = false.

(** What a read of the image-data run does not touch. *)
Definition quiet (p p' : Reader) : Prop :=
  w p' = w p /\ level p' = level p /\ processedIDAT p' = processedIDAT p
  /\ stage p' = stage p /\ zr p' = zr p /\ zw p' = zw p
  /\ zbuf p' = zbuf p /\ zcrc p' = zcrc p /\ eof p' = eof p
  /\ (length (r p') <= length (r p))%nat.

(** [io.Copy] seen from [refill]: [p] is a state in which [Read] has
    nothing buffered, [out] what the sink has received, and [res] the
    result of the copy.  Every round refills the buffer and hands all of
    it to the sink. *)
Inductive Drains : Reader -> bytes -> option error * bytes -> Prop :=
| Drains_ok (p p1 : Reader) (out : bytes) (res : option error * bytes) :
    w p = [] -> eof p = false -> refill p = (Ok tt, p1) ->
    Drains (set_w [] p1) (out ++ w p1) res ->
    Drains p out res
| Drains_eof (p p1 : Reader) (out : bytes) :
    w p = [] -> eof p = false -> refill p = (Err EOF, p1) ->
    Drains p out (None, out ++ w p1)
| Drains_err (p p1 : Reader) (out : bytes) (e : error) :
    w p = [] -> eof p = false -> refill p = (Err e, p1) -> e <> EOF ->
    Drains p out (Some e, out).

(** [p] is at a chunk boundary, with nothing buffered and no run being
    read; [seen] says whether a run was met before. *)
Definition ready (lvl : Z) (seen : bool) (p : Reader) : Prop :=
  stage p = stChunkHead /\ w p = [] /\ eof p = false
  /\ level p = lvl /\ processedIDAT p = seen /\ readNonIDAT p = false
  /\ zbuf p = [] /\ zcrc p = 0.

(** [io.Copy] returns [res], given rounds enough. *)
Definition Copies (p : Reader) (out : bytes) (res : option error * bytes)
  : Prop :=
  exists fuel : nat, copy fuel p out = Some res.

End WithCodec.

End ReaderInv.
(* ================================================================== *)
(** * Properties *)

(** ** Bytes and big-endian integers *)

Lemma byte_to_Z_range (b : byte) : 0 <= byte_to_Z b < 256.
Proof.
  unfold byte_to_Z. pose proof (Byte.to_N_bounded b). lia.
Qed.

Lemma byte_to_of_Z (z : Z) : byte_to_Z (byte_of_Z z) = z mod 256.
Proof.
  unfold byte_to_Z, byte_of_Z.
  assert (Hr : 0 <= z mod 256 < 256) by (apply Z.mod_pos_bound; lia).
  destruct (Byte.of_N (Z.to_N (z mod 256))) as [b|] eqn:E.
  - apply Byte.to_of_N in E. rewrite E. lia.
  - apply Byte.of_N_None_iff in E. lia.
Qed.

Lemma byte_of_to_Z (b : byte) : byte_of_Z (byte_to_Z b) = b.
Proof.
  unfold byte_of_Z. pose proof (byte_to_Z_range b) as Hr.
  rewrite Z.mod_small by lia. unfold byte_to_Z.
  rewrite N2Z.id, Byte.of_to_N. reflexivity.
Qed.

Lemma testbit_byte_high (b : byte) (n : Z) : 8 <= n -> Z.testbit (byte_to_Z b) n = false.
Proof.
  intros Hn. pose proof (byte_to_Z_range b) as Hr.
  destruct (Z.eq_dec (byte_to_Z b) 0) as [->|Hz]; [apply Z.bits_0|].
  apply Z.bits_above_log2; [lia|].
  apply Z.log2_lt_pow2; [lia|].
  apply Z.lt_le_trans with (2 ^ 8); [simpl; lia|].
  apply Z.pow_le_mono_r; lia.
Qed.

Ltac bitcase n k := destruct (Z.lt_ge_cases n k).

Lemma Uint32_PutUint32 (v : Z) : 0 <= v < 2 ^ 32 -> Uint32 (PutUint32 v) = v.
Proof.
  intros Hv. unfold Uint32, PutUint32.
  rewrite !byte_to_of_Z. change 256 with (2 ^ 8).
  apply Z.bits_inj'. intros n Hn.
  rewrite !Z.lor_spec.
  assert (Hhi : 32 <= n -> Z.testbit v n = false).
  { intros H. destruct (Z.eq_dec v 0) as [->|Hz]; [apply Z.bits_0|].
    apply Z.bits_above_log2; [lia|]. apply Z.log2_lt_pow2; [lia|].
    apply Z.lt_le_trans with (2 ^ 32); [lia|]. apply Z.pow_le_mono_r; lia. }
  bitcase n 8; [|bitcase n 16; [|bitcase n 24; [|bitcase n 32]]].
  all: repeat first
    [ rewrite Z.shiftl_spec by lia
    | rewrite Z.testbit_neg_r by lia
    | rewrite Z.mod_pow2_bits_low by lia
    | rewrite Z.mod_pow2_bits_high by lia
    | rewrite Z.shiftr_spec by lia ].
  all: rewrite ?orb_false_r, ?orb_false_l; try (f_equal; lia).
  rewrite Hhi by lia. reflexivity.
Qed.

Lemma bits_above_lt (x k n : Z) : 0 <= x < 2 ^ k -> k <= n -> Z.testbit x n = false.
Proof.
  intros Hx Hn. destruct (Z.eq_dec x 0) as [->|Hz]; [apply Z.bits_0|].
  assert (0 <= k) by (destruct (Z.lt_ge_cases k 0); [rewrite Z.pow_neg_r in Hx; lia|lia]).
  apply Z.bits_above_log2; [lia|].
  apply Z.lt_le_trans with k; [|lia]. apply Z.log2_lt_pow2; lia.
Qed.

Lemma lt_pow2_bits (x k : Z) :
  0 <= k -> 0 <= x -> (forall n, k <= n -> Z.testbit x n = false) -> x < 2 ^ k.
Proof.
  intros Hk Hx Hb. destruct (Z.eq_dec x 0) as [->|Hz].
  - apply Z.pow_pos_nonneg; lia.
  - apply Z.log2_lt_pow2; [lia|].
    destruct (Z.lt_ge_cases (Z.log2 x) k) as [|Hge]; [assumption|].
    specialize (Hb _ Hge). rewrite Z.bit_log2 in Hb by lia. discriminate.
Qed.

Lemma Uint32_range (b : bytes) : 0 <= Uint32 b < 2 ^ 32.
Proof.
  unfold Uint32.
  destruct b as [|b0 [|b1 [|b2 [|b3 ?]]]]; try (split; [lia|reflexivity]).
  pose proof (byte_to_Z_range b0). pose proof (byte_to_Z_range b1).
  pose proof (byte_to_Z_range b2). pose proof (byte_to_Z_range b3).
  assert (Hnn : 0 <= Z.lor (Z.lor (Z.lor (Z.shiftl (byte_to_Z b0) 24) (Z.shiftl (byte_to_Z b1) 16))
                   (Z.shiftl (byte_to_Z b2) 8)) (byte_to_Z b3)).
  { rewrite !Z.lor_nonneg, !Z.shiftl_nonneg. lia. }
  split; [exact Hnn|].
  apply lt_pow2_bits; [lia|exact Hnn|].
  intros n Hn. rewrite !Z.lor_spec, !Z.shiftl_spec by lia.
  rewrite !testbit_byte_high by lia. reflexivity.
Qed.

Lemma PutUint32_length (v : Z) : length (PutUint32 v) = 4%nat.
Proof. reflexivity. Qed.

Lemma lxor_u32 (a b : Z) : u32 a -> u32 b -> u32 (Z.lxor a b).
Proof.
  unfold u32. intros Ha Hb.
  assert (H0 : 0 <= Z.lxor a b) by (apply Z.lxor_nonneg; lia).
  split; [exact H0|]. apply lt_pow2_bits; [lia|exact H0|].
  intros n Hn. rewrite Z.lxor_spec.
  rewrite (bits_above_lt a 32 n Ha Hn), (bits_above_lt b 32 n Hb Hn). reflexivity.
Qed.

Lemma shiftr_u32 (a n : Z) : 0 <= n -> u32 a -> u32 (Z.shiftr a n).
Proof.
  unfold u32. intros Hn Ha.
  assert (H0 : 0 <= Z.shiftr a n) by (apply Z.shiftr_nonneg; lia).
  split; [exact H0|]. apply lt_pow2_bits; [lia|exact H0|].
  intros m Hm. rewrite Z.shiftr_spec by lia.
  apply (bits_above_lt a 32); [exact Ha|lia].
Qed.

Lemma land255_u32 (a : Z) : 0 <= a -> u32 (Z.land a 255).
Proof.
  unfold u32. intros Ha.
  assert (H0 : 0 <= Z.land a 255) by (apply Z.land_nonneg; lia).
  split; [exact H0|]. apply lt_pow2_bits; [lia|exact H0|].
  intros m Hm. rewrite Z.land_spec.
  rewrite (bits_above_lt 255 32 m) by (try split; try lia; reflexivity).
  apply andb_false_r.
Qed.

Lemma byte_u32 (b : byte) : u32 (byte_to_Z b).
Proof. pose proof (byte_to_Z_range b). unfold u32. split; [lia|]. 
  apply Z.lt_trans with 256; [lia|reflexivity]. Qed.

Lemma shift1_u32 (x : Z) : u32 x -> u32 (crc32.shift1 x).
Proof.
  intros Hx. unfold crc32.shift1.
  destruct (Z.testbit x 0).
  - apply lxor_u32; [apply shiftr_u32; [lia|assumption]|].
    unfold u32, crc32.IEEE. split; [lia|reflexivity].
  - apply shiftr_u32; [lia|assumption].
Qed.

Lemma table_u32 (i : Z) : u32 i -> u32 (crc32.table i).
Proof. intros Hi. unfold crc32.table. repeat apply shift1_u32. exact Hi. Qed.

Lemma step_u32 (c : Z) (v : byte) : u32 c -> u32 (crc32.step c v).
Proof.
  intros Hc. unfold crc32.step.
  apply lxor_u32; [apply table_u32, land255_u32|apply shiftr_u32; [lia|assumption]].
  apply Z.lxor_nonneg. pose proof (byte_to_Z_range v). unfold u32 in Hc. lia.
Qed.

Lemma complement_u32 (c : Z) : u32 c -> u32 (crc32.complement c).
Proof.
  intros Hc. unfold crc32.complement. apply lxor_u32; [assumption|].
  unfold u32. split; [lia|reflexivity].
Qed.

Lemma complement_involutive (c : Z) : crc32.complement (crc32.complement c) = c.
Proof.
  unfold crc32.complement. rewrite Z.lxor_assoc, Z.lxor_nilpotent, Z.lxor_0_r.
  reflexivity.
Qed.

Lemma fold_step_u32 (p : bytes) (c : Z) : u32 c -> u32 (fold_left crc32.step p c).
Proof.
  revert c. induction p as [|v p IH]; intros c Hc; simpl; [assumption|].
  apply IH, step_u32, Hc.
Qed.

Lemma Update_u32 (c : Z) (p : bytes) : u32 c -> u32 (crc32.Update c p).
Proof.
  intros Hc. unfold crc32.Update.
  apply complement_u32, fold_step_u32, complement_u32, Hc.
Qed.

Lemma Checksum_u32 (p : bytes) : u32 (crc32.ChecksumIEEE p).
Proof. apply Update_u32. unfold u32. split; [lia|reflexivity]. Qed.

Lemma Update_app (c : Z) (a b : bytes) :
  crc32.Update (crc32.Update c a) b = crc32.Update c (a ++ b).
Proof.
  unfold crc32.Update. rewrite complement_involutive, fold_left_app. reflexivity.
Qed.

Lemma Write_app (d : crc32.digest) (a b : bytes) :
  crc32.Write (crc32.Write d a) b = crc32.Write d (a ++ b).
Proof. apply Update_app. Qed.

(* lists *)
Lemma len_cons {A} (x : A) (l : list A) : len (x :: l) = len l + 1.
Proof. unfold len. cbn [length]. lia. Qed.

Lemma take_cons {A} (n : Z) (x : A) (l : list A) :
  take n (x :: l) = if n <=? 0 then [] else x :: take (n - 1) l.
Proof. reflexivity. Qed.

Lemma drop_cons {A} (n : Z) (x : A) (l : list A) :
  drop n (x :: l) = if n <=? 0 then x :: l else drop (n - 1) l.
Proof. reflexivity. Qed.

Lemma take_app_len {A} (a b : list A) : take (len a) (a ++ b) = a.
Proof.
  induction a as [|x a IH].
  - destruct b; reflexivity.
  - rewrite <- app_comm_cons, take_cons, len_cons.
    pose proof (Zle_0_nat (length a)). fold (len a) in H.
    destruct (Z.leb_spec (len a + 1) 0); [lia|].
    replace (len a + 1 - 1) with (len a) by lia. rewrite IH. reflexivity.
Qed.

Lemma drop_app_len {A} (a b : list A) : drop (len a) (a ++ b) = b.
Proof.
  induction a as [|x a IH].
  - destruct b; reflexivity.
  - rewrite <- app_comm_cons, drop_cons, len_cons.
    pose proof (Zle_0_nat (length a)). fold (len a) in H.
    destruct (Z.leb_spec (len a + 1) 0); [lia|].
    replace (len a + 1 - 1) with (len a) by lia. exact IH.
Qed.

Lemma take_drop {A} (n : Z) (l : list A) : take n l ++ drop n l = l.
Proof.
  revert n. induction l as [|x l IH]; intros n; [reflexivity|].
  rewrite take_cons, drop_cons.
  destruct (n <=? 0); [reflexivity|]. rewrite <- app_comm_cons. f_equal. apply IH.
Qed.

Lemma len_take {A} (n : Z) (l : list A) : 0 <= n -> len (take n l) = Z.min n (len l).
Proof.
  revert n. induction l as [|x l IH]; intros n Hn.
  - unfold len. cbn. lia.
  - rewrite take_cons, len_cons.
    pose proof (Zle_0_nat (length l)). fold (len l) in H.
    destruct (Z.leb_spec n 0).
    + unfold len. cbn [length]. lia.
    + rewrite len_cons, IH by lia. lia.
Qed.

Lemma len_app {A} (a b : list A) : len (a ++ b) = len a + len b.
Proof. unfold len. rewrite length_app. lia. Qed.

Lemma len_nonneg {A} (a : list A) : 0 <= len a.
Proof. unfold len. lia. Qed.

Lemma take_0 {A} (l : list A) : take 0 l = [].
Proof. destruct l; reflexivity. Qed.

Lemma drop_0 {A} (l : list A) : drop 0 l = l.
Proof. destruct l; reflexivity. Qed.

Lemma ReadFull_app (n : nat) (a rest : bytes) :
  length a = n -> ReadFull n (a ++ rest) = (a, None, rest).
Proof.
  intros <-. unfold ReadFull.
  rewrite length_app.
  destruct (Nat.leb_spec (length a) (length a + length rest)); [|lia].
  rewrite firstn_app, Nat.sub_diag, firstn_all. simpl. rewrite app_nil_r.
  rewrite skipn_app, Nat.sub_diag, skipn_all. reflexivity.
Qed.

Lemma bytes_eqb_eq (a b : bytes) : bytes_eqb a b = true <-> a = b.
Proof.
  revert b. induction a as [|x a IH]; intros [|y b]; simpl; split; intros H;
    try reflexivity; try discriminate.
  - apply andb_true_iff in H. destruct H as [H1 H2].
    apply Byte.byte_dec_bl in H1. apply IH in H2. subst. reflexivity.
  - inversion H; subst. rewrite Byte.byte_dec_lb by reflexivity.
    simpl. apply IH. reflexivity.
Qed.

Lemma bytes_eqb_refl (a : bytes) : bytes_eqb a a = true.
Proof. apply bytes_eqb_eq. reflexivity. Qed.

Lemma bytes_eqb_neq (a b : bytes) : a <> b -> bytes_eqb a b = false.
Proof.
  intros H. destruct (bytes_eqb a b) eqn:E; [|reflexivity].
  apply bytes_eqb_eq in E. contradiction.
Qed.

(** ** The scratch array *)

Lemma firstn_overwrite (a t : bytes) : firstn (length a) (overwrite a t) = a.
Proof.
  unfold overwrite. rewrite firstn_app, Nat.sub_diag, firstn_all, firstn_O.
  apply app_nil_r.
Qed.

Lemma firstn_overwrite_app (a b t : bytes) :
  firstn (length a) (overwrite (a ++ b) t) = a.
Proof.
  unfold overwrite. rewrite <- app_assoc, firstn_app, Nat.sub_diag, firstn_all.
  rewrite firstn_O. apply app_nil_r.
Qed.

Lemma skipn_overwrite_app (a b t : bytes) :
  firstn (length b) (skipn (length a) (overwrite (a ++ b) t)) = b.
Proof.
  unfold overwrite. rewrite <- app_assoc, skipn_app, Nat.sub_diag, skipn_all.
  cbn [skipn app]. rewrite firstn_app, Nat.sub_diag, firstn_all, firstn_O.
  apply app_nil_r.
Qed.

Lemma head4_overwrite (a b t : bytes) :
  length a = 4%nat -> firstn 4 (overwrite (a ++ b) t) = a.
Proof. intros <-. apply firstn_overwrite_app. Qed.

Lemma kind_overwrite (a b t : bytes) :
  length a = 4%nat -> length b = 4%nat ->
  firstn 4 (skipn 4 (overwrite (a ++ b) t)) = b.
Proof.
  intros Ha Hb. pose proof (skipn_overwrite_app a b t) as H.
  rewrite Ha, Hb in H. exact H.
Qed.

Lemma head8_overwrite (a b t : bytes) :
  length a = 4%nat -> length b = 4%nat ->
  firstn 8 (overwrite (a ++ b) t) = a ++ b.
Proof.
  intros Ha Hb. replace 8%nat with (length (a ++ b)) by (rewrite length_app; lia).
  apply firstn_overwrite.
Qed.

Lemma head4_overwrite' (a t : bytes) :
  length a = 4%nat -> firstn 4 (overwrite a t) = a.
Proof. intros <-. apply firstn_overwrite. Qed.

Lemma PutUint32_uint32 (v : Z) : PutUint32 (uint32 v) = PutUint32 v.
Proof.
  unfold PutUint32, uint32.
  assert (E : forall k, 0 <= k <= 24 ->
            byte_of_Z (Z.shiftr (v mod 2 ^ 32) k) = byte_of_Z (Z.shiftr v k)).
  { intros k Hk. unfold byte_of_Z.
    replace (Z.shiftr (v mod 2 ^ 32) k mod 256) with (Z.shiftr v k mod 256);
      [reflexivity|].
    change 256 with (2 ^ 8). apply Z.bits_inj'. intros n Hn.
    destruct (Z.lt_ge_cases n 8).
    - rewrite !Z.mod_pow2_bits_low, !Z.shiftr_spec, Z.mod_pow2_bits_low by lia.
      reflexivity.
    - rewrite !Z.mod_pow2_bits_high by lia. reflexivity. }
  rewrite (E 24), (E 16), (E 8) by lia.
  specialize (E 0). rewrite !Z.shiftr_0_r in E. rewrite E by lia. reflexivity.
Qed.

Lemma maxChunkLen_u32 (n : Z) : 0 <= n <= maxChunkLen -> 0 <= n < 2 ^ 32.
Proof. unfold maxChunkLen. intros H. split; [lia|]. 
  apply Z.le_lt_trans with 2147483647; [lia|reflexivity]. Qed.

Lemma take_app_le {A} (n : Z) (a b : list A) :
  n <= len a -> take n (a ++ b) = take n a.
Proof.
  revert n. induction a as [|x a IH]; intros n Hn.
  - unfold len in Hn. cbn in Hn. destruct b; [reflexivity|].
    cbn [app]. rewrite take_cons. destruct (Z.leb_spec n 0); [reflexivity|lia].
  - rewrite <- app_comm_cons, !take_cons. rewrite len_cons in Hn.
    destruct (n <=? 0); [reflexivity|]. rewrite IH by lia. reflexivity.
Qed.

Lemma drop_app_le {A} (n : Z) (a b : list A) :
  n <= len a -> drop n (a ++ b) = drop n a ++ b.
Proof.
  revert n. induction a as [|x a IH]; intros n Hn.
  - unfold len in Hn. cbn in Hn. destruct b; [reflexivity|].
    cbn [app]. rewrite drop_cons. destruct (Z.leb_spec n 0); [reflexivity|lia].
  - rewrite <- app_comm_cons, !drop_cons. rewrite len_cons in Hn.
    destruct (n <=? 0); [reflexivity|]. rewrite IH by lia. reflexivity.
Qed.

Lemma len_take_le {A} (n : Z) (l : list A) : len (take n l) <= len l.
Proof.
  revert n. induction l as [|x l IH]; intros n; [cbn; lia|].
  rewrite take_cons. destruct (n <=? 0).
  - pose proof (len_nonneg (x :: l)). unfold len at 1. cbn [length]. lia.
  - rewrite !len_cons. specialize (IH (n - 1)). lia.
Qed.

Lemma len_take_drop {A} (n : Z) (l : list A) :
  len (drop n l) = len l - len (take n l).
Proof.
  rewrite <- (take_drop n l) at 2. rewrite len_app. lia.
Qed.

Lemma uint32_small (x : Z) : 0 <= x < 2 ^ 32 -> uint32 x = x.
Proof. intros H. unfold uint32. apply Z.mod_small. exact H. Qed.

Lemma ReadFull_length (n : nat) (src : bytes) :
  (length (snd (ReadFull n src)) <= length src)%nat.
Proof.
  unfold ReadFull. destruct (n <=? length src)%nat; cbn [snd].
  - rewrite length_skipn. lia.
  - destruct src; cbn; lia.
Qed.

Lemma ReadFull_ok (n : nat) (src b rest : bytes) :
  ReadFull n src = (b, None, rest) ->
  src = b ++ rest /\ length b = n.
Proof.
  unfold ReadFull. destruct (Nat.leb_spec n (length src)); intros E.
  - inversion E; subst. split; [symmetry; apply firstn_skipn|].
    apply firstn_length_le; assumption.
  - destruct src; discriminate.
Qed.

Lemma length_drop {A} (n : Z) (l : list A) : (length (drop n l) <= length l)%nat.
Proof.
  revert n. induction l as [|x l IH]; intros n; [cbn; lia|].
  rewrite drop_cons. destruct (n <=? 0); [lia|]. specialize (IH (n - 1)). cbn [length]. lia.
Qed.

Lemma src_Read_length (n : Z) (src : bytes) :
  (length (snd (src_Read n src)) <= length src)%nat.
Proof.
  unfold src_Read. destruct src; cbn [snd]; [lia|]. apply length_drop.
Qed.


(** ** The run as its decoder sees it *)

Module RunFacts.
Import Run.

Lemma read_polled (n : Z) (s : run) :
  polled s = true -> polled (snd (read n s)) = true.
Proof.
  intros H. unfold read. destruct (n =? 0); [exact H|]. rewrite H. exact H.
Qed.

Lemma open_polled (o : zopen) (s : run) :
  polled s = true -> polled (snd (open o s)) = true.
Proof.
  revert s. induction o as [n k IH|e|z]; intros s H; cbn [open]; try exact H.
  pose proof (read_polled n s H) as Hr.
  destruct (read n s) as [[b eof] s1]. apply IH. exact Hr.
Qed.

Lemma decode_polled (z : zreader) (s : run) :
  polled s = true -> polled (snd (decode z s)) = true.
Proof.
  revert s. induction z as [n k IH|out k IH|out e]; intros s H; cbn [decode];
    try exact H.
  - pose proof (read_polled n s H) as Hr.
    destruct (read n s) as [[b eof] s1]. apply IH. exact Hr.
  - specialize (IH s H). destruct (decode k s) as [[outs e] s1]. exact IH.
Qed.

(** A read that did not go beyond the run took its bytes from the current
    chunk, or from the first chunk with data after it. *)
Lemma read_cases (n : Z) (s s' : run) (b : bytes) (eof : bool) :
  read n s = ((b, eof), s') -> polled s' = false ->
  eof = false /\ polled s = false
  /\ ((n = 0 /\ b = [] /\ s' = s)
      \/ (n <> 0 /\ exists d ds,
            ((cur s <> [] /\ d = cur s /\ ds = next s)
             \/ (cur s = [] /\ skip (next s) = Some (d, ds)))
            /\ b = take (Z.min n (len d)) d
            /\ s' = {| cur := drop (Z.min n (len d)) d; next := ds;
                       polled := false |})).
Proof.
  unfold read. destruct (Z.eqb_spec n 0) as [->|Hn].
  { intros E Hp. inversion E; subst. split; [reflexivity|]. split; [exact Hp|].
    left. auto. }
  destruct (polled s) eqn:Hs.
  { intros E Hp. inversion E; subst. congruence. }
  destruct (cur s) as [|x c] eqn:Hc.
  - destruct (skip (next s)) as [[d ds]|] eqn:Hk.
    + intros E Hp. inversion E; subst. repeat split; auto.
      right. split; [exact Hn|]. exists d, ds. auto.
    + intros E Hp. inversion E; subst. discriminate.
  - intros E Hp. inversion E; subst. repeat split; auto.
    right. split; [exact Hn|]. exists (x :: c), (next s).
    repeat split; auto. left. repeat split; auto. discriminate.
Qed.

End RunFacts.

(* ================================================================== *)
(** ** The push-style transcoder *)

Module RepackerFacts.
Import Repacker RepackerInv.

Arguments Uint32 : simpl never.
Arguments PutUint32 : simpl never.
Arguments crc32.Update : simpl never.
Arguments crc32.Write : simpl never.

Lemma readTmp_app (n : nat) (a rest : bytes) (p : repacker) :
  length a = n -> r p = a ++ rest ->
  readTmp n p = (Ok tt, set_tmp (overwrite a (tmp p)) (set_r rest p)).
Proof.
  intros Hn Hr. unfold readTmp. rewrite Hr, ReadFull_app by exact Hn. reflexivity.
Qed.

Lemma chunk_header (p : repacker) (n : Z) (k rest : bytes) :
  length k = 4%nat -> 0 <= n <= maxChunkLen ->
  r p = PutUint32 n ++ k ++ rest ->
  chunk p = (Ok (n, k),
             set_crc (crc32.Write 0 k)
               (set_tmp (overwrite (PutUint32 n ++ k) (tmp p)) (set_r rest p))).
Proof.
  intros Hk Hn Hr. unfold chunk, bind.
  rewrite (readTmp_app 8 (PutUint32 n ++ k) rest)
    by (rewrite ?length_app, ?PutUint32_length, <- ?app_assoc; auto; lia).
  cbn [gets tmp set_tmp set_r].
  rewrite head4_overwrite, kind_overwrite by (auto using PutUint32_length).
  rewrite Uint32_PutUint32 by (apply maxChunkLen_u32; exact Hn).
  destruct (Z.gtb_spec n maxChunkLen); [lia|].
  reflexivity.
Qed.


Lemma readTmp_shrinks (n : nat) (p : repacker) :
  (length (r (snd (readTmp n p))) <= length (r p))%nat.
Proof.
  unfold readTmp. pose proof (ReadFull_length n (r p)) as H.
  destruct (ReadFull n (r p)) as [[b e] rest]. cbn [snd] in H.
  destruct e; exact H.
Qed.

Lemma readTmp_ok (n : nat) (p p' : repacker) :
  readTmp n p = (Ok tt, p') ->
  exists b rest, r p = b ++ rest /\ length b = n
                 /\ p' = set_tmp (overwrite b (tmp p)) (set_r rest p).
Proof.
  unfold readTmp. destruct (ReadFull n (r p)) as [[b e] rest] eqn:E.
  destruct e; intros H; inversion H; subst.
  apply ReadFull_ok in E. destruct E as [E1 E2]. eauto.
Qed.


Ltac fields :=
  cbn [r w level tmp crc idatLength haveLastChunk haveIDAT
       set_r set_w set_tmp set_crc set_idatLength set_haveLastChunk set_haveIDAT
       fst snd] in *.

Ltac break_match :=
  match goal with
  | |- context [match ?x with _ => _ end] => destruct x eqn:?
  | H : context [match ?x with _ => _ end] |- _ => destruct x eqn:?
  end.

Lemma quiet_refl (p : repacker) : quiet p p.
Proof. unfold quiet. auto. Qed.

Lemma quiet_trans (p1 p2 p3 : repacker) : quiet p1 p2 -> quiet p2 p3 -> quiet p1 p3.
Proof.
  unfold quiet. intros (A1 & A2 & A3 & A4) (B1 & B2 & B3 & B4).
  repeat split; try congruence. lia.
Qed.

Lemma readTmp_quiet (n : nat) (p p' : repacker) (x : res unit) :
  readTmp n p = (x, p') -> quiet p p'.
Proof.
  intros E. pose proof (readTmp_shrinks n p) as H. rewrite E in H. cbn [snd] in H.
  unfold readTmp in E. destruct (ReadFull n (r p)) as [[b e] rest].
  destruct e; inversion E; subst; unfold quiet; cbn; auto.
Qed.

Lemma nextChunk_quiet (p p' : repacker) (x : option (bytes * option error)) :
  nextChunk p = (x, p') -> quiet p p'.
Proof.
  unfold nextChunk. intros E.
  destruct (readTmp 4 p) as [[[]|e] p1] eqn:E1; apply readTmp_quiet in E1.
  2:{ inversion E; subst. exact E1. }
  destruct (negb _).
  { inversion E; subst. exact E1. }
  destruct (readTmp 8 p1) as [[[]|e] p2] eqn:E2; apply readTmp_quiet in E2.
  2:{ inversion E; subst. eapply quiet_trans; eassumption. }
  eapply quiet_trans; [exact E1|]. eapply quiet_trans; [exact E2|].
  destruct (negb _); inversion E; subst; unfold quiet; cbn; auto.
Qed.

Lemma skipChunks_quiet (fuel : nat) (p p' : repacker)
      (x : option (bytes * option error)) :
  skipChunks fuel p = (x, p') -> quiet p p'.
Proof.
  revert p. induction fuel as [|fuel IH]; intros p; cbn [skipChunks];
    destruct (idatLength p =? 0);
    try (intros E; inversion E; subst; apply quiet_refl);
    destruct (nextChunk p) as [[ret|] p1] eqn:E1; apply nextChunk_quiet in E1;
    intros E.
  - inversion E; subst. exact E1.
  - inversion E; subst. exact E1.
  - inversion E; subst. exact E1.
  - apply IH in E. eapply quiet_trans; eassumption.
Qed.

Lemma Read_quiet (n : Z) (p p' : repacker) (x : bytes * option error) :
  Read n p = (x, p') -> quiet p p'.
Proof.
  unfold Read. destruct (n =? 0).
  { intros E; inversion E; subst. apply quiet_refl. }
  destruct (skipChunks (length (r p)) p) as [[ret|] p1] eqn:E1;
    apply skipChunks_quiet in E1.
  { intros E; inversion E; subst. exact E1. }
  destruct (idatLength p1 >? maxChunkLen).
  { intros E; inversion E; subst. exact E1. }
  pose proof (src_Read_length (Z.min n (idatLength p1)) (r p1)) as Hl.
  destruct (src_Read _ (r p1)) as [[b err] rest]. cbn [snd] in Hl.
  intros E; inversion E; subst. eapply quiet_trans; [exact E1|].
  unfold quiet; cbn; auto.
Qed.

Section WithCodec.
Context {codec : Codec}.

Lemma newReader_quiet (o : zopen) (p p' : repacker) (x : res zreader) :
  newReader o p = (x, p') -> quiet p p'.
Proof.
  revert p. induction o as [n k IH|e|z]; intros p; cbn [newReader].
  - destruct (Read n p) as [[b [e|]] p1] eqn:E1; apply Read_quiet in E1.
    + destruct e; try (intros E; inversion E; subst; exact E1).
      intros E. apply IH in E. eapply quiet_trans; eassumption.
    + intros E. apply IH in E. eapply quiet_trans; eassumption.
  - intros E; inversion E; subst. apply quiet_refl.
  - intros E; inversion E; subst. apply quiet_refl.
Qed.


(** One chunk of the re-encoded run, as [emit] writes it. *)
Lemma emit_spec (out : bytes) (l : locals) (p : repacker) :
  icrc l = 0 -> buf l = [] ->
  emit out l p =
    (Ok {| zw := fst (zw_Flush (fst (zw_Write (zw l) out)));
           icrc := 0; buf := [] |},
     set_w (w p ++ encode (idat (snd (zw_Write (zw l) out)
                                 ++ snd (zw_Flush (fst (zw_Write (zw l) out))))))
           p).
Proof.
  intros Hc Hb. unfold emit.
  destruct (zw_Write (zw l) out) as [zw1 b1]. cbn [fst snd].
  destruct (zw_Flush zw1) as [zw2 b2]. cbn [fst snd].
  rewrite Hc, Hb. cbn [app].
  unfold bind, write, modify, ret. destruct p as [r0 w0 lv t c il hl hi].
  cbn [set_w w r level tmp crc idatLength haveLastChunk haveIDAT].
  unfold encode, idat. cbn [kind data].
  rewrite PutUint32_uint32, Write_app. unfold crc32.Sum32, crc32.Reset.
  unfold crc32.ChecksumIEEE, crc32.Write. rewrite <- !app_assoc. reflexivity.
Qed.

Lemma encodes_app (a b : list Chunk) : encodes (a ++ b) = encodes a ++ encodes b.
Proof. unfold encodes. apply flat_map_app. Qed.

Lemma appended_quiet (p p' : repacker) : quiet p p' -> appended p p'.
Proof.
  intros (Q1 & Q2 & Q3 & Q4). repeat split; auto.
  exists []. cbn. rewrite app_nil_r. exact Q1.
Qed.

Lemma appended_trans (p1 p2 p3 : repacker) :
  appended p1 p2 -> appended p2 p3 -> appended p1 p3.
Proof.
  intros ((d1 & A1) & A2 & A3 & A4) ((d2 & B1) & B2 & B3 & B4).
  repeat split; try congruence; try lia.
  exists (d1 ++ d2). rewrite B1, A1, map_app, encodes_app, app_assoc. reflexivity.
Qed.

Lemma appended_emit (p : repacker) (d : bytes) :
  appended p (set_w (w p ++ encode (idat d)) p).
Proof.
  destruct p as [r0 w0 lv t c il hl hi]. repeat split; cbn; auto.
  exists [d]. cbn. rewrite app_nil_r. reflexivity.
Qed.

(** Whatever the decoder does, the loop of [handleIDAT] writes a sequence
    of IDAT chunks and nothing else, and leaves its checksum and its
    buffer reset. *)
Lemma readLoop_writes (z : zreader) (l : locals) (p p' : repacker)
      (x : res locals) :
  icrc l = 0 -> buf l = [] ->
  readLoop z l p = (x, p') ->
  appended p p' /\ (forall l', x = Ok l' -> icrc l' = 0 /\ buf l' = []).
Proof.
  revert l p. induction z as [n k IH|out k IH|out e]; intros l p Hc Hb;
    cbn [readLoop].
  - destruct (Read n p) as [[b [e|]] p1] eqn:E1; apply Read_quiet in E1;
      apply appended_quiet in E1.
    + assert (Hstop : forall e', (Err e', p1) = (x, p') ->
                appended p p' /\ (forall l', x = Ok l' -> icrc l' = 0 /\ buf l' = [])).
      { intros e' E. inversion E; subst. split; [exact E1|discriminate]. }
      destruct e; try (apply Hstop).
      intros E. apply IH in E; auto. destruct E as [E2 E3].
      split; [eapply appended_trans; eassumption|exact E3].
    + intros E. apply IH in E; auto. destruct E as [E2 E3].
      split; [eapply appended_trans; eassumption|exact E3].
  - destruct (len out =? 0).
    + apply IH; auto.
    + rewrite emit_spec by assumption. intros E. apply IH in E; auto.
      destruct E as [E2 E3].
      split; [eapply appended_trans; [apply appended_emit|exact E2]|exact E3].
  - assert (Hstop : (Err e, p) = (x, p') ->
              appended p p' /\ (forall l', x = Ok l' -> icrc l' = 0 /\ buf l' = [])).
    { intros E. inversion E; subst.
      split; [apply appended_quiet, quiet_refl|discriminate]. }
    destruct e; try (exact Hstop).
    destruct (len out =? 0).
    + intros E; inversion E; subst.
      split; [apply appended_quiet, quiet_refl|].
      intros l' El. inversion El; subst. auto.
    + rewrite emit_spec by assumption. intros E; inversion E; subst.
      split; [apply appended_emit|].
      intros l' El. inversion El; subst. auto.
Qed.


Lemma steady_refl (p : repacker) : steady p p.
Proof. unfold steady. auto. Qed.

Lemma steady_trans (p1 p2 p3 : repacker) :
  steady p1 p2 -> steady p2 p3 -> steady p1 p3.
Proof.
  unfold steady. intros (A1 & A2 & A3) (B1 & B2 & B3).
  repeat split; try congruence; auto. lia.
Qed.

Lemma steady_quiet (p p' : repacker) : quiet p p' -> steady p p'.
Proof. intros (Q1 & Q2 & Q3 & Q4). repeat split; auto. congruence. Qed.

Lemma steady_appended (p p' : repacker) : appended p p' -> steady p p'.
Proof. intros (Q1 & Q2 & Q3 & Q4). repeat split; auto. congruence. Qed.

Lemma steady_set_w (v : bytes) (p : repacker) : steady p (set_w v p).
Proof. destruct p. repeat split; auto. Qed.

Lemma steady_set_crc (v : Z) (p : repacker) : steady p (set_crc v p).
Proof. destruct p. repeat split; auto. Qed.

Lemma steady_set_idatLength (v : Z) (p : repacker) : steady p (set_idatLength v p).
Proof. destruct p. repeat split; auto. Qed.

Lemma steady_set_haveIDAT (p : repacker) : steady p (set_haveIDAT true p).
Proof. destruct p. repeat split; auto. Qed.

Lemma chunk_steady (p p' : repacker) (x : res (Z * bytes)) :
  chunk p = (x, p') ->
  steady p p'
  /\ (forall v, x = Ok v -> (length (r p') + 8 = length (r p))%nat).
Proof.
  unfold chunk, bind, gets, modify, ret, fail.
  destruct (readTmp 8 p) as [[[]|e] p1] eqn:E1.
  - pose proof E1 as Q. apply readTmp_quiet, steady_quiet in Q.
    apply readTmp_ok in E1. destruct E1 as (b & rest & Hr & Hb & ->).
    destruct (_ >? _); intros E; inversion E; subst.
    + split; [exact Q|discriminate].
    + split; [eapply steady_trans; [exact Q|apply steady_set_crc]|].
      intros _ _. destruct p; cbn in *. subst. rewrite length_app. lia.
  - intros E; inversion E; subst.
    apply readTmp_quiet, steady_quiet in E1. split; [exact E1|discriminate].
Qed.

Lemma copyN_steady (n : Z) (p p' : repacker) (x : res unit) :
  copyN n p = (x, p') -> steady p p'.
Proof.
  unfold copyN. pose proof (length_drop n (r p)) as Hl.
  destruct (_ <? _); intros E; inversion E; subst;
    destruct p; repeat split; cbn in *; auto.
Qed.

Lemma verifyCrc_steady (p p' : repacker) (x : res unit) :
  verifyCrc p = (x, p') -> steady p p'.
Proof.
  unfold verifyCrc, bind, gets, ret, fail.
  destruct (readTmp 4 p) as [[[]|e] p1] eqn:E1;
    apply readTmp_quiet, steady_quiet in E1.
  - destruct (_ =? _); intros E; inversion E; subst; exact E1.
  - intros E; inversion E; subst; exact E1.
Qed.

Lemma handleAnyChunk_steady (n : Z) (p p' : repacker) (x : res unit) :
  handleAnyChunk n p = (x, p') -> steady p p'.
Proof.
  unfold handleAnyChunk, bind, gets, write, modify.
  destruct (copyN n _) as [[[]|e] p1] eqn:E1; apply copyN_steady in E1.
  - destruct (verifyCrc p1) as [[[]|e] p2] eqn:E2; apply verifyCrc_steady in E2;
      intros E; inversion E; subst.
    + eapply steady_trans; [apply steady_set_w|].
      eapply steady_trans; [exact E1|].
      eapply steady_trans; [exact E2|apply steady_set_w].
    + eapply steady_trans; [apply steady_set_w|].
      eapply steady_trans; [exact E1|exact E2].
  - intros E; inversion E; subst.
    eapply steady_trans; [apply steady_set_w|exact E1].
Qed.

Lemma handleIDAT_appended (n : Z) (p p' : repacker) (x : res bytes) :
  handleIDAT n p = (x, p') -> appended p p'.
Proof.
  unfold handleIDAT, bind, modify, gets, fail, ret.
  assert (A0 : appended p (set_idatLength (uint32 n) p)).
  { destruct p. repeat split; cbn; auto. exists []. cbn. rewrite app_nil_r. reflexivity. }
  destruct (newReader NewReader _) as [[z|e] p1] eqn:E1;
    apply newReader_quiet, appended_quiet in E1.
  - destruct (NewWriterLevel (level p1)) as [zw0|e].
    + destruct (readLoop z _ p1) as [[l|e] p2] eqn:E2;
        apply readLoop_writes in E2; try reflexivity; destruct E2 as [E2 _];
        intros E; inversion E; subst;
        (eapply appended_trans; [exact A0|]);
        (eapply appended_trans; [exact E1|exact E2]).
    + intros E; inversion E; subst. eapply appended_trans; [exact A0|exact E1].
  - intros E; inversion E; subst. eapply appended_trans; [exact A0|exact E1].
Qed.

Lemma repackChunk_steady (p p' : repacker) (x : option (option error)) :
  repackChunk p = (x, p') ->
  steady p p' /\ (x = None -> (length (r p') + 8 <= length (r p))%nat).
Proof.
  unfold repackChunk.
  destruct (chunk p) as [[[n k]|e] p1] eqn:E1; apply chunk_steady in E1;
    destruct E1 as [S1 L1].
  2:{ destruct e; intros E; inversion E; subst; (split; [exact S1|discriminate]). }
  specialize (L1 _ eq_refl).
  assert (Hany : forall n1 p2 x' p3, steady p p2 ->
            (length (r p2) + 8 <= length (r p))%nat ->
            match handleAnyChunk n1 p2 with
            | (Err e, p) => (Some (Some e), p)
            | (Ok _, p) => (None, p)
            end = (x', p3) ->
            steady p p3 /\ (x' = None -> (length (r p3) + 8 <= length (r p))%nat)).
  { intros n1 p2 x' p3 S2 L2.
    destruct (handleAnyChunk n1 p2) as [[[]|e] p4] eqn:E4;
      apply handleAnyChunk_steady in E4; intros E; inversion E; subst;
      (split; [eapply steady_trans; eassumption|]).
    - intros _. destruct E4 as (_ & _ & E4). lia.
    - discriminate. }
  destruct (bytes_eqb k IDAT).
  2:{ apply Hany; [exact S1|lia]. }
  destruct (haveIDAT p1).
  { intros E; inversion E; subst. split; [exact S1|discriminate]. }
  destruct (handleIDAT n p1) as [[cl|e] p2] eqn:E2;
    apply handleIDAT_appended, steady_appended in E2.
  2:{ intros E; inversion E; subst.
      split; [eapply steady_trans; eassumption|discriminate]. }
  assert (S2 : steady p (set_haveIDAT true p2)).
  { eapply steady_trans; [exact S1|].
    eapply steady_trans; [exact E2|apply steady_set_haveIDAT]. }
  assert (L2 : (length (r (set_haveIDAT true p2)) + 8 <= length (r p))%nat).
  { destruct E2 as (_ & _ & E2). destruct p2; cbn in *. lia. }
  destruct (negb (haveLastChunk (set_haveIDAT true p2))).
  - destruct (readTmp 4 _) as [[[]|e] p3] eqn:E3;
      apply readTmp_quiet, steady_quiet in E3.
    + destruct (negb _); intros E; inversion E; subst;
        (split; [eapply steady_trans; eassumption|]); try discriminate.
      intros _. destruct E3 as (_ & _ & E3). lia.
    + intros E; inversion E; subst.
      split; [eapply steady_trans; eassumption|discriminate].
  - destruct (_ >? _).
    + intros E; inversion E; subst. split; [exact S2|discriminate].
    + apply Hany; assumption.
Qed.

(** The loop of [repack] never runs out of the rounds it is given. *)
Lemma repackLoop_fuel (f1 f2 : nat) (p : repacker) :
  (length (r p) <= f1)%nat -> (length (r p) <= f2)%nat ->
  repackLoop f1 p = repackLoop f2 p.
Proof.
  revert f2 p. induction f1 as [|f1 IH]; intros f2 p H1 H2;
    destruct f2 as [|f2]; cbn [repackLoop];
    destruct (repackChunk p) as [[ret|] p'] eqn:E; try reflexivity;
    apply repackChunk_steady in E; destruct E as [_ E];
    specialize (E eq_refl); try lia.
  apply IH; lia.
Qed.

Lemma repackLoop_next (p p' : repacker) :
  repackChunk p = (None, p') ->
  repackLoop (length (r p)) p = repackLoop (length (r p')) p'.
Proof.
  intros E. pose proof E as L. apply repackChunk_steady in L.
  destruct L as [_ L]. specialize (L eq_refl).
  destruct (length (r p)) as [|f] eqn:Ef; [lia|].
  cbn [repackLoop]. rewrite E. apply repackLoop_fuel; lia.
Qed.

Lemma repackLoop_return (fuel : nat) (p p' : repacker) (e : option error) :
  repackChunk p = (Some e, p') -> repackLoop fuel p = (e, p').
Proof. intros E. destruct fuel; cbn [repackLoop]; rewrite E; reflexivity. Qed.


(** *** Pass-through of a chunk *)

Lemma copyN_app (d rest : bytes) (p : repacker) :
  r p = d ++ rest ->
  copyN (len d) p =
    (Ok tt, set_crc (crc32.Write (crc p) d) (set_w (w p ++ d) (set_r rest p))).
Proof.
  intros Hr. unfold copyN. rewrite Hr, take_app_len, drop_app_len.
  rewrite Z.ltb_irrefl. reflexivity.
Qed.

Lemma verifyCrc_ok (c : Z) (rest : bytes) (p : repacker) :
  r p = PutUint32 c ++ rest -> crc p = c -> u32 c ->
  verifyCrc p = (Ok tt, set_tmp (overwrite (PutUint32 c) (tmp p)) (set_r rest p)).
Proof.
  intros Hr Hc Hu. unfold verifyCrc, bind, gets, ret.
  rewrite (readTmp_app 4 (PutUint32 c) rest) by auto using PutUint32_length.
  cbn [tmp set_tmp set_r crc].
  rewrite head4_overwrite' by apply PutUint32_length.
  rewrite Uint32_PutUint32 by exact Hu.
  unfold crc32.Sum32. rewrite Hc, Z.eqb_refl. reflexivity.
Qed.

Lemma verifyCrc_bad (c4 rest : bytes) (p : repacker) :
  r p = c4 ++ rest -> length c4 = 4%nat -> Uint32 c4 <> crc p ->
  verifyCrc p =
    (Err ErrChecksum, set_tmp (overwrite c4 (tmp p)) (set_r rest p)).
Proof.
  intros Hr Hl Hc. unfold verifyCrc, bind, gets, fail.
  rewrite (readTmp_app 4 c4 rest) by auto.
  cbn [tmp set_tmp set_r crc].
  rewrite head4_overwrite' by exact Hl.
  unfold crc32.Sum32. destruct (Z.eqb_spec (Uint32 c4) (crc p)); [contradiction|].
  reflexivity.
Qed.

Lemma handleAnyChunk_ok (hdr d rest : bytes) (p : repacker) :
  firstn 8 (tmp p) = hdr ->
  r p = d ++ PutUint32 (crc32.Write (crc p) d) ++ rest ->
  u32 (crc p) ->
  exists p',
    handleAnyChunk (len d) p = (Ok tt, p')
    /\ r p' = rest
    /\ w p' = w p ++ hdr ++ d ++ PutUint32 (crc32.Write (crc p) d)
    /\ level p' = level p /\ haveIDAT p' = haveIDAT p
    /\ haveLastChunk p' = haveLastChunk p.
Proof.
  intros Ht Hr Hu. unfold handleAnyChunk, bind, gets, write, modify.
  rewrite (copyN_app d (PutUint32 (crc32.Write (crc p) d) ++ rest))
    by (destruct p; exact Hr).
  rewrite (verifyCrc_ok (crc32.Write (crc p) d) rest);
    [|destruct p; reflexivity|destruct p; reflexivity|apply Update_u32; exact Hu].
  eexists. split; [reflexivity|]. fields.
  rewrite head4_overwrite' by apply PutUint32_length.
  subst hdr. rewrite <- !app_assoc. auto.
Qed.

(** A round of the loop on a chunk that is not IDAT copies it. *)
Lemma repackChunk_pass (c : Chunk) (rest : bytes) (p : repacker) :
  ancillary c -> r p = encode c ++ rest ->
  exists p',
    repackChunk p = (None, p')
    /\ r p' = rest /\ w p' = w p ++ encode c
    /\ level p' = level p /\ haveIDAT p' = haveIDAT p
    /\ haveLastChunk p' = haveLastChunk p.
Proof.
  intros [[Hk Hl] Hn] Hr. unfold repackChunk.
  unfold encode in Hr. rewrite <- !app_assoc in Hr.
  rewrite (chunk_header p (len (data c)) (kind c) (data c
            ++ PutUint32 (crc32.ChecksumIEEE (kind c ++ data c)) ++ rest));
    [|exact Hk|split; [apply len_nonneg|exact Hl]|exact Hr].
  rewrite bytes_eqb_neq by exact Hn.
  match goal with |- context [handleAnyChunk _ ?q] =>
    destruct (handleAnyChunk_ok (PutUint32 (len (data c)) ++ kind c)
                (data c) rest q) as (p' & E & H1 & H2 & H3 & H4 & H5)
  end.
  - destruct p; cbn. apply head8_overwrite; [apply PutUint32_length|exact Hk].
  - destruct p; cbn. rewrite Write_app. reflexivity.
  - destruct p; cbn. apply Update_u32. unfold u32. split; [lia|reflexivity].
  - rewrite E. exists p'. fields.
    repeat split; auto.
    rewrite H2. unfold encode. rewrite Write_app, <- !app_assoc. reflexivity.
Qed.


Lemma repackLoop_pass (cs : list Chunk) (rest : bytes) (p : repacker) :
  Forall ancillary cs -> r p = encodes cs ++ rest ->
  exists p',
    repackLoop (length (r p)) p = repackLoop (length (r p')) p'
    /\ r p' = rest /\ w p' = w p ++ encodes cs
    /\ level p' = level p /\ haveIDAT p' = haveIDAT p
    /\ haveLastChunk p' = haveLastChunk p.
Proof.
  revert p. induction cs as [|c cs IH]; intros p Hcs Hr.
  - exists p. cbn in Hr. cbn [encodes flat_map]. rewrite app_nil_r.
    repeat split; auto.
  - inversion Hcs as [|? ? Hc Hcs']; subst.
    cbn [encodes flat_map] in Hr. rewrite <- app_assoc in Hr.
    destruct (repackChunk_pass c (encodes cs ++ rest) p Hc Hr)
      as (p1 & E & H1 & H2 & H3 & H4 & H5).
    destruct (IH p1 Hcs' H1) as (p2 & E2 & G1 & G2 & G3 & G4 & G5).
    exists p2. rewrite (repackLoop_next p p1 E), E2.
    repeat split; try congruence.
    rewrite G2, H2. cbn [encodes flat_map]. rewrite <- app_assoc. reflexivity.
Qed.

(** At the end of the source the loop returns nil. *)
Lemma repackChunk_eof (p : repacker) :
  r p = [] ->
  exists p', repackChunk p = (Some None, p') /\ w p' = w p.
Proof.
  intros Hr. unfold repackChunk, chunk, bind, readTmp. rewrite Hr.
  cbn. eexists. split; reflexivity.
Qed.

(** *** The signature and the header chunk *)

Lemma header_ok (d13 rest : bytes) (p : repacker) :
  length d13 = 13%nat -> nth 10 d13 x00 = x00 ->
  r p = pngHeader ++ encode {| kind := IHDR; data := d13 |} ++ rest ->
  exists p',
    header p = (Ok tt, p')
    /\ r p' = rest
    /\ w p' = w p ++ pngHeader ++ encode {| kind := IHDR; data := d13 |}
    /\ level p' = level p /\ haveIDAT p' = haveIDAT p
    /\ haveLastChunk p' = haveLastChunk p.
Proof.
  intros Hl H10 Hr. unfold header, bind, gets, write, modify.
  rewrite (readTmp_app 8 pngHeader _ p eq_refl Hr). fields.
  change (firstn 8 (overwrite pngHeader (tmp p)))
    with (firstn (length pngHeader) (overwrite pngHeader (tmp p))).
  rewrite firstn_overwrite. cbn [bytes_eqb negb pngHeader].
  rewrite !Byte.byte_dec_lb by reflexivity. cbn [andb negb].
  unfold encode. cbn [kind data]. rewrite <- !app_assoc.
  assert (Hlen : len d13 = 13) by (unfold len; rewrite Hl; reflexivity).
  rewrite (chunk_header _ 13 IHDR
             (d13 ++ PutUint32 (crc32.ChecksumIEEE (IHDR ++ d13)) ++ rest));
    [|reflexivity|unfold maxChunkLen; lia|fields; rewrite Hlen; reflexivity].
  rewrite bytes_eqb_refl. cbn [negb Z.eqb Pos.eqb]. fields.
  rewrite (readTmp_app 13 d13 (PutUint32 (crc32.ChecksumIEEE (IHDR ++ d13)) ++ rest))
    by (fields; auto).
  fields.
  assert (Hd : firstn 13 (overwrite d13
                 (overwrite (PutUint32 13 ++ IHDR) (overwrite pngHeader (tmp p)))) = d13).
  { rewrite <- Hl. apply firstn_overwrite. }
  assert (Hn : nth 10 (overwrite d13
                 (overwrite (PutUint32 13 ++ IHDR) (overwrite pngHeader (tmp p)))) x00 = x00).
  { unfold overwrite at 1. rewrite app_nth1 by lia. exact H10. }
  rewrite Hn, Hd. cbn [Byte.eqb negb]. rewrite Byte.byte_dec_lb by reflexivity.
  cbn [negb].
  rewrite (verifyCrc_ok (crc32.ChecksumIEEE (IHDR ++ d13)) rest);
    [|fields; reflexivity|fields; apply Write_app|apply Checksum_u32].
  eexists. split; [reflexivity|]. fields.
  rewrite head4_overwrite' by apply PutUint32_length.
  rewrite head8_overwrite by reflexivity.
  rewrite Hlen, <- !app_assoc. repeat split; auto.
Qed.

End WithCodec.

End RepackerFacts.

(** *** The image-data run *)

Module RepackerRun.
Import Repacker RepackerInv RepackerFacts Run RunFacts.

Lemma encodes_cons (c : Chunk) (cs : list Chunk) :
  encodes (c :: cs) = encode c ++ encodes cs.
Proof. reflexivity. Qed.

Lemma skipChunks_busy (fuel : nat) (p : repacker) :
  idatLength p <> 0 -> skipChunks fuel p = (None, p).
Proof.
  intros H. destruct fuel; cbn [skipChunks];
    destruct (Z.eqb_spec (idatLength p) 0); try contradiction; reflexivity.
Qed.

(** At the end of a chunk of the run, with an IDAT chunk after it: its
    checksum is verified and the next chunk entered. *)
Lemma nextChunk_inside (tail : bytes) (s : run) (p : repacker)
      (d : bytes) (ds : list bytes) :
  inside tail s p -> cur s = [] -> next s = d :: ds ->
  exists p',
    nextChunk p = (None, p')
    /\ inside tail {| cur := d; next := ds; polled := false |} p'
    /\ (length (r p') + 12 <= length (r p))%nat.
Proof.
  intros (done & Hr & Hc & Hi & Hl & Hn & Hh & Hp) Hcur Hnext.
  rewrite Hcur, Hnext in *. cbn [app map] in Hr.
  rewrite app_nil_r, encodes_cons in Hr. unfold encode at 1 in Hr.
  cbn [kind data idat] in Hr. rewrite <- !app_assoc in Hr.
  inversion Hn as [|? ? Hd Hds]; subst.
  unfold nextChunk.
  rewrite (readTmp_app 4 (PutUint32 (crc32.ChecksumIEEE (IDAT ++ done))) _ p
             (PutUint32_length _) Hr).
  fields. rewrite head4_overwrite' by apply PutUint32_length.
  rewrite Uint32_PutUint32 by apply Checksum_u32.
  unfold crc32.Sum32. rewrite Hc, Z.eqb_refl. cbn [negb].
  rewrite (readTmp_app 8 (PutUint32 (len d) ++ IDAT)
             (d ++ PutUint32 (crc32.ChecksumIEEE (IDAT ++ d))
                ++ encodes (map idat ds) ++ tail))
    by (fields; rewrite <- ?app_assoc; reflexivity).
  fields.
  rewrite kind_overwrite by reflexivity. rewrite bytes_eqb_refl. cbn [negb].
  rewrite head4_overwrite by apply PutUint32_length.
  rewrite Uint32_PutUint32 by (apply maxChunkLen_u32; split; [apply len_nonneg|exact Hd]).
  eexists. split; [reflexivity|]. split.
  - exists []. fields. cbn [cur next polled app].
    repeat split; auto.
  - fields. rewrite Hr, !length_app, !PutUint32_length.
    change (length IDAT) with 4%nat. lia.
Qed.

(** Empty chunks are skipped up to the first chunk with data. *)
Lemma skipChunks_inside (tail : bytes) (ds0 : list bytes) :
  forall (fuel : nat) (s : run) (p : repacker) (d : bytes) (ds : list bytes),
    inside tail s p -> cur s = [] -> next s = ds0 ->
    skip ds0 = Some (d, ds) -> (length (r p) <= fuel)%nat ->
    exists p',
      skipChunks fuel p = (None, p')
      /\ inside tail {| cur := d; next := ds; polled := false |} p'.
Proof.
  induction ds0 as [|d0 ds0 IH]; intros fuel s p d ds Hin Hcur Hnext Hskip Hfuel.
  - discriminate.
  - destruct (nextChunk_inside tail s p d0 ds0 Hin Hcur Hnext)
      as (p1 & E1 & Hin1 & Hlen).
    destruct fuel as [|fuel]; [lia|].
    cbn [skipChunks].
    destruct Hin as (done & _ & _ & Hi & _). rewrite Hcur in Hi.
    change (len []) with 0 in Hi. rewrite Hi, Z.eqb_refl, E1.
    destruct d0 as [|x d0].
    + cbn [skip] in Hskip.
      apply (IH fuel _ p1 d ds Hin1 eq_refl eq_refl Hskip). lia.
    + cbn [skip] in Hskip. inversion Hskip; subst.
      exists p1. split; [|exact Hin1].
      apply skipChunks_busy.
      destruct Hin1 as (done1 & _ & _ & Hi1 & _). rewrite Hi1.
      cbn [cur]. rewrite len_cons. pose proof (len_nonneg d0). lia.
Qed.


Lemma inside_unpolled (tail : bytes) (s : run) (p : repacker) :
  inside tail s p ->
  inside tail {| cur := cur s; next := next s; polled := false |} p.
Proof.
  intros (done & H). exists done. cbn [cur next polled].
  destruct H as (H1 & H2 & H3 & H4 & H5 & H6 & H7). repeat split; auto.
Qed.

(** Inside a chunk, [Read] hands over what the chunk still has, up to the
    size of the buffer. *)
Lemma Read_after_skip (tail : bytes) (n : Z) (p p1 : repacker) (s1 : run) :
  n <> 0 -> skipChunks (length (r p)) p = (None, p1) -> inside tail s1 p1 ->
  exists p',
    Read n p = ((take (Z.min n (len (cur s1))) (cur s1), None), p')
    /\ inside tail {| cur := drop (Z.min n (len (cur s1))) (cur s1);
                      next := next s1; polled := false |} p'.
Proof.
  intros Hn Hskip (done & Hr & Hc & Hi & Hl & Hnx & Hh & Hp).
  unfold Read. destruct (Z.eqb_spec n 0); [contradiction|]. rewrite Hskip.
  destruct (Z.gtb_spec (idatLength p1) maxChunkLen); [lia|].
  rewrite Hi. set (m := Z.min n (len (cur s1))).
  assert (Hm : m <= len (cur s1)) by (unfold m; lia).
  unfold src_Read.
  destruct (r p1) as [|x rest] eqn:E.
  { apply (f_equal (@length byte)) in Hr.
    rewrite !length_app, PutUint32_length in Hr. cbn in Hr. lia. }
  rewrite Hr. clear E Hr x rest.
  rewrite take_app_le, drop_app_le by exact Hm.
  eexists. split; [reflexivity|].
  exists (done ++ take m (cur s1)). fields. cbn [cur next polled].
  pose proof (len_take_le m (cur s1)) as Ht.
  pose proof (len_nonneg (take m (cur s1))) as Ht0.
  pose proof (len_nonneg (cur s1)) as Hc0.
  pose proof (maxChunkLen_u32 (len (cur s1)) (conj Hc0 Hl)) as Hu.
  rewrite <- !app_assoc, take_drop.
  repeat split; auto.
  - rewrite Hc. unfold crc32.ChecksumIEEE. rewrite Write_app, <- app_assoc.
    reflexivity.
  - rewrite Hi, (uint32_small (len (take m (cur s1)))) by lia.
    rewrite uint32_small by lia. symmetry. apply len_take_drop.
  - rewrite len_take_drop. lia.
Qed.

Lemma Read_inside (tail : bytes) (n : Z) (s s' : run) (p : repacker)
      (b : bytes) (eof : bool) :
  inside tail s p -> read n s = ((b, eof), s') -> polled s' = false ->
  exists p',
    Read n p = ((b, None), p') /\ inside tail s' p' /\ eof = false.
Proof.
  intros Hin E Hp.
  destruct (read_cases n s s' b eof E Hp) as (He & Hs & [(Hn & Hb & Hs')|(Hn & d & ds & Hd & Hb & Hs')]).
  - subst. exists p. unfold Read. cbn. auto.
  - assert (H1 : exists p1, skipChunks (length (r p)) p = (None, p1)
                   /\ inside tail {| cur := d; next := ds; polled := false |} p1).
    { destruct Hd as [(Hc & -> & ->)|(Hc & Hk)].
      - exists p. split; [|apply inside_unpolled; exact Hin].
        apply skipChunks_busy. destruct Hin as (done & _ & _ & Hi & _).
        rewrite Hi. destruct (cur s) as [|x0 l0]; [contradiction|].
        rewrite len_cons. pose proof (len_nonneg l0). lia.
      - apply (skipChunks_inside tail (next s) (length (r p)) s p d ds Hin Hc eq_refl Hk).
        lia. }
    destruct H1 as (p1 & Hskip & Hin1).
    destruct (Read_after_skip tail n p p1 _ Hn Hskip Hin1) as (p' & E' & Hin').
    cbn [cur next] in E', Hin'. exists p'. subst b s'. auto.
Qed.


Lemma inside_set_w (tail : bytes) (s : run) (p : repacker) (v : bytes) :
  inside tail s p -> inside tail s (set_w v p).
Proof. intros (done & H). exists done. fields. exact H. Qed.

Section WithCodec.
Context {codec : Codec}.

(** [zlib.NewReader] reads the run through [Read] as it reads it in
    [Run.open]. *)
Lemma newReader_inside (tail : bytes) (o : zopen) :
  forall (s s' : run) (p : repacker) (x : res zreader),
    inside tail s p -> open o s = (x, s') -> polled s' = false ->
    exists p', newReader o p = (x, p') /\ inside tail s' p'.
Proof.
  induction o as [n k IH|e|z]; intros s s' p x Hin E Hp; cbn [open] in E;
    cbn [newReader].
  - destruct (read n s) as [[b eof] s1] eqn:Er.
    assert (Hp1 : polled s1 = false).
    { destruct (polled s1) eqn:Hp1; [|reflexivity].
      pose proof (open_polled (k b eof) s1 Hp1) as Hc. rewrite E in Hc.
      cbn [snd] in Hc. congruence. }
    destruct (Read_inside tail n s s1 p b eof Hin Er Hp1) as (p1 & E1 & Hin1 & ->).
    rewrite E1. apply (IH b false s1 s' p1 x Hin1 E Hp).
  - inversion E; subst. exists p. auto.
  - inversion E; subst. exists p. auto.
Qed.

(** The loop of [handleIDAT] along a session that stays within the run:
    at [io.EOF] it has written the chunks of [Run.repacked], and another
    error is returned. *)
Lemma readLoop_inside (tail : bytes) (z : zreader) :
  forall (s s' : run) (p : repacker) (l : locals) (outs : list bytes)
         (e : error),
    inside tail s p -> icrc l = 0 -> buf l = [] ->
    decode z s = ((outs, e), s') -> polled s' = false ->
    exists x p',
      readLoop z l p = (x, p') /\ inside tail s' p'
      /\ (e = EOF ->
          (exists l', x = Ok l')
          /\ w p' = w p ++ encodes (map idat (repacked (zw l) outs)))
      /\ (e <> EOF -> x = Err e).
Proof.
  induction z as [n k IH|out k IH|out e0];
    intros s s' p l outs e Hin Hc Hb E Hp; cbn [decode] in E; cbn [readLoop].
  - destruct (read n s) as [[b eof] s1] eqn:Er.
    assert (Hp1 : polled s1 = false).
    { destruct (polled s1) eqn:Hp1; [|reflexivity].
      pose proof (decode_polled (k b eof) s1 Hp1) as Hd. rewrite E in Hd.
      cbn [snd] in Hd. congruence. }
    destruct (Read_inside tail n s s1 p b eof Hin Er Hp1) as (p1 & E1 & Hin1 & ->).
    rewrite E1.
    destruct (IH b false s1 s' p1 l outs e Hin1 Hc Hb E Hp)
      as (x & p' & E' & Hin' & Hok & Herr).
    exists x, p'. repeat split; auto.
    + apply Hok; assumption.
    + destruct (Hok H) as [_ Hw]. rewrite Hw.
      apply Read_quiet in E1. destruct E1 as (Q1 & _). rewrite Q1. reflexivity.
  - destruct (decode k s) as [[outs0 e1] s0] eqn:Ed. inversion E; subst.
    cbn [repacked].
    destruct (len out =? 0).
    + apply (IH s s' p l outs0 e Hin Hc Hb Ed Hp).
    + rewrite emit_spec by assumption.
      destruct (zw_Write (zw l) out) as [zw1 b1]. cbn [fst snd].
      destruct (zw_Flush zw1) as [zw2 b2]. cbn [fst snd].
      destruct (IH s s' (set_w (w p ++ encode (idat (b1 ++ b2))) p)
                  {| zw := zw2; icrc := 0; buf := [] |} outs0 e
                  (inside_set_w tail s p _ Hin) eq_refl eq_refl Ed Hp)
        as (x & p' & E' & Hin' & Hok & Herr).
      exists x, p'. repeat split; auto.
      * apply Hok; assumption.
      * destruct (Hok H) as [_ Hw]. rewrite Hw. fields. cbn [zw map].
        rewrite encodes_cons, <- !app_assoc. reflexivity.
  - inversion E; subst. cbn [repacked].
    destruct e.
    2-13: (eexists _, p; split; [reflexivity|]; split; [exact Hin|];
           split; [discriminate|reflexivity]).
    destruct (len out =? 0).
    + exists (Ok l), p. repeat split; auto; try congruence.
      * eexists; reflexivity.
      * cbn. rewrite app_nil_r. reflexivity.
    + rewrite emit_spec by assumption.
      destruct (zw_Write (zw l) out) as [zw1 b1]. cbn [fst snd].
      destruct (zw_Flush zw1) as [zw2 b2]. cbn [fst snd].
      eexists (Ok _), _. split; [reflexivity|].
      split; [apply inside_set_w; exact Hin|]. split; [|congruence].
      intros _. split; [eexists; reflexivity|]. fields.
      cbn [map]. rewrite encodes_cons. cbn [encodes flat_map].
      rewrite app_nil_r. reflexivity.
Qed.


(** The round of the loop of [repack] on the first IDAT chunk of a run
    that its decoder reads exactly: the run is replaced by the IDAT chunks
    of [Run.repacked]. *)
Lemma repackChunk_run (tail d0 : bytes) (ds : list bytes) (p : repacker)
      (zw0 : zwriter) (z : zreader) (s1 s2 : run) (outs : list bytes) :
  r p = encodes (map idat (d0 :: ds)) ++ tail ->
  haveIDAT p = false -> haveLastChunk p = false ->
  Forall (fun d => len d <= maxChunkLen) (d0 :: ds) ->
  NewWriterLevel (level p) = inl zw0 ->
  open NewReader {| cur := d0; next := ds; polled := false |} = (Ok z, s1) ->
  decode z s1 = ((outs, EOF), s2) -> exact s2 ->
  exists p',
    repackChunk p = (None, p')
    /\ r p' = tail
    /\ w p' = w p ++ encodes (map idat (repacked zw0 outs))
    /\ level p' = level p /\ haveIDAT p' = true /\ haveLastChunk p' = false.
Proof.
  intros Hr Hhi Hhl Hlen Hlvl Hopen Hdec (Hx1 & Hx2 & Hx3).
  inversion Hlen as [|? ? Hd0 Hds]; subst.
  cbn [map] in Hr. rewrite encodes_cons in Hr. unfold encode at 1 in Hr.
  cbn [kind data idat] in Hr. rewrite <- !app_assoc in Hr.
  unfold repackChunk.
  rewrite (chunk_header p (len d0) IDAT _ eq_refl
             (conj (len_nonneg d0) Hd0) Hr).
  rewrite bytes_eqb_refl. fields. rewrite Hhi.
  unfold handleIDAT, bind, modify, gets.
  match goal with |- context [newReader NewReader ?q0] => set (q := q0) end.
  assert (Hin : inside tail {| cur := d0; next := ds; polled := false |} q).
  { exists []. unfold q. fields. cbn [cur next polled app].
    pose proof (maxChunkLen_u32 (len d0) (conj (len_nonneg d0) Hd0)).
    repeat split; auto.
    apply uint32_small. assumption. }
  assert (Hp1 : polled s1 = false).
  { destruct (polled s1) eqn:Hp1; [|reflexivity].
    pose proof (decode_polled z s1 Hp1) as Hc. rewrite Hdec in Hc.
    cbn [snd] in Hc. congruence. }
  destruct (newReader_inside tail NewReader _ s1 q (Ok z) Hin Hopen Hp1)
    as (p1 & E1 & Hin1).
  rewrite E1.
  pose proof E1 as Q1. apply newReader_quiet in Q1.
  destruct Q1 as (Qw & Ql & Qh & _).
  replace (level p1) with (level p) by (rewrite Ql; reflexivity).
  rewrite Hlvl.
  destruct (readLoop_inside tail z s1 s2 p1
              {| zw := zw0; icrc := crc32.NewIEEE; buf := [] |} outs EOF
              Hin1 eq_refl eq_refl Hdec Hx3)
    as (x & p2 & E2 & Hin2 & Hok & _).
  destruct (Hok eq_refl) as [[l' ->] Hw]. rewrite E2. unfold ret.
  pose proof E2 as A2. apply readLoop_writes in A2; try reflexivity.
  destruct A2 as [(_ & Al & Ah & _) _].
  destruct Hin2 as (done & Hr2 & Hc2 & _ & _ & _ & Hh2 & _).
  rewrite Hx1, Hx2 in Hr2. cbn [map encodes flat_map app] in Hr2.
  rewrite app_nil_r in Hr2.
  fields. rewrite Hh2. cbn [negb].
  rewrite (readTmp_app 4 (PutUint32 (crc32.ChecksumIEEE (IDAT ++ done))) tail)
    by (fields; auto using PutUint32_length).
  fields. rewrite head4_overwrite' by apply PutUint32_length.
  rewrite Uint32_PutUint32 by apply Checksum_u32.
  unfold crc32.Sum32. rewrite Hc2, Z.eqb_refl. cbn [negb].
  eexists. split; [reflexivity|]. fields.
  repeat split; auto.
  - rewrite Hw, Qw. unfold q. fields. reflexivity.
  - rewrite Al, Ql. unfold q. fields. reflexivity.
Qed.


(** [repack] up to the first chunk of a file's run: the signature, the
    header chunk and the chunks before the run are copied. *)
Lemma repack_before (d13 : bytes) (cs : list Chunk) (extra : bytes) (lvl : Z) :
  length d13 = 13%nat -> nth 10 d13 x00 = x00 -> Forall ancillary cs ->
  exists p,
    repack (init (pngHeader ++ encode {| kind := IHDR; data := d13 |}
                  ++ encodes cs ++ extra) lvl)
    = repackLoop (length (r p)) p
    /\ r p = extra
    /\ w p = pngHeader ++ encode {| kind := IHDR; data := d13 |} ++ encodes cs
    /\ level p = lvl /\ haveIDAT p = false /\ haveLastChunk p = false.
Proof.
  intros Hl H10 Hcs. unfold repack.
  match goal with |- context [header ?q] => set (p0 := q) end.
  destruct (header_ok d13 (encodes cs ++ extra) p0 Hl H10 eq_refl)
    as (p1 & E1 & R1 & W1 & L1 & I1 & C1).
  rewrite E1.
  destruct (repackLoop_pass cs extra p1 Hcs R1)
    as (p2 & E2 & R2 & W2 & L2 & I2 & C2).
  exists p2. rewrite E2. split; [reflexivity|]. split; [exact R2|].
  rewrite W2, W1, L2, L1, I2, I1, C2, C1. unfold p0, init. fields. cbn [app].
  rewrite <- !app_assoc. repeat split; reflexivity.
Qed.

(** [repack] up to the end of a file whose run the decoder reads exactly:
    everything but the run is copied, and the run is re-encoded in its
    place.  [extra] is what follows the file in the source. *)
Lemma repack_through (f : Png) (extra : bytes) (lvl : Z) (zw0 : zwriter)
      (z : zreader) (s1 s2 : run) (outs : list bytes) :
  wf_png f ->
  NewWriterLevel lvl = inl zw0 ->
  open NewReader (run_of f) = (Ok z, s1) ->
  decode z s1 = ((outs, EOF), s2) -> exact s2 ->
  exists p,
    repack (init (png_bytes f ++ extra) lvl) = repackLoop (length (r p)) p
    /\ r p = extra
    /\ w p = pngHeader ++ encode {| kind := IHDR; data := ihdr f |}
             ++ encodes (pre f)
             ++ encodes (map idat (repacked zw0 outs))
             ++ encodes (post f)
    /\ level p = lvl /\ haveIDAT p = true /\ haveLastChunk p = false.
Proof.
  intros (Hl & H10 & Hpre & Hrun & Hpost) Hlvl Hopen Hdec Hex.
  destruct (repack_before (ihdr f) (pre f)
              (encodes (map idat (idat0 f :: idats f)) ++ encodes (post f) ++ extra)
              lvl Hl H10 Hpre) as (p2 & E2 & R2 & W2 & L2 & I2 & C2).
  replace (png_bytes f ++ extra)
    with (pngHeader ++ encode {| kind := IHDR; data := ihdr f |}
          ++ encodes (pre f)
          ++ encodes (map idat (idat0 f :: idats f)) ++ encodes (post f) ++ extra)
    by (unfold png_bytes; rewrite <- !app_assoc; reflexivity).
  rewrite E2.
  destruct (repackChunk_run (encodes (post f) ++ extra) (idat0 f) (idats f)
              p2 zw0 z s1 s2 outs R2 I2 C2 Hrun)
    as (p3 & E3 & R3 & W3 & L3 & I3 & C3); auto.
  { rewrite L2. exact Hlvl. }
  rewrite (repackLoop_next p2 p3 E3).
  destruct (repackLoop_pass (post f) extra p3 Hpost R3)
    as (p4 & E4 & R4 & W4 & L4 & I4 & C4).
  exists p4. rewrite E4. split; [reflexivity|]. split; [exact R4|].
  rewrite W4, W3, W2, L4, L3, L2, I4, I3, C4, C3.
  rewrite <- !app_assoc. repeat split; reflexivity.
Qed.

(** [Repack] on a file whose run the decoder reads exactly. *)
Lemma Repack_exact (f : Png) (lvl : Z) (zw0 : zwriter) (z : zreader)
      (s1 s2 : run) (outs : list bytes) :
  wf_png f ->
  NewWriterLevel lvl = inl zw0 ->
  open NewReader (run_of f) = (Ok z, s1) ->
  decode z s1 = ((outs, EOF), s2) -> exact s2 ->
  Repack (png_bytes f) lvl =
    (None,
     pngHeader ++ encode {| kind := IHDR; data := ihdr f |}
     ++ encodes (pre f)
     ++ encodes (map idat (repacked zw0 outs))
     ++ encodes (post f)).
Proof.
  intros Hwf Hlvl Hopen Hdec Hex.
  destruct (repack_through f [] lvl zw0 z s1 s2 outs Hwf Hlvl Hopen Hdec Hex)
    as (p & E & R & W & _).
  unfold Repack. rewrite app_nil_r in E. rewrite E.
  destruct (repackChunk_eof p R) as (p' & E' & W').
  rewrite (repackLoop_return _ p p' None E'). rewrite W', W. reflexivity.
Qed.

End WithCodec.

End RepackerRun.

(** *** Chunks that end the copy *)

Module RepackerErr.
Import Repacker RepackerInv RepackerFacts.

Section WithCodec.
Context {codec : Codec}.

(** What [chunk] returns for a header of eight bytes. *)
Lemma chunk_raw (h4 k rest : bytes) (p : repacker) :
  length h4 = 4%nat -> length k = 4%nat -> r p = h4 ++ k ++ rest ->
  chunk p =
    if Uint32 h4 >? maxChunkLen
    then (Err ErrChunkTooBig,
          set_tmp (overwrite (h4 ++ k) (tmp p)) (set_r rest p))
    else (Ok (Uint32 h4, k),
          set_crc (crc32.Write 0 k)
            (set_tmp (overwrite (h4 ++ k) (tmp p)) (set_r rest p))).
Proof.
  intros Hh Hk Hr. unfold chunk, bind.
  rewrite (readTmp_app 8 (h4 ++ k) rest)
    by (rewrite ?length_app, <- ?app_assoc; auto; lia).
  cbn [gets tmp set_tmp set_r].
  rewrite head4_overwrite, kind_overwrite by assumption.
  destruct (Uint32 h4 >? maxChunkLen); reflexivity.
Qed.

(** A declared length above 2^31-1 ends the walk. *)
Lemma repackChunk_too_big (h4 k rest : bytes) (p : repacker) :
  length h4 = 4%nat -> length k = 4%nat -> r p = h4 ++ k ++ rest ->
  maxChunkLen < Uint32 h4 ->
  exists p',
    repackChunk p = (Some (Some ErrChunkTooBig), p')
    /\ w p' = w p /\ r p' = rest.
Proof.
  intros Hh Hk Hr Hbig. unfold repackChunk.
  rewrite (chunk_raw h4 k rest p Hh Hk Hr).
  destruct (Z.gtb_spec (Uint32 h4) maxChunkLen); [|lia].
  eexists. split; [reflexivity|]. fields. auto.
Qed.

(** An IDAT chunk after a run that was processed is refused, and nothing
    of it is read beyond its header. *)
Lemma repackChunk_order (h4 rest : bytes) (p : repacker) :
  length h4 = 4%nat -> r p = h4 ++ IDAT ++ rest ->
  Uint32 h4 <= maxChunkLen -> haveIDAT p = true ->
  exists p',
    repackChunk p = (Some (Some ErrIDATOrder), p')
    /\ w p' = w p /\ r p' = rest.
Proof.
  intros Hh Hr Hsmall Hhave. unfold repackChunk.
  rewrite (chunk_raw h4 IDAT rest p Hh eq_refl Hr).
  destruct (Z.gtb_spec (Uint32 h4) maxChunkLen); [lia|].
  rewrite bytes_eqb_refl. fields. rewrite Hhave.
  eexists. split; [reflexivity|]. fields. auto.
Qed.

(** A chunk whose checksum does not match ends the walk, after its header
    and its data were written. *)
Lemma repackChunk_bad_crc (k d c4 rest : bytes) (p : repacker) :
  length k = 4%nat -> k <> IDAT -> len d <= maxChunkLen ->
  length c4 = 4%nat ->
  Uint32 c4 <> crc32.ChecksumIEEE (k ++ d) ->
  r p = PutUint32 (len d) ++ k ++ d ++ c4 ++ rest ->
  exists p',
    repackChunk p = (Some (Some ErrChecksum), p')
    /\ w p' = w p ++ PutUint32 (len d) ++ k ++ d /\ r p' = rest.
Proof.
  intros Hk Hn Hl Hc Hbad Hr. unfold repackChunk.
  rewrite (chunk_header p (len d) k (d ++ c4 ++ rest) Hk
             (conj (len_nonneg d) Hl) Hr).
  rewrite bytes_eqb_neq by exact Hn.
  unfold handleAnyChunk, bind, gets, write, modify.
  rewrite (copyN_app d (c4 ++ rest)) by (fields; reflexivity).
  rewrite (verifyCrc_bad c4 rest); [|fields; reflexivity|exact Hc|].
  2:{ fields. rewrite Write_app. exact Hbad. }
  eexists. split; [reflexivity|]. fields.
  rewrite head8_overwrite by (auto using PutUint32_length).
  rewrite <- !app_assoc. auto.
Qed.

End WithCodec.

End RepackerErr.

(* ================================================================== *)
(** ** The pull-style transcoder *)

Module ReaderFacts.
Import Reader ReaderInv.

Ltac rfields :=
  cbn [r w level tmp crc readNonIDAT processedIDAT stage chunkLen chunkType
       zr zw zbuf zcrc eof
       set_r set_w set_level set_tmp set_crc set_readNonIDAT set_processedIDAT
       set_stage set_chunkLen set_chunkType set_zr set_zw set_zbuf set_zcrc
       set_eof fst snd] in *.

Section WithCodec.
Context {codec : Codec}.

(** *** [Read] and [io.Copy]: more rounds change nothing *)

Lemma rd_fill_mono (f : nat) :
  forall (p : Reader) x, fill f p = Some x -> fill (S f) p = Some x.
Proof.
  induction f as [|f IH]; intros p x.
  - cbn [fill]. destruct (len (w p) =? 0); [|auto].
    destruct (eof p); [auto|discriminate].
  - intros E. cbn [fill] in E |- *.
    destruct (len (w p) =? 0); [|exact E].
    destruct (eof p); [exact E|].
    destruct (refill p) as [[[]|e] p1]; [apply IH; exact E|].
    destruct e; try exact E. apply IH; exact E.
Qed.

Lemma rd_Read_mono (f : nat) (n : Z) (p : Reader) x :
  Read f n p = Some x -> Read (S f) n p = Some x.
Proof.
  unfold Read. destruct (fill f p) as [y|] eqn:E; [|discriminate].
  rewrite (rd_fill_mono f p y E). auto.
Qed.

Lemma rd_copy_mono (f : nat) :
  forall (p : Reader) (out : bytes) res,
    copy f p out = Some res -> copy (S f) p out = Some res.
Proof.
  induction f as [|f IH]; intros p out res E; [discriminate|].
  cbn [copy] in E. remember (S f) as f1. cbn [copy]. subst f1.
  destruct (Read (S f) (32 * 1024) p) as [[[b er] p1]|] eqn:Er; [|discriminate].
  rewrite (rd_Read_mono (S f) _ p _ Er).
  destruct er as [e|]; [exact E|]. apply IH. exact E.
Qed.

Lemma rd_copy_mono_le (f f' : nat) (p : Reader) (out : bytes) res :
  (f <= f')%nat -> copy f p out = Some res -> copy f' p out = Some res.
Proof.
  intros Hle E. induction Hle as [|f' Hle IH]; [exact E|].
  apply rd_copy_mono. exact IH.
Qed.


(** *** [io.Copy] follows [refill] *)

Lemma rd_set_w_nil (p : Reader) : w p = [] -> set_w [] p = p.
Proof. destruct p. cbn. intros ->. reflexivity. Qed.

Lemma length_drop_lt {A} (n : Z) (l : list A) :
  0 < n -> l <> [] -> (length (drop n l) < length l)%nat.
Proof.
  intros Hn Hl. destruct l as [|x l]; [contradiction|].
  rewrite drop_cons. destruct (Z.leb_spec n 0); [lia|].
  pose proof (length_drop (n - 1) l). cbn [length]. lia.
Qed.

(** What [Read] has buffered goes to the sink before anything else. *)
Lemma Copies_pending (n : nat) :
  forall (p : Reader) (out : bytes) res,
    (length (w p) <= n)%nat ->
    Copies (set_w [] p) (out ++ w p) res -> Copies p out res.
Proof.
  induction n as [|n IH]; intros p out res Hn H.
  - assert (Hw : w p = []) by (destruct (w p); [reflexivity|cbn in Hn; lia]).
    rewrite (rd_set_w_nil p Hw), Hw, app_nil_r in H. exact H.
  - destruct (w p) as [|x l] eqn:Hw.
    { rewrite (rd_set_w_nil p Hw), app_nil_r in H. exact H. }
    set (m := Z.min (32 * 1024) (len (w p))).
    assert (Hm : 0 < m).
    { unfold m. rewrite Hw, len_cons. pose proof (len_nonneg l). lia. }
    assert (Hlt : (length (drop m (w p)) < length (w p))%nat).
    { apply length_drop_lt; [exact Hm|]. rewrite Hw. discriminate. }
    destruct (IH (set_w (drop m (w p)) p) (out ++ take m (w p)) res)
      as [fuel E].
    + rfields. rewrite Hw in Hlt |- *. cbn [length] in *. lia.
    + replace (set_w [] (set_w (drop m (w p)) p)) with (set_w [] p)
        by (destruct p; reflexivity).
      rfields. rewrite <- app_assoc, take_drop, Hw. exact H.
    + exists (S fuel). cbn [copy]. unfold Read.
      assert (Hf : fill (S fuel) p = Some (None, p)).
      { cbn [fill]. rewrite Hw, len_cons.
        destruct (Z.eqb_spec (len l + 1) 0); [pose proof (len_nonneg l); lia|].
        reflexivity. }
      rewrite Hf. fold m. exact E.
Qed.

Lemma rd_copy_shift (p q : Reader) (out : bytes) res :
  (forall f, fill (S f) p = fill f q) ->
  Copies q out res -> Copies p out res.
Proof.
  intros H [fuel E]. destruct fuel as [|f]; [discriminate|].
  exists (S (S f)). remember (S f) as f1. cbn [copy]. unfold Read.
  rewrite H. subst f1. cbn [copy] in E. unfold Read in E.
  destruct (fill (S f) q) as [[[ret|] q1]|]; try discriminate.
  - destruct ret as [b [e|]]; [exact E|]. apply rd_copy_mono. exact E.
  - apply rd_copy_mono. exact E.
Qed.

Lemma rd_fill_refill (f : nat) (p : Reader) :
  w p = [] -> eof p = false ->
  fill (S f) p =
    match refill p with
    | (Err EOF, p1) => fill f (set_eof true p1)
    | (Err e, p1) => Some (Some ([], Some e), p1)
    | (Ok _, p1) => fill f p1
    end.
Proof. intros Hw He. cbn [fill]. rewrite Hw, He. reflexivity. Qed.

(** [Drains] describes [io.Copy]. *)
Lemma Copies_Drains (p : Reader) (out : bytes) res :
  Drains p out res -> Copies p out res.
Proof.
  induction 1 as [p p1 out res Hw He Hr _ IH|p p1 out Hw He Hr|p p1 out e Hw He Hr Hne].
  - apply (rd_copy_shift p p1).
    + intros f. rewrite (rd_fill_refill f p Hw He), Hr. reflexivity.
    + apply (Copies_pending (length (w p1))); [lia|exact IH].
  - apply (rd_copy_shift p (set_eof true p1)).
    + intros f. rewrite (rd_fill_refill f p Hw He), Hr. reflexivity.
    + apply (Copies_pending (length (w (set_eof true p1)))); [lia|].
      exists 1%nat. cbn [copy]. unfold Read. cbn [fill]. rfields.
      change (len []) with 0. cbn [Z.eqb]. rewrite app_nil_r. reflexivity.
  - exists 1%nat. cbn [copy]. unfold Read. rewrite (rd_fill_refill 0 p Hw He), Hr.
    destruct e; try contradiction; rewrite app_nil_r; reflexivity.
Qed.


(** *** Pass-through of a chunk *)

Lemma rd_readTmp_app (n : nat) (a rest : bytes) (p : Reader) :
  length a = n -> r p = a ++ rest ->
  readTmp n p = (Ok tt, set_tmp (overwrite a (tmp p)) (set_r rest p)).
Proof.
  intros Hn Hr. unfold readTmp. rewrite Hr, ReadFull_app by exact Hn. reflexivity.
Qed.

Lemma rd_chunkHeader (p : Reader) (n : Z) (k rest : bytes) :
  length k = 4%nat -> 0 <= n <= maxChunkLen ->
  r p = PutUint32 n ++ k ++ rest ->
  chunkHeader p =
    (Ok (n, k),
     set_crc (crc32.Write 0 k)
       (set_w (w p ++ (if bytes_eqb k IDAT then [] else PutUint32 n ++ k))
          (set_tmp (overwrite (PutUint32 n ++ k) (tmp p)) (set_r rest p)))).
Proof.
  intros Hk Hn Hr. unfold chunkHeader, bind.
  rewrite (rd_readTmp_app 8 (PutUint32 n ++ k) rest)
    by (rewrite ?length_app, ?PutUint32_length, <- ?app_assoc; auto; lia).
  unfold gets, modify, ret, write. rfields.
  rewrite head4_overwrite, kind_overwrite, head8_overwrite
    by (auto using PutUint32_length).
  rewrite Uint32_PutUint32 by (apply maxChunkLen_u32; exact Hn).
  destruct (Z.gtb_spec n maxChunkLen); [lia|].
  destruct (bytes_eqb k IDAT); cbn [negb]; rfields; [|reflexivity].
  rewrite app_nil_r. destruct p; reflexivity.
Qed.

Lemma rd_verifyCrc_ok (c : Z) (rest : bytes) (p : Reader) :
  r p = PutUint32 c ++ rest -> crc p = c -> u32 c ->
  verifyCrc p =
    (Ok tt, set_crc 0 (set_w (w p ++ PutUint32 c)
              (set_tmp (overwrite (PutUint32 c) (tmp p)) (set_r rest p)))).
Proof.
  intros Hr Hc Hu. unfold verifyCrc, bind, gets, ret, write, modify.
  rewrite (rd_readTmp_app 4 (PutUint32 c) rest) by auto using PutUint32_length.
  rfields.
  rewrite head4_overwrite' by apply PutUint32_length.
  rewrite Uint32_PutUint32 by exact Hu.
  unfold crc32.Sum32. rewrite Hc, Z.eqb_refl. reflexivity.
Qed.

Lemma src_Read_app (n : Z) (a b : bytes) :
  n <= len a -> b <> [] ->
  src_Read n (a ++ b) = (take n a, None, drop n a ++ b).
Proof.
  intros Hn Hb. unfold src_Read.
  destruct (a ++ b) as [|x l] eqn:E.
  { apply app_eq_nil in E. destruct E. contradiction. }
  rewrite <- E, take_app_le, drop_app_le by exact Hn. reflexivity.
Qed.

Lemma PutUint32_nonnil (v : Z) (rest : bytes) : PutUint32 v ++ rest <> [].
Proof. unfold PutUint32. discriminate. Qed.

(** The data of a chunk goes through in pieces of at most [bufSize]. *)
Lemma rd_data (n : nat) :
  forall (d rest : bytes) (c : Z) (q : Reader),
    (length d <= n)%nat ->
    stage q = stChunkData -> chunkType q <> IDAT -> chunkLen q = len d ->
    r q = d ++ rest -> rest <> [] -> crc32.Write (crc q) d = c ->
    w q = [] -> eof q = false ->
    exists q',
      stage q' = stChunkCrc /\ r q' = rest /\ crc q' = c
      /\ w q' = [] /\ eof q' = false /\ level q' = level q
      /\ processedIDAT q' = processedIDAT q /\ readNonIDAT q' = readNonIDAT q
      /\ zbuf q' = zbuf q /\ zcrc q' = zcrc q
      /\ (forall out res, Drains q' (out ++ d) res -> Drains q out res).
Proof.
  induction n as [|n IH]; intros d rest c q Hn Hs Hk Hl Hr Hne Hc Hw He.
  all: set (m := Z.min bufSize (len d)).
  all: assert (Hm : m <= len d) by (unfold m; lia).
  all: set (q1 := set_chunkLen (len (drop m d))
                 (set_crc (crc32.Write (crc q) (take m d))
                    (set_w (w q ++ take m d)
                       (set_r (drop m d ++ rest) q)))).
  all: assert (E : refill q = (Ok tt, if len (drop m d) =? 0
                                   then set_stage stChunkCrc q1 else q1))
    by (unfold refill; rewrite Hs; unfold handleChunkData;
        rewrite bytes_eqb_neq by exact Hk; rewrite Hl, Hr; fold m;
        rewrite src_Read_app by (try exact Hne; lia);
        rfields; rewrite Hl, <- len_take_drop; fold q1;
        destruct (len (drop m d) =? 0); reflexivity).
  all: destruct (Z.eqb_spec (len (drop m d)) 0) as [Hz|Hnz].
  1,3: assert (Hdrop : drop m d = [])
    by (destruct (drop m d) as [|x0 l0]; [reflexivity|];
        rewrite len_cons in Hz; pose proof (len_nonneg l0); lia).
  1,2: assert (Htake : take m d = d)
    by (rewrite <- (take_drop m d) at 2; rewrite Hdrop, app_nil_r; reflexivity).
  1,2: exists (set_w [] (set_stage stChunkCrc q1)); unfold q1; rfields;
    rewrite Hdrop, Htake; cbn [app]; repeat split; auto;
    intros out res HD; (eapply Drains_ok; [exact Hw|exact He|exact E|]);
    unfold q1; rfields; rewrite Hw in HD |- *; rewrite ?Hdrop, ?Htake;
    cbn [app] in HD |- *; exact HD.
  - exfalso. apply Hnz.
    assert (d = []) by (destruct d; [reflexivity|cbn in Hn; lia]). subst d.
    reflexivity.
  - assert (Hd : d <> []) by (intros ->; apply Hnz; reflexivity).
    assert (Hm0 : 0 < m).
    { unfold m, bufSize. destruct d as [|x0 d0]; [contradiction|].
      rewrite len_cons. pose proof (len_nonneg d0). lia. }
    assert (Hlt : (length (drop m d) < length d)%nat)
      by (apply length_drop_lt; [lia|exact Hd]).
    destruct (IH (drop m d) rest c (set_w [] q1)) as (q' & G).
    + lia.
    + unfold q1. rfields. exact Hs.
    + unfold q1. rfields. exact Hk.
    + unfold q1. rfields. reflexivity.
    + unfold q1. rfields. reflexivity.
    + exact Hne.
    + unfold q1. rfields. rewrite Write_app, take_drop. exact Hc.
    + reflexivity.
    + unfold q1. rfields. exact He.
    + exists q'. unfold q1 in G. rfields.
      destruct G as (G1 & G2 & G3 & G4 & G5 & G6 & G7 & G8 & G9 & G10 & G11).
      repeat split; auto.
      intros out res HD. eapply Drains_ok; [exact Hw|exact He|exact E|].
      apply G11. unfold q1. rfields. rewrite Hw. cbn [app].
      rewrite <- app_assoc, take_drop. exact HD.
Qed.


(** A chunk that is not IDAT goes through unchanged. *)
Lemma rd_pass (c : Chunk) (rest : bytes) (lvl : Z) (seen : bool) (p : Reader) :
  ancillary c -> ready lvl seen p -> r p = encode c ++ rest ->
  exists p',
    ready lvl seen p' /\ r p' = rest
    /\ (forall out res, Drains p' (out ++ encode c) res -> Drains p out res).
Proof.
  intros [[Hk Hl] Hn] (Hs & Hw & He & Hlv & Hpi & Hrn & Hzb & Hzc) Hr.
  unfold encode in Hr. rewrite <- !app_assoc in Hr.
  set (cc := crc32.ChecksumIEEE (kind c ++ data c)) in *.
  set (hdr := PutUint32 (len (data c)) ++ kind c).
  (* the header *)
  set (p1 := set_stage stChunkData (set_chunkType (kind c)
               (set_chunkLen (len (data c))
                  (set_crc (crc32.Write 0 (kind c))
                     (set_w (w p ++ hdr)
                        (set_tmp (overwrite hdr (tmp p))
                           (set_r (data c ++ PutUint32 cc ++ rest) p))))))).
  assert (E1 : refill p = (Ok tt, p1)).
  { unfold refill. rewrite Hs.
    rewrite (rd_chunkHeader p (len (data c)) (kind c) _ Hk
               (conj (len_nonneg _) Hl) Hr).
    rewrite bytes_eqb_neq by exact Hn.
    destruct (Z.gtb_spec (len (data c)) maxChunkLen); [lia|]. reflexivity. }
  (* the data *)
  destruct (rd_data (length (data c)) (data c) (PutUint32 cc ++ rest) cc
              (set_w [] p1))
    as (q' & G1 & G2 & G3 & G4 & G5 & G6 & G7 & G8 & G9 & G10 & G11);
    try (unfold p1; rfields; auto; fail); try apply PutUint32_nonnil.
  { unfold p1. rfields. unfold cc, crc32.ChecksumIEEE. apply Write_app. }
  (* the checksum *)
  set (p3 := set_stage stChunkHead
               (set_crc 0 (set_w (w q' ++ PutUint32 cc)
                  (set_tmp (overwrite (PutUint32 cc) (tmp q')) (set_r rest q'))))).
  assert (E3 : refill q' = (Ok tt, p3)).
  { unfold refill. rewrite G1.
    rewrite (rd_verifyCrc_ok cc rest q' G2 G3 (Checksum_u32 _)). reflexivity. }
  exists (set_w [] p3). unfold p3, p1 in *. rfields.
  split; [|split; [reflexivity|]].
  - unfold ready. rfields. repeat split; auto; congruence.
  - intros out res HD.
    eapply Drains_ok; [exact Hw|exact He|exact E1|]. rfields.
    apply G11.
    eapply Drains_ok; [exact G4|exact G5|exact E3|]. rfields.
    rewrite Hw, G4. cbn [app]. unfold encode in HD. fold cc in HD.
    unfold hdr. rewrite <- !app_assoc. exact HD.
Qed.

Lemma rd_pass_list (cs : list Chunk) (rest : bytes) (lvl : Z) (seen : bool) :
  forall p : Reader,
    Forall ancillary cs -> ready lvl seen p -> r p = encodes cs ++ rest ->
    exists p',
      ready lvl seen p' /\ r p' = rest
      /\ (forall out res, Drains p' (out ++ encodes cs) res -> Drains p out res).
Proof.
  induction cs as [|c cs IH]; intros p Hcs Hrd Hr.
  - exists p. cbn in Hr. split; [exact Hrd|]. split; [exact Hr|].
    intros out res. cbn [encodes flat_map]. rewrite app_nil_r. auto.
  - inversion Hcs as [|? ? Hc Hcs']; subst.
    cbn [encodes flat_map] in Hr. rewrite <- app_assoc in Hr.
    destruct (rd_pass c (encodes cs ++ rest) lvl seen p Hc Hrd Hr)
      as (p1 & Hrd1 & Hr1 & HD1).
    destruct (IH p1 Hcs' Hrd1 Hr1) as (p2 & Hrd2 & Hr2 & HD2).
    exists p2. split; [exact Hrd2|]. split; [exact Hr2|].
    intros out res HD. apply HD1, HD2.
    cbn [encodes flat_map] in HD. rewrite <- app_assoc. exact HD.
Qed.

(** At the end of the source, at a chunk boundary, the copy is done. *)
Lemma rd_eof (lvl : Z) (seen : bool) (p : Reader) (out : bytes) :
  ready lvl seen p -> r p = [] -> Drains p out (None, out).
Proof.
  intros (Hs & Hw & He & _) Hr.
  assert (E : refill p = (Err EOF, set_tmp (overwrite [] (tmp p)) (set_r [] p))).
  { unfold refill. rewrite Hs. unfold chunkHeader, bind, readTmp. rewrite Hr.
    reflexivity. }
  pose proof (Drains_eof p _ out Hw He E) as HD. rfields.
  rewrite Hw, app_nil_r in HD. exact HD.
Qed.


(** *** The signature and the header chunk *)

Lemma rd_header (d13 rest : bytes) (lvl : Z) (p : Reader) :
  length d13 = 13%nat -> nth 10 d13 x00 = x00 ->
  r p = pngHeader ++ encode {| kind := IHDR; data := d13 |} ++ rest ->
  stage p = stStart -> w p = [] -> eof p = false -> level p = lvl ->
  processedIDAT p = false -> readNonIDAT p = false ->
  zbuf p = [] -> zcrc p = 0 ->
  exists p',
    ready lvl false p' /\ r p' = rest
    /\ (forall out res,
          Drains p' (out ++ pngHeader
                     ++ encode {| kind := IHDR; data := d13 |}) res ->
          Drains p out res).
Proof.
  intros Hl H10 Hr Hs Hw He Hlv Hpi Hrn Hzb Hzc.
  assert (Hlen : len d13 = 13) by (unfold len; rewrite Hl; reflexivity).
  unfold encode in Hr. cbn [kind data] in Hr. rewrite <- !app_assoc in Hr.
  set (cc := crc32.ChecksumIEEE (IHDR ++ d13)) in *.
  assert (E : exists p1, refill p = (Ok tt, p1)
              /\ w p1 = pngHeader ++ PutUint32 13 ++ IHDR ++ d13 ++ PutUint32 cc
              /\ r p1 = rest /\ ready lvl false (set_w [] p1)).
  { unfold refill. rewrite Hs. unfold verifyHeader, bind, gets, write, modify.
    rewrite (rd_readTmp_app 8 pngHeader _ p eq_refl Hr). rfields.
    change (firstn 8 (overwrite pngHeader (tmp p)))
      with (firstn (length pngHeader) (overwrite pngHeader (tmp p))).
    rewrite firstn_overwrite. rewrite bytes_eqb_refl. cbn [negb].
    rewrite (rd_chunkHeader _ 13 IHDR (d13 ++ PutUint32 cc ++ rest));
      [|reflexivity|unfold maxChunkLen; lia|rfields; rewrite Hlen; reflexivity].
    rewrite bytes_eqb_refl. cbn [negb Z.eqb Pos.eqb]. rfields.
    replace (bytes_eqb IHDR IDAT) with false by reflexivity.
    rewrite (rd_readTmp_app 13 d13 (PutUint32 cc ++ rest)) by (rfields; auto).
    rfields.
    match goal with |- context [nth 10 (overwrite d13 ?t) x00] =>
      assert (Hn : nth 10 (overwrite d13 t) x00 = x00)
        by (unfold overwrite at 1; rewrite app_nth1 by lia; exact H10);
      assert (Hd : firstn 13 (overwrite d13 t) = d13)
        by (rewrite <- Hl; apply firstn_overwrite);
      rewrite Hn, Hd
    end.
    rewrite Byte.byte_dec_lb by reflexivity. cbn [negb].
    rewrite (rd_verifyCrc_ok cc rest);
      [|rfields; reflexivity|rfields; apply Write_app|apply Checksum_u32].
    eexists. split; [reflexivity|]. rfields. rewrite Hw. cbn [app].
    rewrite <- !app_assoc. split; [reflexivity|]. split; [reflexivity|].
    unfold ready. rfields. repeat split; auto. }
  destruct E as (p1 & E & W1 & R1 & Hrd1).
  exists (set_w [] p1). split; [exact Hrd1|]. split; [exact R1|].
  intros out res HD. eapply Drains_ok; [exact Hw|exact He|exact E|].
  rewrite W1. unfold encode in HD. cbn [kind data] in HD.
  rewrite Hlen in HD. fold cc in HD. exact HD.
Qed.

End WithCodec.

End ReaderFacts.

(** *** The image-data run *)

Module ReaderRun.
Import Reader ReaderInv ReaderFacts Run RunFacts.

Section WithCodec.
Context {codec : Codec}.

Lemma rd_quiet_refl (p : Reader) : quiet p p.
Proof. unfold quiet. repeat split; auto. Qed.

Lemma rd_quiet_trans (p1 p2 p3 : Reader) :
  quiet p1 p2 -> quiet p2 p3 -> quiet p1 p3.
Proof.
  unfold quiet.
  intros (A1 & A2 & A3 & A4 & A5 & A6 & A7 & A8 & A9 & A10)
         (B1 & B2 & B3 & B4 & B5 & B6 & B7 & B8 & B9 & B10).
  repeat split; try congruence. lia.
Qed.

Lemma rd_readTmp_quiet (n : nat) (p p' : Reader) (x : res unit) :
  readTmp n p = (x, p') -> quiet p p'.
Proof.
  unfold readTmp. pose proof (ReadFull_length n (r p)) as H.
  destruct (ReadFull n (r p)) as [[b e] rest]. cbn [snd] in H.
  destruct e; intros E; inversion E; subst; unfold quiet; rfields;
    repeat split; auto.
Qed.

Lemma rd_quiet_set_chunkLen (v : Z) (p : Reader) : quiet p (set_chunkLen v p).
Proof. unfold quiet. rfields. repeat split; auto. Qed.
Lemma rd_quiet_set_chunkType (v : bytes) (p : Reader) : quiet p (set_chunkType v p).
Proof. unfold quiet. rfields. repeat split; auto. Qed.
Lemma rd_quiet_set_crc (v : Z) (p : Reader) : quiet p (set_crc v p).
Proof. unfold quiet. rfields. repeat split; auto. Qed.
Lemma rd_quiet_set_readNonIDAT (v : bool) (p : Reader) : quiet p (set_readNonIDAT v p).
Proof. unfold quiet. rfields. repeat split; auto. Qed.

Lemma rd_nextChunk_quiet (p p' : Reader) (x : option (bytes * option error)) :
  nextChunk p = (x, p') -> quiet p p'.
Proof.
  unfold nextChunk. intros E.
  destruct (readTmp 4 p) as [[[]|e] p1] eqn:E1; apply rd_readTmp_quiet in E1.
  2:{ inversion E; subst. exact E1. }
  destruct (negb _).
  { inversion E; subst. exact E1. }
  destruct (readTmp 8 p1) as [[[]|e] p2] eqn:E2; apply rd_readTmp_quiet in E2.
  2:{ inversion E; subst. eapply rd_quiet_trans; eassumption. }
  eapply rd_quiet_trans; [exact E1|]. eapply rd_quiet_trans; [exact E2|].
  repeat match type of E with
         | context [if ?c then _ else _] => destruct c
         end;
    inversion E; subst; unfold quiet; rfields; repeat split; auto.
Qed.

Lemma rd_skipChunks_quiet (fuel : nat) (p p' : Reader)
      (x : option (bytes * option error)) :
  skipChunks fuel p = (x, p') -> quiet p p'.
Proof.
  revert p. induction fuel as [|fuel IH]; intros p; cbn [skipChunks];
    destruct (chunkLen p =? 0);
    try (intros E; inversion E; subst; apply rd_quiet_refl);
    destruct (nextChunk p) as [[ret|] p1] eqn:E1; apply rd_nextChunk_quiet in E1;
    intros E.
  - inversion E; subst. exact E1.
  - inversion E; subst. exact E1.
  - inversion E; subst. exact E1.
  - apply IH in E. eapply rd_quiet_trans; eassumption.
Qed.

Lemma rd_Read_quiet (n : Z) (p p' : Reader) (x : bytes * option error) :
  idatReader_Read n p = (x, p') -> quiet p p'.
Proof.
  unfold idatReader_Read. destruct (n =? 0).
  { intros E; inversion E; subst. apply rd_quiet_refl. }
  destruct (skipChunks (length (r p)) p) as [[ret|] p1] eqn:E1;
    apply rd_skipChunks_quiet in E1.
  { intros E; inversion E; subst. exact E1. }
  pose proof (src_Read_length (Z.min n (chunkLen p1)) (r p1)) as Hl.
  destruct (src_Read _ (r p1)) as [[b err] rest]. cbn [snd] in Hl.
  intros E; inversion E; subst. eapply rd_quiet_trans; [exact E1|].
  unfold quiet; rfields; repeat split; auto.
Qed.

Lemma rd_newReader_quiet (o : zopen) (p p' : Reader) (x : res zreader) :
  newReader o p = (x, p') -> quiet p p'.
Proof.
  revert p. induction o as [n k IH|e|z]; intros p; cbn [newReader].
  - destruct (idatReader_Read n p) as [[b [e|]] p1] eqn:E1;
      apply rd_Read_quiet in E1.
    + destruct e; try (intros E; inversion E; subst; exact E1).
      intros E. apply IH in E. eapply rd_quiet_trans; eassumption.
    + intros E. apply IH in E. eapply rd_quiet_trans; eassumption.
  - intros E; inversion E; subst. apply rd_quiet_refl.
  - intros E; inversion E; subst. apply rd_quiet_refl.
Qed.

Lemma rd_zr_Read_quiet (z : zreader) (p p' : Reader)
      (x : bytes * option error * zreader) :
  zr_Read z p = (x, p') -> quiet p p'.
Proof.
  revert p. induction z as [n k IH|out k IH|out e]; intros p; cbn [zr_Read].
  - destruct (idatReader_Read n p) as [[b [e|]] p1] eqn:E1;
      apply rd_Read_quiet in E1.
    + destruct e; try (intros E; inversion E; subst; exact E1).
      intros E. apply IH in E. eapply rd_quiet_trans; eassumption.
    + intros E. apply IH in E. eapply rd_quiet_trans; eassumption.
  - intros E; inversion E; subst. apply rd_quiet_refl.
  - intros E; inversion E; subst. apply rd_quiet_refl.
Qed.


(** The reads of the run do not look at [p.zr]. *)
Lemma rd_nextChunk_zr (v : option zreader) (p : Reader) :
  nextChunk (set_zr v p)
  = (fst (nextChunk p), set_zr v (snd (nextChunk p))).
Proof.
  unfold nextChunk, readTmp. rfields.
  destruct (ReadFull 4 (r p)) as [[b1 [e1|]] rest1]; rfields; [reflexivity|].
  destruct (negb _); rfields; [reflexivity|].
  destruct (ReadFull 8 rest1) as [[b2 [e2|]] rest2]; rfields; [reflexivity|].
  repeat match goal with
         | |- context [if ?c then _ else _] => destruct c; rfields
         end; reflexivity.
Qed.

Lemma rd_skipChunks_zr (v : option zreader) (fuel : nat) :
  forall p : Reader,
    skipChunks fuel (set_zr v p)
    = (fst (skipChunks fuel p), set_zr v (snd (skipChunks fuel p))).
Proof.
  induction fuel as [|fuel IH]; intros p; cbn [skipChunks]; rfields;
    destruct (chunkLen p =? 0); try reflexivity;
    rewrite rd_nextChunk_zr; destruct (nextChunk p) as [[ret|] p1];
    rfields; try reflexivity.
  apply IH.
Qed.

Lemma rd_Read_zr (v : option zreader) (n : Z) (p : Reader) :
  idatReader_Read n (set_zr v p)
  = (fst (idatReader_Read n p), set_zr v (snd (idatReader_Read n p))).
Proof.
  unfold idatReader_Read. destruct (n =? 0); [reflexivity|].
  rfields. rewrite rd_skipChunks_zr.
  destruct (skipChunks (length (r p)) p) as [[ret|] p1]; rfields;
    [reflexivity|].
  destruct (src_Read _ (r p1)) as [[b err] rest]. reflexivity.
Qed.

Lemma rd_zr_Read_zr (v : option zreader) (z : zreader) :
  forall p : Reader,
    zr_Read z (set_zr v p)
    = (fst (zr_Read z p), set_zr v (snd (zr_Read z p))).
Proof.
  induction z as [n k IH|out k IH|out e]; intros p; cbn [zr_Read];
    try reflexivity.
  rewrite rd_Read_zr.
  destruct (idatReader_Read n p) as [[b [e|]] p1]; rfields.
  - destruct e; try reflexivity. apply IH.
  - apply IH.
Qed.


Lemma rd_skipChunks_busy (fuel : nat) (p : Reader) :
  chunkLen p <> 0 -> skipChunks fuel p = (None, p).
Proof.
  intros H. destruct fuel; cbn [skipChunks];
    destruct (Z.eqb_spec (chunkLen p) 0); try contradiction; reflexivity.
Qed.

Lemma rd_nextChunk_inside (tail : bytes) (s : run) (p : Reader)
      (d : bytes) (ds : list bytes) :
  inside tail s p -> cur s = [] -> next s = d :: ds ->
  exists p',
    nextChunk p = (None, p')
    /\ inside tail {| cur := d; next := ds; polled := false |} p'
    /\ (length (r p') + 12 <= length (r p))%nat.
Proof.
  intros (done & Hr & Hc & Hi & Hl & Hn & Hh & Hp) Hcur Hnext.
  rewrite Hcur, Hnext in *. cbn [app map] in Hr.
  rewrite app_nil_r in Hr. change (encodes (idat d :: map idat ds))
    with (encode (idat d) ++ encodes (map idat ds)) in Hr.
  unfold encode at 1 in Hr.
  cbn [kind data idat] in Hr. rewrite <- !app_assoc in Hr.
  inversion Hn as [|? ? Hd Hds]; subst.
  unfold nextChunk.
  rewrite (rd_readTmp_app 4 (PutUint32 (crc32.ChecksumIEEE (IDAT ++ done))) _ p
             (PutUint32_length _) Hr).
  rfields. rewrite head4_overwrite' by apply PutUint32_length.
  rewrite Uint32_PutUint32 by apply Checksum_u32.
  unfold crc32.Sum32. rewrite Hc, Z.eqb_refl. cbn [negb].
  rewrite (rd_readTmp_app 8 (PutUint32 (len d) ++ IDAT)
             (d ++ PutUint32 (crc32.ChecksumIEEE (IDAT ++ d))
                ++ encodes (map idat ds) ++ tail))
    by (rfields; rewrite <- ?app_assoc; reflexivity).
  rfields.
  rewrite kind_overwrite by reflexivity. rewrite bytes_eqb_refl. cbn [negb].
  rewrite head4_overwrite by apply PutUint32_length.
  rewrite Uint32_PutUint32
    by (apply maxChunkLen_u32; split; [apply len_nonneg|exact Hd]).
  destruct (Z.gtb_spec (len d) maxChunkLen); [lia|].
  eexists. split; [reflexivity|]. split.
  - exists []. rfields. cbn [cur next polled app].
    repeat split; auto.
  - rfields. rewrite Hr, !length_app, !PutUint32_length.
    change (length IDAT) with 4%nat. lia.
Qed.

Lemma rd_skipChunks_inside (tail : bytes) (ds0 : list bytes) :
  forall (fuel : nat) (s : run) (p : Reader) (d : bytes) (ds : list bytes),
    inside tail s p -> cur s = [] -> next s = ds0 ->
    skip ds0 = Some (d, ds) -> (length (r p) <= fuel)%nat ->
    exists p',
      skipChunks fuel p = (None, p')
      /\ inside tail {| cur := d; next := ds; polled := false |} p'.
Proof.
  induction ds0 as [|d0 ds0 IH]; intros fuel s p d ds Hin Hcur Hnext Hskip Hfuel.
  - discriminate.
  - destruct (rd_nextChunk_inside tail s p d0 ds0 Hin Hcur Hnext)
      as (p1 & E1 & Hin1 & Hlen).
    destruct fuel as [|fuel]; [lia|].
    cbn [skipChunks].
    destruct Hin as (done & _ & _ & Hi & _). rewrite Hcur in Hi.
    change (len []) with 0 in Hi. rewrite Hi, Z.eqb_refl, E1.
    destruct d0 as [|x d0].
    + cbn [skip] in Hskip.
      apply (IH fuel _ p1 d ds Hin1 eq_refl eq_refl Hskip). lia.
    + cbn [skip] in Hskip. inversion Hskip; subst.
      exists p1. split; [|exact Hin1].
      apply rd_skipChunks_busy.
      destruct Hin1 as (done1 & _ & _ & Hi1 & _). rewrite Hi1.
      cbn [cur]. rewrite len_cons. pose proof (len_nonneg d0). lia.
Qed.

Lemma rd_inside_unpolled (tail : bytes) (s : run) (p : Reader) :
  inside tail s p ->
  inside tail {| cur := cur s; next := next s; polled := false |} p.
Proof.
  intros (done & H). exists done. cbn [cur next polled].
  destruct H as (H1 & H2 & H3 & H4 & H5 & H6 & H7). repeat split; auto.
Qed.

Lemma rd_Read_after_skip (tail : bytes) (n : Z) (p p1 : Reader) (s1 : run) :
  n <> 0 -> skipChunks (length (r p)) p = (None, p1) -> inside tail s1 p1 ->
  exists p',
    idatReader_Read n p
    = ((take (Z.min n (len (cur s1))) (cur s1), None), p')
    /\ inside tail {| cur := drop (Z.min n (len (cur s1))) (cur s1);
                      next := next s1; polled := false |} p'.
Proof.
  intros Hn Hskip (done & Hr & Hc & Hi & Hl & Hnx & Hh & Hp).
  unfold idatReader_Read. destruct (Z.eqb_spec n 0); [contradiction|].
  rewrite Hskip.
  rewrite Hi. set (m := Z.min n (len (cur s1))).
  assert (Hm : m <= len (cur s1)) by (unfold m; lia).
  rewrite Hr, src_Read_app by (try apply PutUint32_nonnil; exact Hm).
  eexists. split; [reflexivity|].
  exists (done ++ take m (cur s1)). rfields. cbn [cur next polled].
  rewrite <- !app_assoc, take_drop.
  repeat split; auto.
  - rewrite Hc. unfold crc32.ChecksumIEEE. rewrite Write_app, <- app_assoc.
    reflexivity.
  - rewrite Hi. symmetry. apply len_take_drop.
  - rewrite len_take_drop. pose proof (len_nonneg (take m (cur s1))). lia.
Qed.

Lemma rd_Read_inside (tail : bytes) (n : Z) (s s' : run) (p : Reader)
      (b : bytes) (eof : bool) :
  inside tail s p -> read n s = ((b, eof), s') -> polled s' = false ->
  exists p',
    idatReader_Read n p = ((b, None), p') /\ inside tail s' p' /\ eof = false.
Proof.
  intros Hin E Hp.
  destruct (read_cases n s s' b eof E Hp)
    as (He & Hs & [(Hn & Hb & Hs')|(Hn & d & ds & Hd & Hb & Hs')]).
  - subst. exists p. unfold idatReader_Read. cbn. auto.
  - assert (H1 : exists p1, skipChunks (length (r p)) p = (None, p1)
                   /\ inside tail {| cur := d; next := ds; polled := false |} p1).
    { destruct Hd as [(Hc & -> & ->)|(Hc & Hk)].
      - exists p. split; [|apply rd_inside_unpolled; exact Hin].
        apply rd_skipChunks_busy. destruct Hin as (done & _ & _ & Hi & _).
        rewrite Hi. destruct (cur s) as [|x0 l0]; [contradiction|].
        rewrite len_cons. pose proof (len_nonneg l0). lia.
      - apply (rd_skipChunks_inside tail (next s) (length (r p)) s p d ds
                 Hin Hc eq_refl Hk).
        lia. }
    destruct H1 as (p1 & Hskip & Hin1).
    destruct (rd_Read_after_skip tail n p p1 _ Hn Hskip Hin1) as (p' & E' & Hin').
    cbn [cur next] in E', Hin'. exists p'. subst b s'. auto.
Qed.

Lemma rd_newReader_inside (tail : bytes) (o : zopen) :
  forall (s s' : run) (p : Reader) (x : res zreader),
    inside tail s p -> open o s = (x, s') -> polled s' = false ->
    exists p', newReader o p = (x, p') /\ inside tail s' p'.
Proof.
  induction o as [n k IH|e|z]; intros s s' p x Hin E Hp; cbn [open] in E;
    cbn [newReader].
  - destruct (read n s) as [[b eof] s1] eqn:Er.
    assert (Hp1 : polled s1 = false).
    { destruct (polled s1) eqn:Hp1; [|reflexivity].
      pose proof (open_polled (k b eof) s1 Hp1) as Hc. rewrite E in Hc.
      cbn [snd] in Hc. congruence. }
    destruct (rd_Read_inside tail n s s1 p b eof Hin Er Hp1)
      as (p1 & E1 & Hin1 & ->).
    rewrite E1. apply (IH b false s1 s' p1 x Hin1 E Hp).
  - inversion E; subst. exists p. auto.
  - inversion E; subst. exists p. auto.
Qed.


(** One chunk of the re-encoded run, as [emit] writes it. *)
Lemma rd_emit_spec (out : bytes) (at_eof : bool) (zw0 : zwriter) (p : Reader) :
  zbuf p = [] -> zcrc p = 0 ->
  emit out at_eof zw0 p =
    (if at_eof then Err EOF else Ok tt,
     set_zcrc 0 (set_zbuf []
       (set_w (w p ++ encode (idat
                 (snd (zw_Write zw0 out)
                  ++ snd (zw_Flush (fst (zw_Write zw0 out)))
                  ++ (if at_eof
                      then zw_Close (fst (zw_Flush (fst (zw_Write zw0 out))))
                      else []))))
          (set_zw (Some (fst (zw_Flush (fst (zw_Write zw0 out))))) p)))).
Proof.
  intros Hb Hc. unfold emit.
  destruct (zw_Write zw0 out) as [zw1 b1]. cbn [fst snd].
  destruct (zw_Flush zw1) as [zw2 b2]. cbn [fst snd].
  destruct p as [r0 w0 lv t c rn pi st cl ct z0 z1 zb zc ef].
  rfields. subst zb zc. cbn [app].
  unfold encode, idat. cbn [kind data].
  rewrite PutUint32_uint32, Write_app. unfold crc32.Sum32, crc32.Reset.
  unfold crc32.ChecksumIEEE, crc32.Write. rewrite <- !app_assoc.
  destruct at_eof; reflexivity.
Qed.

Lemma rd_inside_ext (tail : bytes) (s : run) (p q : Reader) :
  inside tail s p ->
  r q = r p -> crc q = crc p -> chunkLen q = chunkLen p ->
  readNonIDAT q = readNonIDAT p ->
  inside tail s q.
Proof.
  intros (done & H1 & H2 & H3 & H4 & H5 & H6 & H7) Hr Hc Hl Hn.
  exists done. repeat split; auto; congruence.
Qed.

Lemma decode_nonempty (z : zreader) (s : run) :
  fst (fst (decode z s)) <> [].
Proof.
  revert s. induction z as [n k IH|out k IH|out e]; intros s; cbn [decode].
  - destruct (read n s) as [[b eof] s1]. apply IH.
  - destruct (decode k s) as [[outs e] s1]. cbn. discriminate.
  - cbn. discriminate.
Qed.

(** A state with the same [refill] drains the same way. *)
Lemma Drains_same (p q : Reader) (out : bytes) res :
  refill p = refill q -> w p = w q -> eof p = eof q ->
  Drains q out res -> Drains p out res.
Proof.
  intros Hr Hw He HD.
  inversion HD as [q0 p1 o0 r0 A1 A2 A3 A4|q0 p1 o0 A1 A2 A3|q0 p1 o0 e A1 A2 A3 A4];
    subst.
  - apply (Drains_ok p p1); try congruence; exact A4.
  - apply (Drains_eof p p1); congruence.
  - apply (Drains_err p p1); congruence.
Qed.

Lemma rd_set_zr_twice (a b : option zreader) (p : Reader) :
  set_zr a (set_zr b p) = set_zr a p.
Proof. destruct p. reflexivity. Qed.

(** A read that the decoder makes before it returns does not end the call
    of [handleIDAT]. *)
Lemma rd_handleIDAT_need (n : Z) (k : bytes -> bool -> zreader)
      (zw0 : zwriter) (p p1 : Reader) (b : bytes) :
  zr p = Some (ZNeed n k) -> zw p = Some zw0 ->
  idatReader_Read n p = ((b, None), p1) ->
  handleIDAT p = handleIDAT (set_zr (Some (k b false)) p1).
Proof.
  intros Hz Hw E. pose proof E as Q. apply rd_Read_quiet in Q.
  destruct Q as (_ & _ & _ & _ & _ & Qzw & _).
  unfold handleIDAT. rfields. rewrite Hz, Hw, Qzw, Hw.
  cbn [zr_Read]. rewrite E. rewrite rd_zr_Read_zr.
  destruct (zr_Read (k b false) p1) as [[[out rerr] z'] p2]. rfields.
  rewrite rd_set_zr_twice. reflexivity.
Qed.


(** The rounds of [refill] in stage [stIDAT], along a session that reads
    the run exactly: the chunks of [Run.reread] go to the sink, and the
    transcoder is back at a chunk boundary after the run. *)
Lemma rd_run (tail : bytes) (lvl : Z) (z : zreader) :
  forall (s s' : run) (p : Reader) (zw0 : zwriter) (outs : list bytes),
    inside tail s p -> stage p = stIDAT ->
    zr p = Some z -> zw p = Some zw0 -> zbuf p = [] -> zcrc p = 0 ->
    w p = [] -> eof p = false -> level p = lvl -> processedIDAT p = true ->
    decode z s = ((outs, EOF), s') -> exact s' ->
    exists p',
      ready lvl true p' /\ r p' = tail
      /\ (forall out res,
            Drains p' (out ++ encodes (map idat (reread zw0 outs))) res ->
            Drains p out res).
Proof.
  induction z as [n k IH|o k IH|o e0];
    intros s s' p zw0 outs Hin Hs Hz Hzw Hzb Hzc Hw He Hlv Hpi Hdec Hex;
    cbn [decode] in Hdec.
  - destruct (read n s) as [[b eof] s1] eqn:Er.
    assert (Hp1 : polled s1 = false).
    { destruct (polled s1) eqn:Hp1; [|reflexivity].
      pose proof (decode_polled (k b eof) s1 Hp1) as Hd. rewrite Hdec in Hd.
      cbn [snd] in Hd. destruct Hex as (_ & _ & Hx). congruence. }
    destruct (rd_Read_inside tail n s s1 p b eof Hin Er Hp1)
      as (p1 & E1 & Hin1 & ->).
    pose proof E1 as Q. apply rd_Read_quiet in Q.
    destruct Q as (Q1 & Q2 & Q3 & Q4 & Q5 & Q6 & Q7 & Q8 & Q9 & _).
    destruct (IH b false s1 s' (set_zr (Some (k b false)) p1) zw0 outs)
      as (p' & Hrd & Hr & HD); rfields; try congruence.
    { apply (rd_inside_ext tail s1 p1); auto. }
    exists p'. split; [exact Hrd|]. split; [exact Hr|].
    intros out res H. apply (Drains_same p (set_zr (Some (k b false)) p1)).
    + unfold refill. rfields. rewrite Hs, Q4, Hs.
      rewrite (rd_handleIDAT_need n k zw0 p p1 b Hz Hzw E1). reflexivity.
    + rfields. congruence.
    + rfields. congruence.
    + apply HD. exact H.
  - destruct (decode k s) as [[outs0 e1] s0] eqn:Ed. inversion Hdec; subst.
    set (zw2 := fst (zw_Flush (fst (zw_Write zw0 o)))).
    set (ch := snd (zw_Write zw0 o) ++ snd (zw_Flush (fst (zw_Write zw0 o)))).
    set (p2 := set_zcrc 0 (set_zbuf []
                 (set_w (w p ++ encode (idat ch))
                    (set_zw (Some zw2) (set_zr (Some k) p))))).
    assert (E : refill p = (Ok tt, p2)).
    { unfold refill. rewrite Hs. unfold handleIDAT. rewrite Hz, Hzw.
      cbn [zr_Read]. rewrite rd_emit_spec by (rfields; assumption).
      rfields. rewrite app_nil_r. reflexivity. }
    destruct (IH s s' (set_w [] p2) zw2 outs0)
      as (p' & Hrd & Hr & HD); unfold p2; rfields; auto;
      try (apply (rd_inside_ext tail s p); auto; fail).
    exists p'. split; [exact Hrd|]. split; [exact Hr|].
    intros out res H. eapply Drains_ok; [exact Hw|exact He|exact E|].
    apply HD. unfold p2. rfields. rewrite Hw. cbn [app].
    assert (Hre : reread zw0 (o :: outs0) = ch :: reread zw2 outs0).
    { cbn [reread]. unfold ch, zw2.
      destruct (zw_Write zw0 o) as [zw1 b1]. cbn [fst snd].
      destruct (zw_Flush zw1) as [zw3 b2]. cbn [fst snd].
      pose proof (decode_nonempty k s) as Hne. rewrite Ed in Hne. cbn in Hne.
      destruct outs0; [contradiction|reflexivity]. }
    rewrite Hre in H. cbn [map encodes flat_map] in H.
    rewrite <- app_assoc. exact H.
  - inversion Hdec; subst.
    destruct Hex as (Hx1 & Hx2 & Hx3).
    destruct Hin as (done & Hr & Hc & Hl & _ & _ & Hrn & _).
    rewrite Hx1, Hx2 in Hr. cbn [map encodes flat_map app] in Hr.
    rewrite app_nil_r in Hr.
    set (zw2 := fst (zw_Flush (fst (zw_Write zw0 o)))).
    set (ch := snd (zw_Write zw0 o) ++ snd (zw_Flush (fst (zw_Write zw0 o)))
               ++ zw_Close zw2).
    set (cc := crc32.ChecksumIEEE (IDAT ++ done)) in *.
    set (p2 := set_zcrc 0 (set_zbuf []
                 (set_w (w p ++ encode (idat ch))
                    (set_zw (Some zw2) (set_zr (Some (ZStop [] EOF)) p))))).
    set (p3 := set_stage stChunkHead
                 (set_tmp (overwrite (PutUint32 cc) (tmp p2)) (set_r tail p2))).
    assert (E : refill p = (Ok tt, p3)).
    { unfold refill. rewrite Hs. unfold handleIDAT. rewrite Hz, Hzw.
      cbn [zr_Read]. rewrite rd_emit_spec by (rfields; assumption).
      fold zw2. fold ch. rfields. rewrite Hrn. cbn [negb].
      rewrite (rd_readTmp_app 4 (PutUint32 cc) tail)
        by (rfields; auto using PutUint32_length).
      rfields. rewrite head4_overwrite' by apply PutUint32_length.
      rewrite Uint32_PutUint32 by apply Checksum_u32.
      unfold crc32.Sum32. rewrite Hc, Z.eqb_refl. reflexivity. }
    exists (set_w [] p3). split; [|split].
    + unfold ready, p3, p2. rfields. repeat split; auto.
    + reflexivity.
    + intros out res H. eapply Drains_ok; [exact Hw|exact He|exact E|].
      unfold p3, p2. rfields. rewrite Hw. cbn [app].
      assert (Hre : reread zw0 [o] = [ch]).
      { cbn [reread]. unfold ch, zw2.
        destruct (zw_Write zw0 o) as [zw1 b1]. cbn [fst snd].
        destruct (zw_Flush zw1) as [zw3 b2]. reflexivity. }
      rewrite Hre in H. cbn [map encodes flat_map] in H.
      rewrite app_nil_r in H. exact H.
Qed.


(** From the header of the first IDAT chunk to the chunk boundary after
    the run. *)
Lemma rd_enter (tail d0 : bytes) (ds : list bytes) (lvl : Z) (p : Reader)
      (zw0 : zwriter) (z : zreader) (s1 s2 : run) (outs : list bytes) :
  ready lvl false p ->
  r p = encodes (map idat (d0 :: ds)) ++ tail ->
  Forall (fun d => len d <= maxChunkLen) (d0 :: ds) ->
  NewWriterLevel lvl = inl zw0 ->
  open NewReader {| cur := d0; next := ds; polled := false |} = (Ok z, s1) ->
  decode z s1 = ((outs, EOF), s2) -> exact s2 ->
  exists p',
    ready lvl true p' /\ r p' = tail
    /\ (forall out res,
          Drains p' (out ++ encodes (map idat (reread zw0 outs))) res ->
          Drains p out res).
Proof.
  intros (Hs & Hw & He & Hlv & Hpi & Hrn & Hzb & Hzc) Hr Hlen Hlvl Hopen Hdec Hex.
  inversion Hlen as [|? ? Hd0 Hds]; subst.
  cbn [map] in Hr.
  change (encodes (idat d0 :: map idat ds))
    with (encode (idat d0) ++ encodes (map idat ds)) in Hr.
  unfold encode at 1 in Hr. cbn [kind data idat] in Hr.
  rewrite <- !app_assoc in Hr.
  (* the header of the first IDAT chunk *)
  set (rest := d0 ++ PutUint32 (crc32.ChecksumIEEE (IDAT ++ d0))
               ++ encodes (map idat ds) ++ tail) in *.
  set (p1 := set_stage stChunkData (set_chunkType IDAT
               (set_chunkLen (len d0)
                  (set_crc (crc32.Write 0 IDAT)
                     (set_w (w p ++ [])
                        (set_tmp (overwrite (PutUint32 (len d0) ++ IDAT) (tmp p))
                           (set_r rest p))))))).
  assert (E1 : refill p = (Ok tt, p1)).
  { unfold refill. rewrite Hs.
    rewrite (rd_chunkHeader p (len d0) IDAT rest eq_refl
               (conj (len_nonneg _) Hd0) Hr).
    rewrite bytes_eqb_refl.
    destruct (Z.gtb_spec (len d0) maxChunkLen); [lia|]. reflexivity. }
  (* zlib.NewReader *)
  set (q := set_w [] p1).
  assert (Hin : inside tail {| cur := d0; next := ds; polled := false |} q).
  { exists []. unfold q, p1. rfields. cbn [cur next polled app].
    repeat split; auto. }
  assert (Hp1 : polled s1 = false).
  { destruct (polled s1) eqn:Hp1; [|reflexivity].
    pose proof (decode_polled z s1 Hp1) as Hc. rewrite Hdec in Hc.
    cbn [snd] in Hc. destruct Hex as (_ & _ & Hx). congruence. }
  destruct (rd_newReader_inside tail NewReader _ s1 q (Ok z) Hin Hopen Hp1)
    as (q1 & E2 & Hin1).
  pose proof E2 as Q. apply rd_newReader_quiet in Q.
  destruct Q as (Q1 & Q2 & Q3 & Q4 & Q5 & Q6 & Q7 & Q8 & Q9 & _).
  unfold q, p1 in Q1, Q2, Q3, Q4, Q5, Q6, Q7, Q8, Q9. rfields.
  set (q2 := set_stage stIDAT (set_processedIDAT true
               (set_zw (Some zw0) (set_zr (Some z) q1)))).
  assert (E3 : refill q = (Ok tt, q2)).
  { unfold refill. replace (stage q) with stChunkData by reflexivity.
    unfold handleChunkData.
    replace (chunkType q) with IDAT by reflexivity.
    rewrite bytes_eqb_refl.
    replace (processedIDAT q) with false by (unfold q, p1; rfields; congruence).
    rewrite E2. rfields. rewrite Q2, Hlvl. reflexivity. }
  destruct (rd_run tail (level p) z s1 s2 (set_w [] q2) zw0 outs)
    as (p' & Hrd & Hr' & HD); unfold q2; rfields; auto; try congruence;
    try (apply (rd_inside_ext tail s1 q1); auto; fail).
  exists p'. split; [exact Hrd|]. split; [exact Hr'|].
  intros out res H.
  eapply Drains_ok; [exact Hw|exact He|exact E1|].
  eapply Drains_ok; [reflexivity|exact He|exact E3|].
  unfold q2, p1. rfields. rewrite Q1, Hw. cbn [app]. rewrite !app_nil_r.
  apply HD. exact H.
Qed.

(** [io.Copy] up to the first chunk of a file's run. *)
Lemma rd_before (d13 : bytes) (cs : list Chunk) (extra : bytes) (lvl : Z) :
  length d13 = 13%nat -> nth 10 d13 x00 = x00 -> Forall ancillary cs ->
  exists p,
    ready lvl false p /\ r p = extra
    /\ (forall res,
          Drains p (pngHeader ++ encode {| kind := IHDR; data := d13 |}
                    ++ encodes cs) res ->
          Drains (New (pngHeader ++ encode {| kind := IHDR; data := d13 |}
                       ++ encodes cs ++ extra) lvl) [] res).
Proof.
  intros Hl H10 Hcs.
  destruct (rd_header d13 (encodes cs ++ extra) lvl
              (New (pngHeader ++ encode {| kind := IHDR; data := d13 |}
                    ++ encodes cs ++ extra) lvl) Hl H10)
    as (p1 & Hrd1 & R1 & D1); try reflexivity.
  destruct (rd_pass_list cs extra lvl false p1 Hcs Hrd1 R1)
    as (p2 & Hrd2 & R2 & D2).
  exists p2. split; [exact Hrd2|]. split; [exact R2|].
  intros res HD. apply D1, D2. cbn [app]. rewrite <- !app_assoc. exact HD.
Qed.

(** [io.Copy] up to the end of a file whose run the decoder reads
    exactly; [extra] is what follows the file in the source. *)
Lemma rd_through (f : Png) (extra : bytes) (lvl : Z) (zw0 : zwriter)
      (z : zreader) (s1 s2 : run) (outs : list bytes) :
  wf_png f ->
  NewWriterLevel lvl = inl zw0 ->
  open NewReader (run_of f) = (Ok z, s1) ->
  decode z s1 = ((outs, EOF), s2) -> exact s2 ->
  exists p,
    ready lvl true p /\ r p = extra
    /\ (forall res,
          Drains p (pngHeader ++ encode {| kind := IHDR; data := ihdr f |}
                    ++ encodes (pre f)
                    ++ encodes (map idat (reread zw0 outs))
                    ++ encodes (post f)) res ->
          Drains (New (png_bytes f ++ extra) lvl) [] res).
Proof.
  intros (Hl & H10 & Hpre & Hrun & Hpost) Hlvl Hopen Hdec Hex.
  destruct (rd_before (ihdr f) (pre f)
              (encodes (map idat (idat0 f :: idats f)) ++ encodes (post f) ++ extra)
              lvl Hl H10 Hpre) as (p2 & Hrd2 & R2 & D2).
  replace (png_bytes f ++ extra)
    with (pngHeader ++ encode {| kind := IHDR; data := ihdr f |}
          ++ encodes (pre f)
          ++ encodes (map idat (idat0 f :: idats f)) ++ encodes (post f) ++ extra)
    by (unfold png_bytes; rewrite <- !app_assoc; reflexivity).
  destruct (rd_enter (encodes (post f) ++ extra) (idat0 f) (idats f) lvl p2 zw0 z
              s1 s2 outs Hrd2 R2 Hrun Hlvl Hopen Hdec Hex)
    as (p3 & Hrd3 & R3 & D3).
  destruct (rd_pass_list (post f) extra lvl true p3 Hpost Hrd3 R3)
    as (p4 & Hrd4 & R4 & D4).
  exists p4. split; [exact Hrd4|]. split; [exact R4|].
  intros res HD. apply D2, D3, D4. rewrite <- !app_assoc. exact HD.
Qed.

(** [Repack] on a file whose run the decoder reads exactly. *)
Lemma rd_Repack_exact (f : Png) (lvl : Z) (zw0 : zwriter) (z : zreader)
      (s1 s2 : run) (outs : list bytes) :
  wf_png f ->
  NewWriterLevel lvl = inl zw0 ->
  open NewReader (run_of f) = (Ok z, s1) ->
  decode z s1 = ((outs, EOF), s2) -> exact s2 ->
  exists fuel,
    Repack fuel (png_bytes f) lvl =
      Some (None,
            pngHeader ++ encode {| kind := IHDR; data := ihdr f |}
            ++ encodes (pre f)
            ++ encodes (map idat (reread zw0 outs))
            ++ encodes (post f)).
Proof.
  intros Hwf Hlvl Hopen Hdec Hex.
  destruct (rd_through f [] lvl zw0 z s1 s2 outs Hwf Hlvl Hopen Hdec Hex)
    as (p & Hrd & R & D).
  unfold Repack. apply Copies_Drains. rewrite app_nil_r in D. apply D.
  apply (rd_eof lvl true p _ Hrd R).
Qed.


(** Whatever the decoder does, a call of [handleIDAT] writes at most one
    IDAT chunk and nothing else, and leaves its checksum and its buffer
    reset. *)
Lemma rd_handleIDAT_writes (q : Reader) :
  zbuf q = [] -> zcrc q = 0 ->
  exists ds : list bytes,
    w (snd (handleIDAT q)) = w q ++ encodes (map idat ds)
    /\ zbuf (snd (handleIDAT q)) = [] /\ zcrc (snd (handleIDAT q)) = 0.
Proof.
  intros Hb Hc. unfold handleIDAT.
  assert (Hnone : exists ds : list bytes,
             w q = w q ++ encodes (map idat ds) /\ zbuf q = [] /\ zcrc q = 0).
  { exists []. cbn. rewrite app_nil_r. auto. }
  destruct (zr q) as [z|]; [|exact Hnone].
  destruct (zw q) as [zw0|]; [|exact Hnone].
  destruct (zr_Read z q) as [[[out rerr] z'] p1] eqn:E.
  apply rd_zr_Read_quiet in E.
  destruct E as (Q1 & _ & _ & _ & _ & _ & Q7 & Q8 & _).
  assert (Hemit : forall at_eof,
            exists ds : list bytes,
              w (snd (emit out at_eof zw0 (set_zr (Some z') p1)))
              = w q ++ encodes (map idat ds)
              /\ zbuf (snd (emit out at_eof zw0 (set_zr (Some z') p1))) = []
              /\ zcrc (snd (emit out at_eof zw0 (set_zr (Some z') p1))) = 0).
  { intros at_eof. rewrite rd_emit_spec by (rfields; congruence).
    rfields. rewrite Q1. eexists [_]. cbn [map encodes flat_map].
    rewrite app_nil_r. auto. }
  assert (Hstop : exists ds : list bytes,
             w (set_zr (Some z') p1) = w q ++ encodes (map idat ds)
             /\ zbuf (set_zr (Some z') p1) = []
             /\ zcrc (set_zr (Some z') p1) = 0).
  { exists []. rfields. cbn. rewrite app_nil_r. repeat split; congruence. }
  destruct rerr as [e|]; [|apply Hemit].
  destruct e; try exact Hstop. apply Hemit.
Qed.

End WithCodec.

End ReaderRun.

(** *** Chunks that end the copy *)

Module ReaderErr.
Import Reader ReaderInv ReaderFacts.

Section WithCodec.
Context {codec : Codec}.

Lemma rd_chunkHeader_raw (h4 k rest : bytes) (p : Reader) :
  length h4 = 4%nat -> length k = 4%nat -> r p = h4 ++ k ++ rest ->
  chunkHeader p =
    if Uint32 h4 >? maxChunkLen
    then (Err ErrChunkTooBig,
          set_tmp (overwrite (h4 ++ k) (tmp p)) (set_r rest p))
    else (Ok (Uint32 h4, k),
          set_crc (crc32.Write 0 k)
            (set_w (w p ++ (if bytes_eqb k IDAT then [] else h4 ++ k))
               (set_tmp (overwrite (h4 ++ k) (tmp p)) (set_r rest p)))).
Proof.
  intros Hh Hk Hr. unfold chunkHeader, bind.
  rewrite (rd_readTmp_app 8 (h4 ++ k) rest)
    by (rewrite ?length_app, <- ?app_assoc; auto; lia).
  unfold gets, modify, ret, write, fail. rfields.
  rewrite head4_overwrite, kind_overwrite, head8_overwrite by assumption.
  destruct (Uint32 h4 >? maxChunkLen); [reflexivity|].
  destruct (bytes_eqb k IDAT); cbn [negb]; rfields; [|reflexivity].
  rewrite app_nil_r. destruct p; reflexivity.
Qed.

(** A declared length above 2^31-1 ends the copy. *)
Lemma rd_too_big (h4 k rest : bytes) (lvl : Z) (seen : bool) (p : Reader)
      (out : bytes) :
  ready lvl seen p ->
  length h4 = 4%nat -> length k = 4%nat -> r p = h4 ++ k ++ rest ->
  maxChunkLen < Uint32 h4 ->
  Drains p out (Some ErrChunkTooBig, out).
Proof.
  intros (Hs & Hw & He & _) Hh Hk Hr Hbig.
  eapply Drains_err; [exact Hw|exact He| |discriminate].
  unfold refill. rewrite Hs, (rd_chunkHeader_raw h4 k rest p Hh Hk Hr).
  destruct (Z.gtb_spec (Uint32 h4) maxChunkLen); [reflexivity|lia].
Qed.

(** An IDAT chunk after a run is refused, and nothing of it is read
    beyond its header. *)
Lemma rd_order (h4 rest : bytes) (lvl : Z) (p : Reader) (out : bytes) :
  ready lvl true p ->
  length h4 = 4%nat -> r p = h4 ++ IDAT ++ rest ->
  Uint32 h4 <= maxChunkLen ->
  Drains p out (Some ErrIDATOrder, out).
Proof.
  intros (Hs & Hw & He & Hlv & Hpi & _) Hh Hr Hsmall.
  set (p1 := set_stage stChunkData (set_chunkType IDAT
               (set_chunkLen (Uint32 h4)
                  (set_crc (crc32.Write 0 IDAT)
                     (set_w (w p ++ [])
                        (set_tmp (overwrite (h4 ++ IDAT) (tmp p))
                           (set_r rest p))))))).
  assert (E1 : refill p = (Ok tt, p1)).
  { unfold refill. rewrite Hs, (rd_chunkHeader_raw h4 IDAT rest p Hh eq_refl Hr).
    destruct (Z.gtb_spec (Uint32 h4) maxChunkLen); [lia|].
    rewrite bytes_eqb_refl.
    destruct (Z.gtb_spec (Uint32 h4) maxChunkLen); [lia|]. reflexivity. }
  eapply Drains_ok; [exact Hw|exact He|exact E1|].
  replace (out ++ w p1) with out
    by (unfold p1; rfields; rewrite Hw, app_nil_r; reflexivity).
  eapply Drains_err; [reflexivity|exact He| |discriminate].
  unfold refill, p1. rfields. unfold handleChunkData. rfields.
  rewrite bytes_eqb_refl, Hpi. reflexivity.
Qed.

(** A chunk whose checksum does not match ends the copy, after its header
    and its data went to the sink. *)
Lemma rd_bad_crc (k d c4 rest : bytes) (lvl : Z) (seen : bool) (p : Reader)
      (out : bytes) :
  ready lvl seen p ->
  length k = 4%nat -> k <> IDAT -> len d <= maxChunkLen ->
  length c4 = 4%nat ->
  Uint32 c4 <> crc32.ChecksumIEEE (k ++ d) ->
  r p = PutUint32 (len d) ++ k ++ d ++ c4 ++ rest ->
  Drains p out (Some ErrChecksum, out ++ PutUint32 (len d) ++ k ++ d).
Proof.
  intros (Hs & Hw & He & Hlv & Hpi & Hrn & Hzb & Hzc) Hk Hn Hl Hc Hbad Hr.
  set (hdr := PutUint32 (len d) ++ k).
  set (p1 := set_stage stChunkData (set_chunkType k
               (set_chunkLen (len d)
                  (set_crc (crc32.Write 0 k)
                     (set_w (w p ++ hdr)
                        (set_tmp (overwrite hdr (tmp p))
                           (set_r (d ++ c4 ++ rest) p))))))).
  assert (E1 : refill p = (Ok tt, p1)).
  { unfold refill. rewrite Hs.
    rewrite (rd_chunkHeader p (len d) k _ Hk (conj (len_nonneg _) Hl) Hr).
    rewrite bytes_eqb_neq by exact Hn.
    destruct (Z.gtb_spec (len d) maxChunkLen); [lia|]. reflexivity. }
  destruct (rd_data (length d) d (c4 ++ rest) (crc32.ChecksumIEEE (k ++ d))
              (set_w [] p1))
    as (q' & G1 & G2 & G3 & G4 & G5 & G6 & G7 & G8 & G9 & G10 & G11);
    try (unfold p1; rfields; auto; fail).
  { destruct c4; [discriminate|]. discriminate. }
  { unfold p1. rfields. unfold crc32.ChecksumIEEE. apply Write_app. }
  eapply Drains_ok; [exact Hw|exact He|exact E1|].
  apply G11.
  replace (out ++ PutUint32 (len d) ++ k ++ d) with ((out ++ w p1) ++ d)
    by (unfold p1, hdr; rfields; rewrite Hw; cbn [app];
        rewrite <- !app_assoc; reflexivity).
  eapply Drains_err; [exact G4|exact G5| |discriminate].
  unfold refill. rewrite G1. unfold verifyCrc, bind, gets, fail.
  rewrite (rd_readTmp_app 4 c4 rest q' Hc G2). rfields.
  rewrite head4_overwrite' by exact Hc.
  unfold crc32.Sum32. rewrite G3.
  destruct (Z.eqb_spec (Uint32 c4) (crc32.ChecksumIEEE (k ++ d)));
    [contradiction|]. reflexivity.
Qed.

End WithCodec.

End ReaderErr.

(* ================================================================== *)
(** ** Violations in the header chunk *)

Module HeaderFacts.

Lemma nth_overwrite (n : nat) (d t : bytes) :
  (n < length d)%nat -> nth n (overwrite d t) x00 = nth n d x00.
Proof. intros H. unfold overwrite. apply app_nth1. exact H. Qed.

Lemma split13 (l : bytes) :
  (13 <= length l)%nat ->
  l = firstn 13 l ++ skipn 13 l /\ length (firstn 13 l) = 13%nat.
Proof.
  intros H. split; [symmetry; apply firstn_skipn|].
  apply firstn_length_le. exact H.
Qed.

Section WithCodec.
Context {codec : Codec}.

(** [Repacker.header] returns the first violation of the first chunk, and
    has read nothing beyond that chunk's data. *)
Lemma header_violation_repack (h4 k rest : bytes) (lvl : Z) (e : error) :
  length h4 = 4%nat -> length k = 4%nat -> Uint32 h4 <= maxChunkLen ->
  (k = IHDR -> Uint32 h4 = 13 -> (13 <= length rest)%nat) ->
  header_violation k (Uint32 h4) (firstn 13 rest) = Some e ->
  exists p',
    Repacker.repack (Repacker.init (pngHeader ++ h4 ++ k ++ rest) lvl)
    = (Some e, p')
    /\ Repacker.haveIDAT p' = false
    /\ (length rest <= length (Repacker.r p') + 13)%nat
    /\ (Repacker.w p' = pngHeader \/ Repacker.w p' = pngHeader ++ h4 ++ k).
Proof.
  intros Hh Hk Hsmall Hlen Hv.
  unfold Repacker.repack, Repacker.header, bind, gets, Repacker.write, modify, fail.
  rewrite (RepackerFacts.readTmp_app 8 pngHeader (h4 ++ k ++ rest))
    by reflexivity.
  RepackerFacts.fields.
  change (firstn 8 (overwrite pngHeader (repeat x00 13))) with pngHeader.
  rewrite bytes_eqb_refl. cbn [negb].
  rewrite (RepackerErr.chunk_raw h4 k rest) by (assumption || reflexivity).
  destruct (Z.gtb_spec (Uint32 h4) maxChunkLen); [lia|].
  unfold header_violation in Hv.
  destruct (bytes_eqb k IHDR) eqn:Ek; cbn [negb] in Hv |- *.
  2:{ inversion Hv; subst. eexists. split; [reflexivity|].
      RepackerFacts.fields. repeat split; auto. lia. }
  destruct (Z.eqb_spec (Uint32 h4) 13) as [En|En]; cbn [negb] in Hv |- *.
  2:{ inversion Hv; subst. eexists. split; [reflexivity|].
      RepackerFacts.fields. repeat split; auto. lia. }
  RepackerFacts.fields.
  apply bytes_eqb_eq in Ek.
  destruct (split13 rest (Hlen Ek En)) as [Hsp Hl13].
  rewrite (RepackerFacts.readTmp_app 13 (firstn 13 rest) (skipn 13 rest))
    by (RepackerFacts.fields; auto).
  RepackerFacts.fields.
  rewrite nth_overwrite by lia.
  destruct (negb (Byte.eqb (nth 10 (firstn 13 rest) x00) x00)); [|discriminate].
  inversion Hv; subst. eexists. split; [reflexivity|].
  RepackerFacts.fields. rewrite head8_overwrite by assumption.
  repeat split; auto.
  rewrite Hsp at 1. rewrite length_app, Hl13. lia.
Qed.

(** [Reader.verifyHeader] returns it too, in the first call of [refill],
    so that nothing goes to the sink. *)
Lemma header_violation_reader (h4 k rest : bytes) (lvl : Z) (e : error) :
  length h4 = 4%nat -> length k = 4%nat -> Uint32 h4 <= maxChunkLen ->
  (k = IHDR -> Uint32 h4 = 13 -> (13 <= length rest)%nat) ->
  header_violation k (Uint32 h4) (firstn 13 rest) = Some e ->
  ReaderInv.Drains (Reader.New (pngHeader ++ h4 ++ k ++ rest) lvl) []
    (Some e, []).
Proof.
  intros Hh Hk Hsmall Hlen Hv.
  assert (Hne : e <> EOF).
  { unfold header_violation in Hv.
    repeat match type of Hv with
           | context [if ?c then _ else _] => destruct c
           end; inversion Hv; discriminate. }
  assert (E : exists p1,
             Reader.refill (Reader.New (pngHeader ++ h4 ++ k ++ rest) lvl)
             = (Err e, p1)).
  { unfold Reader.refill, Reader.New. ReaderFacts.rfields.
    unfold Reader.verifyHeader, bind, gets, Reader.write, modify, fail.
    rewrite (ReaderFacts.rd_readTmp_app 8 pngHeader (h4 ++ k ++ rest))
      by reflexivity.
    ReaderFacts.rfields.
    change (firstn 8 (overwrite pngHeader (repeat x00 13))) with pngHeader.
    rewrite bytes_eqb_refl. cbn [negb].
    rewrite (ReaderErr.rd_chunkHeader_raw h4 k rest)
      by (assumption || reflexivity).
    destruct (Z.gtb_spec (Uint32 h4) maxChunkLen); [lia|].
    unfold header_violation in Hv.
    destruct (bytes_eqb k IHDR) eqn:Ek; cbn [negb] in Hv |- *.
    2:{ inversion Hv; subst. eexists. reflexivity. }
    destruct (Z.eqb_spec (Uint32 h4) 13) as [En|En]; cbn [negb] in Hv |- *.
    2:{ inversion Hv; subst. eexists. reflexivity. }
    ReaderFacts.rfields.
    apply bytes_eqb_eq in Ek.
    destruct (split13 rest (Hlen Ek En)) as [Hsp Hl13].
    rewrite (ReaderFacts.rd_readTmp_app 13 (firstn 13 rest) (skipn 13 rest))
      by (ReaderFacts.rfields; auto).
    ReaderFacts.rfields.
    rewrite nth_overwrite by lia.
    destruct (negb (Byte.eqb (nth 10 (firstn 13 rest) x00) x00)); [|discriminate].
    inversion Hv; subst. eexists. reflexivity. }
  destruct E as (p1 & E).
  apply (ReaderInv.Drains_err (Reader.New (pngHeader ++ h4 ++ k ++ rest) lvl)
           p1 [] e eq_refl eq_refl E Hne).
Qed.

End WithCodec.

End HeaderFacts.

(* ================================================================== *)
(** ** Reading chunks back *)

Module ParseFacts.

(** A chunk in wire format reads back as itself: the length field is the
    length of the data, and the checksum field is the checksum of type and
    data. *)
Lemma parse_encode (fuel : nat) (c : Chunk) (rest : bytes) :
  length (kind c) = 4%nat -> len (data c) < 2 ^ 32 ->
  parse_chunks (S fuel) (encode c ++ rest) =
    match parse_chunks fuel rest with
    | Some cs => Some (c :: cs)
    | None => None
    end.
Proof.
  destruct c as [k d]. cbn [kind data]. intros Hk Hd.
  pose proof (len_nonneg d) as Hd0.
  unfold encode. cbn [kind data].
  set (c4 := PutUint32 (crc32.ChecksumIEEE (k ++ d))).
  assert (Hb : (PutUint32 (len d) ++ k ++ d ++ c4) ++ rest
               = PutUint32 (len d) ++ k ++ d ++ c4 ++ rest).
  { rewrite <- !app_assoc. reflexivity. }
  rewrite Hb.
  assert (H4 : firstn 4 (PutUint32 (len d) ++ k ++ d ++ c4 ++ rest)
               = PutUint32 (len d)).
  { rewrite firstn_app, PutUint32_length. cbn [Nat.sub firstn].
    rewrite app_nil_r. reflexivity. }
  assert (S4 : skipn 4 (PutUint32 (len d) ++ k ++ d ++ c4 ++ rest)
               = k ++ d ++ c4 ++ rest).
  { rewrite skipn_app, PutUint32_length. reflexivity. }
  assert (S8 : skipn 8 (PutUint32 (len d) ++ k ++ d ++ c4 ++ rest)
               = d ++ c4 ++ rest).
  { change 8%nat with (4 + 4)%nat. rewrite <- skipn_skipn, S4.
    destruct k as [|k0 [|k1 [|k2 [|k3 [|]]]]]; try discriminate Hk.
    reflexivity. }
  assert (K4 : firstn 4 (k ++ d ++ c4 ++ rest) = k).
  { destruct k as [|k0 [|k1 [|k2 [|k3 [|]]]]]; try discriminate Hk.
    reflexivity. }
  assert (Eb : exists b0 bs,
             PutUint32 (len d) ++ k ++ d ++ c4 ++ rest = b0 :: bs).
  { unfold PutUint32 at 1. eexists. eexists. reflexivity. }
  destruct Eb as (b0 & bs & Eb).
  rewrite Eb. cbn [parse_chunks]. rewrite <- Eb. rewrite H4, S4, S8, K4.
  rewrite (Uint32_PutUint32 (len d)) by lia.
  rewrite take_app_len, drop_app_len.
  assert (L12 : (length (PutUint32 (len d) ++ k ++ d ++ c4 ++ rest) <? 12)%nat
                = false).
  { apply Nat.ltb_ge. rewrite !length_app, PutUint32_length, Hk.
    unfold c4. rewrite PutUint32_length. lia. }
  assert (L4 : (length (c4 ++ rest) <? 4)%nat = false).
  { apply Nat.ltb_ge. rewrite length_app. unfold c4.
    rewrite PutUint32_length. lia. }
  rewrite L12, L4, Z.ltb_irrefl. cbn [orb].
  assert (F4 : firstn 4 (c4 ++ rest) = c4).
  { rewrite firstn_app. unfold c4 at 1 2. rewrite PutUint32_length.
    cbn [Nat.sub firstn]. rewrite app_nil_r. reflexivity. }
  assert (T4 : skipn 4 (c4 ++ rest) = rest).
  { rewrite skipn_app. unfold c4 at 1 2. rewrite PutUint32_length.
    reflexivity. }
  rewrite F4, T4. unfold c4.
  rewrite Uint32_PutUint32 by (apply Checksum_u32).
  rewrite Z.eqb_refl. reflexivity.
Qed.

(** So does a sequence of chunks. *)
Lemma parse_encodes (cs : list Chunk) :
  Forall (fun c => length (kind c) = 4%nat /\ len (data c) < 2 ^ 32) cs ->
  parse_chunks (length cs) (encodes cs) = Some cs.
Proof.
  induction 1 as [|c cs [Hk Hd] _ IH]; [reflexivity|].
  rewrite RepackerRun.encodes_cons. cbn [length].
  rewrite (parse_encode (length cs) c (encodes cs) Hk Hd), IH. reflexivity.
Qed.

(** The IDAT chunks the transcoders write read back as such. *)
Lemma parse_idats (ds : list bytes) :
  Forall (fun d => len d < 2 ^ 32) ds ->
  parse_chunks (length ds) (encodes (map idat ds)) = Some (map idat ds).
Proof.
  intros H. rewrite <- (length_map idat ds). apply parse_encodes.
  induction H as [|d ds Hd _ IH]; cbn [map]; constructor; auto.
Qed.

(** More fuel reads the same chunks. *)
Lemma parse_chunks_fuel (f f' : nat) (b : bytes) (cs : list Chunk) :
  (f <= f')%nat -> parse_chunks f b = Some cs -> parse_chunks f' b = Some cs.
Proof.
  revert f' b cs. induction f as [|f IH]; intros f' b cs Hle E.
  - destruct b; [|discriminate E]. destruct f'; exact E.
  - destruct f' as [|f']; [lia|].
    destruct b as [|b0 b]; [exact E|].
    cbn [parse_chunks] in E |- *.
    destruct (_ || _ || _); [discriminate E|].
    destruct (_ =? _); [|discriminate E].
    destruct (parse_chunks f _) as [cs'|] eqn:E'; [|discriminate E].
    rewrite (IH f' _ cs') by (lia || exact E'). exact E.
Qed.

(** A chunk takes at least twelve bytes. *)
Lemma encodes_length (cs : list Chunk) :
  Forall (fun c => length (kind c) = 4%nat) cs ->
  (length cs <= length (encodes cs))%nat.
Proof.
  induction 1 as [|c cs Hk _ IH]; [cbn; lia|].
  rewrite RepackerRun.encodes_cons, length_app. unfold encode.
  rewrite !length_app, !PutUint32_length, Hk. cbn [length]. lia.
Qed.

(** A signature followed by chunks reads back as these chunks. *)
Lemma parse_png_encodes (cs : list Chunk) :
  Forall (fun c => length (kind c) = 4%nat /\ len (data c) < 2 ^ 32) cs ->
  parse_png (pngHeader ++ encodes cs) = Some cs.
Proof.
  intros H. unfold parse_png.
  change (firstn 8 (pngHeader ++ encodes cs)) with pngHeader.
  change (skipn 8 (pngHeader ++ encodes cs)) with (encodes cs).
  rewrite bytes_eqb_refl.
  apply (parse_chunks_fuel (length cs)); [|apply parse_encodes; exact H].
  rewrite length_app.
  assert (Hk : Forall (fun c => length (kind c) = 4%nat) cs).
  { eapply Forall_impl; [|exact H]. intros c [Hc _]. exact Hc. }
  pose proof (encodes_length cs Hk). lia.
Qed.

Lemma rebuilt_chunks (f : Png) (ds : list bytes) :
  rebuilt f ds = pngHeader ++ encodes (chunks_of f ds).
Proof.
  unfold rebuilt, chunks_of.
  rewrite RepackerRun.encodes_cons, !RepackerFacts.encodes_app. reflexivity.
Qed.

Lemma idat_stream_app (a b : list Chunk) :
  idat_stream (a ++ b) = idat_stream a ++ idat_stream b.
Proof. unfold idat_stream. rewrite filter_app, flat_map_app. reflexivity. Qed.

Lemma idat_stream_ancillary (cs : list Chunk) :
  Forall ancillary cs -> idat_stream cs = [].
Proof.
  induction 1 as [|c cs [_ Hn] _ IH]; [reflexivity|].
  unfold idat_stream in *. cbn [filter]. unfold is_IDAT at 1.
  rewrite (bytes_eqb_neq _ _ Hn). exact IH.
Qed.

Lemma idat_stream_idats (ds : list bytes) :
  idat_stream (map idat ds) = concat ds.
Proof.
  induction ds as [|d ds IH]; [reflexivity|].
  unfold idat_stream in *. cbn [map filter]. unfold is_IDAT at 1.
  cbn [idat kind]. rewrite bytes_eqb_refl. cbn [flat_map data concat].
  rewrite IH. reflexivity.
Qed.

(** The output for a well-formed file reads back as its chunks, and its
    compressed stream is the data of the IDAT chunks written. *)
Lemma parse_rebuilt (f : Png) (ds : list bytes) :
  wf_png f -> Forall (fun d => len d < 2 ^ 32) ds ->
  parse_png (rebuilt f ds) = Some (chunks_of f ds)
  /\ idat_stream (chunks_of f ds) = concat ds.
Proof.
  intros (Hl & _ & Hpre & _ & Hpost) Hds.
  assert (Hanc : forall cs, Forall ancillary cs ->
            Forall (fun c => length (kind c) = 4%nat /\ len (data c) < 2 ^ 32) cs).
  { intros cs H. eapply Forall_impl; [|exact H].
    intros c [[Hk Hd] _]. split; [exact Hk|].
    unfold maxChunkLen in Hd. lia. }
  split.
  - rewrite rebuilt_chunks. apply parse_png_encodes. unfold chunks_of.
    constructor.
    + cbn [kind data]. split; [reflexivity|]. unfold len. rewrite Hl. reflexivity.
    + rewrite !Forall_app. split; [apply Hanc; exact Hpre|].
      split; [|apply Hanc; exact Hpost].
      induction Hds as [|d ds' Hd _ IH]; cbn [map]; constructor; auto.
  - unfold chunks_of.
    change ({| kind := IHDR; data := ihdr f |} :: pre f ++ map idat ds ++ post f)
      with ([{| kind := IHDR; data := ihdr f |}] ++ pre f ++ map idat ds ++ post f).
    rewrite !idat_stream_app, idat_stream_idats.
    rewrite (idat_stream_ancillary (pre f) Hpre).
    rewrite (idat_stream_ancillary (post f) Hpost).
    rewrite app_nil_r. reflexivity.
Qed.

End ParseFacts.

(* ================================================================== *)
(** ** Inputs that are not a PNG file, or stop early *)

Module EdgeFacts.

Lemma firstn8_overwrite (a t : bytes) :
  length a = 8%nat -> firstn 8 (overwrite a t) = a.
Proof. intros <-. apply firstn_overwrite. Qed.

Lemma ReadFull_short (n : nat) (src : bytes) :
  (length src < n)%nat ->
  ReadFull n src
  = match src with
    | [] => ([], Some EOF, [])
    | _ => (src, Some ErrUnexpectedEOF, [])
    end.
Proof.
  intros H. unfold ReadFull.
  destruct (Nat.leb_spec n (length src)); [lia|reflexivity].
Qed.

Section WithCodec.
Context {codec : Codec}.

Lemma header_not_png (sig8 rest : bytes) (p : Repacker.repacker) :
  length sig8 = 8%nat -> sig8 <> pngHeader -> Repacker.r p = sig8 ++ rest ->
  exists p',
    Repacker.header p = (Err ErrNotPNG, p')
    /\ Repacker.w p' = Repacker.w p /\ Repacker.r p' = rest.
Proof.
  intros Hl Hne Hr. unfold Repacker.header, bind, gets, fail.
  rewrite (RepackerFacts.readTmp_app 8 sig8 rest p Hl Hr).
  RepackerFacts.fields.
  rewrite (firstn8_overwrite sig8 _ Hl), (bytes_eqb_neq _ _ Hne). cbn [negb].
  eexists. split; [reflexivity|]. RepackerFacts.fields. auto.
Qed.

Lemma header_short (p : Repacker.repacker) :
  (length (Repacker.r p) < 8)%nat ->
  exists p',
    Repacker.header p = (Err (short_error (Repacker.r p)), p')
    /\ Repacker.w p' = Repacker.w p /\ Repacker.r p' = [].
Proof.
  intros Hl. unfold Repacker.header, bind, Repacker.readTmp.
  rewrite (ReadFull_short 8 (Repacker.r p) Hl).
  destruct (Repacker.r p); cbn [short_error];
    (eexists; split; [reflexivity|]; RepackerFacts.fields; auto).
Qed.

Lemma refill_not_png (sig8 rest : bytes) (lvl : Z) :
  length sig8 = 8%nat -> sig8 <> pngHeader ->
  exists p',
    Reader.refill (Reader.New (sig8 ++ rest) lvl) = (Err ErrNotPNG, p').
Proof.
  intros Hl Hne. unfold Reader.refill, Reader.New. ReaderFacts.rfields.
  unfold Reader.verifyHeader, bind, gets, fail.
  rewrite (ReaderFacts.rd_readTmp_app 8 sig8 rest) by (auto; reflexivity).
  ReaderFacts.rfields.
  rewrite (firstn8_overwrite sig8 _ Hl), (bytes_eqb_neq _ _ Hne). cbn [negb].
  eexists. reflexivity.
Qed.

Lemma refill_short (input : bytes) (lvl : Z) :
  (length input < 8)%nat ->
  exists p',
    Reader.refill (Reader.New input lvl) = (Err (short_error input), p')
    /\ Reader.w p' = [].
Proof.
  intros Hl. unfold Reader.refill, Reader.New. ReaderFacts.rfields.
  unfold Reader.verifyHeader, bind, Reader.readTmp. ReaderFacts.rfields.
  rewrite (ReadFull_short 8 input Hl).
  destruct input; cbn [short_error]; (eexists; split; reflexivity).
Qed.

(** The header chunk with a CRC field that is not its checksum: the earlier
    revision has written the signature, the chunk's header and its data
    when it finds out. *)
Lemma header_bad_crc (d13 c4 rest : bytes) (p : Repacker.repacker) :
  length d13 = 13%nat -> nth 10 d13 x00 = x00 -> length c4 = 4%nat ->
  Uint32 c4 <> crc32.ChecksumIEEE (IHDR ++ d13) ->
  Repacker.r p = pngHeader ++ PutUint32 13 ++ IHDR ++ d13 ++ c4 ++ rest ->
  exists p',
    Repacker.header p = (Err ErrChecksum, p')
    /\ Repacker.r p' = rest
    /\ Repacker.w p' = Repacker.w p ++ pngHeader ++ PutUint32 13 ++ IHDR ++ d13.
Proof.
  intros Hl H10 Hc Hbad Hr.
  unfold Repacker.header, bind, gets, Repacker.write, modify.
  rewrite (RepackerFacts.readTmp_app 8 pngHeader _ p eq_refl Hr).
  RepackerFacts.fields.
  rewrite (firstn8_overwrite pngHeader _ eq_refl), bytes_eqb_refl. cbn [negb].
  rewrite (RepackerFacts.chunk_header _ 13 IHDR (d13 ++ c4 ++ rest));
    [|reflexivity|unfold maxChunkLen; lia|RepackerFacts.fields; reflexivity].
  rewrite bytes_eqb_refl. cbn [negb Z.eqb Pos.eqb]. RepackerFacts.fields.
  rewrite (RepackerFacts.readTmp_app 13 d13 (c4 ++ rest))
    by (RepackerFacts.fields; auto).
  RepackerFacts.fields.
  match goal with |- context [nth 10 (overwrite d13 ?t) x00] =>
    assert (Hn : nth 10 (overwrite d13 t) x00 = x00)
      by (unfold overwrite at 1; rewrite app_nth1 by lia; exact H10);
    assert (Hd : firstn 13 (overwrite d13 t) = d13)
      by (rewrite <- Hl; apply firstn_overwrite);
    rewrite Hn, Hd
  end.
  rewrite Byte.byte_dec_lb by reflexivity. cbn [negb].
  rewrite (RepackerFacts.verifyCrc_bad c4 rest);
    [|RepackerFacts.fields; reflexivity|exact Hc
     |RepackerFacts.fields; rewrite Write_app; exact Hbad].
  eexists. split; [reflexivity|]. RepackerFacts.fields.
  rewrite head8_overwrite by reflexivity.
  rewrite <- !app_assoc. auto.
Qed.

(** The later revision finds out in its first round, and nothing has gone
    to the sink. *)
Lemma refill_bad_crc (d13 c4 rest : bytes) (lvl : Z) :
  length d13 = 13%nat -> nth 10 d13 x00 = x00 -> length c4 = 4%nat ->
  Uint32 c4 <> crc32.ChecksumIEEE (IHDR ++ d13) ->
  exists p',
    Reader.refill
      (Reader.New (pngHeader ++ PutUint32 13 ++ IHDR ++ d13 ++ c4 ++ rest) lvl)
    = (Err ErrChecksum, p').
Proof.
  intros Hl H10 Hc Hbad. unfold Reader.refill, Reader.New. ReaderFacts.rfields.
  unfold Reader.verifyHeader, bind, gets, Reader.write, modify.
  rewrite (ReaderFacts.rd_readTmp_app 8 pngHeader
             (PutUint32 13 ++ IHDR ++ d13 ++ c4 ++ rest)) by reflexivity.
  ReaderFacts.rfields.
  rewrite (firstn8_overwrite pngHeader _ eq_refl), bytes_eqb_refl. cbn [negb].
  rewrite (ReaderFacts.rd_chunkHeader _ 13 IHDR (d13 ++ c4 ++ rest));
    [|reflexivity|unfold maxChunkLen; lia|ReaderFacts.rfields; reflexivity].
  rewrite bytes_eqb_refl. cbn [negb Z.eqb Pos.eqb]. ReaderFacts.rfields.
  rewrite (ReaderFacts.rd_readTmp_app 13 d13 (c4 ++ rest))
    by (ReaderFacts.rfields; auto).
  ReaderFacts.rfields.
  match goal with |- context [nth 10 (overwrite d13 ?t) x00] =>
    assert (Hn : nth 10 (overwrite d13 t) x00 = x00)
      by (unfold overwrite at 1; rewrite app_nth1 by lia; exact H10);
    assert (Hd : firstn 13 (overwrite d13 t) = d13)
      by (rewrite <- Hl; apply firstn_overwrite);
    rewrite Hn, Hd
  end.
  rewrite Byte.byte_dec_lb by reflexivity. cbn [negb].
  unfold Reader.verifyCrc, bind, gets, fail.
  rewrite (ReaderFacts.rd_readTmp_app 4 c4 rest) by (ReaderFacts.rfields; auto).
  ReaderFacts.rfields. rewrite (head4_overwrite' c4 _ Hc).
  unfold crc32.Sum32. rewrite Write_app.
  change (crc32.Write 0 (IHDR ++ d13)) with (crc32.ChecksumIEEE (IHDR ++ d13)).
  rewrite (proj2 (Z.eqb_neq _ _) Hbad). cbn [negb].
  eexists. reflexivity.
Qed.

End WithCodec.

End EdgeFacts.

(* ================================================================== *)
(** ** A run that cannot be entered *)

Module RunFail.

Section WithCodec.
Context {codec : Codec}.

(** The earlier revision at the first IDAT chunk of a run: [zlib.NewReader]
    reads the head of the stream through [Read], and [handleIDAT] returns
    its error, or else that of [zlib.NewWriterLevel]. *)
Lemma repackChunk_open (tail d0 : bytes) (ds : list bytes)
      (p : Repacker.repacker) (x : res zreader) (s1 : Run.run) :
  Repacker.r p = encodes (map idat (d0 :: ds)) ++ tail ->
  Repacker.haveIDAT p = false -> Repacker.haveLastChunk p = false ->
  Forall (fun d => len d <= maxChunkLen) (d0 :: ds) ->
  Run.open NewReader {| Run.cur := d0; Run.next := ds; Run.polled := false |}
  = (x, s1) ->
  Run.polled s1 = false ->
  exists p1,
    Repacker.w p1 = Repacker.w p
    /\ (forall e,
          x = Err e \/ (exists z, x = Ok z
                                  /\ NewWriterLevel (Repacker.level p) = inr e) ->
          Repacker.repackChunk p = (Some (Some e), p1)).
Proof.
  intros Hr Hhi Hhl Hlen Hopen Hp1.
  inversion Hlen as [|? ? Hd0 Hds]; subst.
  cbn [map] in Hr. rewrite RepackerRun.encodes_cons in Hr.
  unfold encode at 1 in Hr. cbn [kind data idat] in Hr.
  rewrite <- !app_assoc in Hr.
  unfold Repacker.repackChunk.
  rewrite (RepackerFacts.chunk_header p (len d0) IDAT _ eq_refl
             (conj (len_nonneg d0) Hd0) Hr).
  rewrite bytes_eqb_refl. RepackerFacts.fields. rewrite Hhi.
  unfold Repacker.handleIDAT, bind, modify, gets, fail.
  match goal with
  | |- context [Repacker.newReader NewReader ?q0] => set (q := q0)
  end.
  assert (Hin : RepackerInv.inside tail
                  {| Run.cur := d0; Run.next := ds; Run.polled := false |} q).
  { exists []. unfold q. RepackerFacts.fields. cbn [Run.cur Run.next Run.polled app].
    pose proof (maxChunkLen_u32 (len d0) (conj (len_nonneg d0) Hd0)).
    repeat split; auto.
    apply uint32_small. assumption. }
  destruct (RepackerRun.newReader_inside tail NewReader _ s1 q x Hin Hopen Hp1)
    as (p1 & E1 & Hin1).
  rewrite E1.
  pose proof E1 as Q1. apply RepackerFacts.newReader_quiet in Q1.
  destruct Q1 as (Qw & Ql & Qh & _).
  exists p1. split; [rewrite Qw; reflexivity|].
  intros e [->|(z & -> & Hlvl)]; [reflexivity|].
  replace (Repacker.level p1) with (Repacker.level p)
    by (rewrite Ql; reflexivity).
  rewrite Hlvl. reflexivity.
Qed.

(** The later revision there: the round of [refill] that reads the header
    of the chunk writes nothing, and the next one returns the error. *)
Lemma rd_open (tail d0 : bytes) (ds : list bytes) (lvl : Z)
      (p : Reader.Reader) (x : res zreader) (s1 : Run.run) (e : error)
      (out : bytes) :
  ReaderInv.ready lvl false p ->
  Reader.r p = encodes (map idat (d0 :: ds)) ++ tail ->
  Forall (fun d => len d <= maxChunkLen) (d0 :: ds) ->
  Run.open NewReader {| Run.cur := d0; Run.next := ds; Run.polled := false |}
  = (x, s1) ->
  Run.polled s1 = false ->
  e <> EOF ->
  x = Err e \/ (exists z, x = Ok z /\ NewWriterLevel lvl = inr e) ->
  ReaderInv.Drains p out (Some e, out).
Proof.
  intros (Hs & Hw & He & Hlv & Hpi & Hrn & Hzb & Hzc) Hr Hlen Hopen Hp1 Hne Hx.
  inversion Hlen as [|? ? Hd0 Hds]; subst.
  cbn [map] in Hr.
  change (encodes (idat d0 :: map idat ds))
    with (encode (idat d0) ++ encodes (map idat ds)) in Hr.
  unfold encode at 1 in Hr. cbn [kind data idat] in Hr.
  rewrite <- !app_assoc in Hr.
  set (rest := d0 ++ PutUint32 (crc32.ChecksumIEEE (IDAT ++ d0))
               ++ encodes (map idat ds) ++ tail) in *.
  set (p1 := Reader.set_stage Reader.stChunkData (Reader.set_chunkType IDAT
               (Reader.set_chunkLen (len d0)
                  (Reader.set_crc (crc32.Write 0 IDAT)
                     (Reader.set_w (Reader.w p ++ [])
                        (Reader.set_tmp
                           (overwrite (PutUint32 (len d0) ++ IDAT) (Reader.tmp p))
                           (Reader.set_r rest p))))))).
  assert (E1 : Reader.refill p = (Ok tt, p1)).
  { unfold Reader.refill. rewrite Hs.
    rewrite (ReaderFacts.rd_chunkHeader p (len d0) IDAT rest eq_refl
               (conj (len_nonneg _) Hd0) Hr).
    rewrite bytes_eqb_refl.
    destruct (Z.gtb_spec (len d0) maxChunkLen); [lia|]. reflexivity. }
  set (q := Reader.set_w [] p1).
  assert (Hin : ReaderInv.inside tail
                  {| Run.cur := d0; Run.next := ds; Run.polled := false |} q).
  { exists []. unfold q, p1. ReaderFacts.rfields.
    cbn [Run.cur Run.next Run.polled app]. repeat split; auto. }
  destruct (ReaderRun.rd_newReader_inside tail NewReader _ s1 q x Hin Hopen Hp1)
    as (q1 & E2 & Hin1).
  pose proof E2 as Q. apply ReaderRun.rd_newReader_quiet in Q.
  destruct Q as (Q1 & Q2 & _).
  assert (E3 : exists q2, Reader.refill q = (Err e, q2)).
  { unfold Reader.refill.
    replace (Reader.stage q) with Reader.stChunkData by reflexivity.
    unfold Reader.handleChunkData.
    replace (Reader.chunkType q) with IDAT by reflexivity.
    rewrite bytes_eqb_refl.
    replace (Reader.processedIDAT q) with false
      by (unfold q, p1; ReaderFacts.rfields; congruence).
    rewrite E2.
    destruct Hx as [->|(z & -> & Hlvl)].
    - eexists. reflexivity.
    - ReaderFacts.rfields. rewrite Q2. unfold q, p1. ReaderFacts.rfields.
      rewrite Hlvl. eexists. reflexivity. }
  destruct E3 as (q2 & E3).
  eapply ReaderInv.Drains_ok; [exact Hw|exact He|exact E1|].
  replace (out ++ Reader.w p1) with out
    by (unfold p1; ReaderFacts.rfields; rewrite Hw, app_nil_r; reflexivity).
  apply (ReaderInv.Drains_err (Reader.set_w [] p1) q2 out e eq_refl He E3 Hne).
Qed.

End WithCodec.

End RunFail.

(* ================================================================== *)
(** ** The loops of the merger *)

Module LoopFacts.

Lemma rd_readTmp_ok {codec : Codec} (n : nat) (p p' : Reader.Reader) :
  Reader.readTmp n p = (Ok tt, p') ->
  exists b rest,
    Reader.r p = b ++ rest /\ length b = n
    /\ p' = Reader.set_tmp (overwrite b (Reader.tmp p)) (Reader.set_r rest p).
Proof.
  unfold Reader.readTmp.
  destruct (ReadFull n (Reader.r p)) as [[b e] rest] eqn:E.
  destruct e; intros H; inversion H; subst.
  apply ReadFull_ok in E. destruct E as [E1 E2]. eauto.
Qed.

(** A round of the loop of [Read] that does not return has read the
    checksum of a chunk and the header of the next one. *)
Lemma nextChunk_progress (p p' : Repacker.repacker) :
  Repacker.nextChunk p = (None, p') ->
  (length (Repacker.r p') + 12 <= length (Repacker.r p))%nat.
Proof.
  unfold Repacker.nextChunk. intros E.
  destruct (Repacker.readTmp 4 p) as [[[]|e] p1] eqn:E1; [|discriminate E].
  destruct (negb _); [discriminate E|].
  destruct (Repacker.readTmp 8 p1) as [[[]|e] p2] eqn:E2; [|discriminate E].
  apply RepackerFacts.readTmp_ok in E1. destruct E1 as (b1 & r1 & H1 & L1 & ->).
  apply RepackerFacts.readTmp_ok in E2. destruct E2 as (b2 & r2 & H2 & L2 & ->).
  RepackerFacts.fields.
  destruct (negb _); inversion E; subst; RepackerFacts.fields.
  rewrite H1, ?H2, !length_app. lia.
Qed.

Lemma skipChunks_fuel (f1 f2 : nat) (p : Repacker.repacker) :
  (length (Repacker.r p) <= f1)%nat -> (length (Repacker.r p) <= f2)%nat ->
  Repacker.skipChunks f1 p = Repacker.skipChunks f2 p.
Proof.
  revert f2 p. induction f1 as [|f1 IH]; intros f2 p H1 H2;
    destruct f2 as [|f2]; cbn [Repacker.skipChunks];
    destruct (Repacker.idatLength p =? 0); try reflexivity;
    destruct (Repacker.nextChunk p) as [[ret|] p'] eqn:E; try reflexivity;
    apply nextChunk_progress in E; try lia.
  apply IH; lia.
Qed.

(** [Read] at the end of the data of an IDAT chunk, when the checksum that
    follows is not the one accumulated. *)
Lemma Read_bad_checksum (n : Z) (c4 rest : bytes) (p : Repacker.repacker) :
  n <> 0 -> length c4 = 4%nat -> Repacker.idatLength p = 0 ->
  Repacker.r p = c4 ++ rest -> Uint32 c4 <> Repacker.crc p ->
  Repacker.Read n p
  = (([], Some ErrIDATChecksum),
     Repacker.set_tmp (overwrite c4 (Repacker.tmp p)) (Repacker.set_r rest p)).
Proof.
  intros Hn Hc Hi Hr Hbad. unfold Repacker.Read.
  rewrite (proj2 (Z.eqb_neq n 0) Hn).
  assert (E : Repacker.nextChunk p
              = (Some ([], Some ErrIDATChecksum),
                 Repacker.set_tmp (overwrite c4 (Repacker.tmp p))
                   (Repacker.set_r rest p))).
  { unfold Repacker.nextChunk.
    rewrite (RepackerFacts.readTmp_app 4 c4 rest p Hc Hr).
    RepackerFacts.fields. rewrite (head4_overwrite' c4 _ Hc).
    unfold crc32.Sum32. rewrite (proj2 (Z.eqb_neq _ _) Hbad). reflexivity. }
  destruct (length (Repacker.r p)); cbn [Repacker.skipChunks];
    rewrite Hi, E; reflexivity.
Qed.

(** [Read] at the end of the data of an IDAT chunk that is followed by an
    IDAT chunk declaring more than 2^31-1 bytes. *)
Lemma Read_IDAT_too_big (n : Z) (c4 h4 rest : bytes) (p : Repacker.repacker) :
  n <> 0 -> length c4 = 4%nat -> length h4 = 4%nat ->
  Repacker.idatLength p = 0 ->
  Repacker.r p = c4 ++ h4 ++ IDAT ++ rest -> Uint32 c4 = Repacker.crc p ->
  maxChunkLen < Uint32 h4 ->
  exists p',
    Repacker.Read n p = (([], Some ErrIDATTooBig), p')
    /\ Repacker.r p' = rest /\ Repacker.w p' = Repacker.w p.
Proof.
  intros Hn Hc Hh Hi Hr Hok Hbig. unfold Repacker.Read.
  rewrite (proj2 (Z.eqb_neq n 0) Hn).
  set (p2 := Repacker.set_crc (crc32.Write 0 IDAT)
               (Repacker.set_idatLength (Uint32 h4)
                  (Repacker.set_tmp
                     (overwrite (h4 ++ IDAT) (overwrite c4 (Repacker.tmp p)))
                     (Repacker.set_r rest p)))).
  assert (E : Repacker.nextChunk p = (None, p2)).
  { unfold Repacker.nextChunk.
    rewrite (RepackerFacts.readTmp_app 4 c4 (h4 ++ IDAT ++ rest) p Hc Hr).
    RepackerFacts.fields. rewrite (head4_overwrite' c4 _ Hc).
    unfold crc32.Sum32. rewrite Hok, Z.eqb_refl. cbn [negb].
    rewrite (RepackerFacts.readTmp_app 8 (h4 ++ IDAT) rest)
      by (RepackerFacts.fields; rewrite ?length_app, ?Hh, <- ?app_assoc;
          reflexivity).
    RepackerFacts.fields.
    rewrite (head4_overwrite h4 IDAT _ Hh), (kind_overwrite h4 IDAT _ Hh eq_refl).
    rewrite bytes_eqb_refl. reflexivity. }
  assert (Hlen : (12 <= length (Repacker.r p))%nat).
  { rewrite Hr, !length_app, Hc, Hh. change (length IDAT) with 4%nat. lia. }
  destruct (length (Repacker.r p)) as [|f]; [lia|].
  cbn [Repacker.skipChunks]. rewrite Hi, E. cbn [Z.eqb].
  assert (Hnz : (Repacker.idatLength p2 =? 0) = false).
  { unfold p2. RepackerFacts.fields. apply Z.eqb_neq.
    unfold maxChunkLen in Hbig. lia. }
  destruct f; cbn [Repacker.skipChunks]; rewrite Hnz;
    (replace (Repacker.idatLength p2 >? maxChunkLen) with true
      by (unfold p2; RepackerFacts.fields; symmetry; apply Z.gtb_lt; exact Hbig));
    exists p2; repeat split.
Qed.

Section WithCodec.
Context {codec : Codec}.

Lemma rd_Read_bad_checksum (n : Z) (c4 rest : bytes) (p : Reader.Reader) :
  n <> 0 -> length c4 = 4%nat -> Reader.chunkLen p = 0 ->
  Reader.r p = c4 ++ rest -> Uint32 c4 <> Reader.crc p ->
  Reader.idatReader_Read n p
  = (([], Some ErrIDATChecksum),
     Reader.set_tmp (overwrite c4 (Reader.tmp p)) (Reader.set_r rest p)).
Proof.
  intros Hn Hc Hi Hr Hbad. unfold Reader.idatReader_Read.
  rewrite (proj2 (Z.eqb_neq n 0) Hn).
  assert (E : Reader.nextChunk p
              = (Some ([], Some ErrIDATChecksum),
                 Reader.set_tmp (overwrite c4 (Reader.tmp p))
                   (Reader.set_r rest p))).
  { unfold Reader.nextChunk.
    rewrite (ReaderFacts.rd_readTmp_app 4 c4 rest p Hc Hr).
    ReaderFacts.rfields. rewrite (head4_overwrite' c4 _ Hc).
    unfold crc32.Sum32. rewrite (proj2 (Z.eqb_neq _ _) Hbad). reflexivity. }
  destruct (length (Reader.r p)); cbn [Reader.skipChunks];
    rewrite Hi, E; reflexivity.
Qed.

Lemma rd_Read_too_big (n : Z) (c4 h4 k rest : bytes) (p : Reader.Reader) :
  n <> 0 -> length c4 = 4%nat -> length h4 = 4%nat -> length k = 4%nat ->
  Reader.chunkLen p = 0 ->
  Reader.r p = c4 ++ h4 ++ k ++ rest -> Uint32 c4 = Reader.crc p ->
  maxChunkLen < Uint32 h4 ->
  exists p',
    Reader.idatReader_Read n p = (([], Some ErrChunkTooBig), p')
    /\ Reader.r p' = rest /\ Reader.w p' = Reader.w p.
Proof.
  intros Hn Hc Hh Hk Hi Hr Hok Hbig. unfold Reader.idatReader_Read.
  rewrite (proj2 (Z.eqb_neq n 0) Hn).
  set (p2 := Reader.set_tmp
               (overwrite (h4 ++ k) (overwrite c4 (Reader.tmp p)))
               (Reader.set_r rest p)).
  assert (E : Reader.nextChunk p = (Some ([], Some ErrChunkTooBig), p2)).
  { unfold Reader.nextChunk.
    rewrite (ReaderFacts.rd_readTmp_app 4 c4 (h4 ++ k ++ rest) p Hc Hr).
    ReaderFacts.rfields. rewrite (head4_overwrite' c4 _ Hc).
    unfold crc32.Sum32. rewrite Hok, Z.eqb_refl. cbn [negb].
    rewrite (ReaderFacts.rd_readTmp_app 8 (h4 ++ k) rest)
      by (ReaderFacts.rfields; rewrite ?length_app, ?Hh, ?Hk, <- ?app_assoc;
          reflexivity).
    ReaderFacts.rfields.
    rewrite (head4_overwrite h4 k _ Hh).
    replace (Uint32 h4 >? maxChunkLen) with true
      by (symmetry; apply Z.gtb_lt; exact Hbig).
    reflexivity. }
  exists p2.
  destruct (length (Reader.r p)); cbn [Reader.skipChunks];
    rewrite Hi, E; repeat split.
Qed.

Lemma rd_nextChunk_progress (p p' : Reader.Reader) :
  Reader.nextChunk p = (None, p') ->
  (length (Reader.r p') + 12 <= length (Reader.r p))%nat.
Proof.
  unfold Reader.nextChunk. intros E.
  destruct (Reader.readTmp 4 p) as [[[]|e] p1] eqn:E1; [|discriminate E].
  destruct (negb _); [discriminate E|].
  destruct (Reader.readTmp 8 p1) as [[[]|e] p2] eqn:E2; [|discriminate E].
  apply rd_readTmp_ok in E1. destruct E1 as (b1 & r1 & H1 & L1 & ->).
  apply rd_readTmp_ok in E2. destruct E2 as (b2 & r2 & H2 & L2 & ->).
  ReaderFacts.rfields.
  repeat match type of E with
         | context [if ?c then _ else _] => destruct c
         end;
    inversion E; subst; ReaderFacts.rfields.
  rewrite H1, ?H2, !length_app. lia.
Qed.

Lemma rd_skipChunks_fuel (f1 f2 : nat) (p : Reader.Reader) :
  (length (Reader.r p) <= f1)%nat -> (length (Reader.r p) <= f2)%nat ->
  Reader.skipChunks f1 p = Reader.skipChunks f2 p.
Proof.
  revert f2 p. induction f1 as [|f1 IH]; intros f2 p H1 H2;
    destruct f2 as [|f2]; cbn [Reader.skipChunks];
    destruct (Reader.chunkLen p =? 0); try reflexivity;
    destruct (Reader.nextChunk p) as [[ret|] p'] eqn:E; try reflexivity;
    apply rd_nextChunk_progress in E; try lia.
  apply IH; lia.
Qed.

End WithCodec.

End LoopFacts.

(* ================================================================== *)
(** ** Inputs that stop inside a chunk *)

Module TruncFacts.

Lemma take_ge {A} (n : Z) (l : list A) : len l <= n -> take n l = l.
Proof.
  revert n. induction l as [|x l IH]; intros n Hn; [reflexivity|].
  rewrite take_cons. rewrite len_cons in Hn. pose proof (len_nonneg l).
  destruct (Z.leb_spec n 0); [lia|]. f_equal. apply IH. lia.
Qed.

Lemma drop_ge {A} (n : Z) (l : list A) : len l <= n -> drop n l = [].
Proof.
  revert n. induction l as [|x l IH]; intros n Hn; [reflexivity|].
  rewrite drop_cons. rewrite len_cons in Hn. pose proof (len_nonneg l).
  destruct (Z.leb_spec n 0); [lia|]. apply IH. lia.
Qed.

Section WithCodec.
Context {codec : Codec}.

(** The earlier revision at a chunk boundary with one to seven bytes left. *)
Lemma repackChunk_partial_header (p : Repacker.repacker) :
  (0 < length (Repacker.r p) < 8)%nat ->
  exists p',
    Repacker.repackChunk p = (Some (Some ErrUnexpectedEOF), p')
    /\ Repacker.w p' = Repacker.w p.
Proof.
  intros [H0 H8]. unfold Repacker.repackChunk, Repacker.chunk, bind,
    Repacker.readTmp.
  rewrite (EdgeFacts.ReadFull_short 8 (Repacker.r p) H8).
  destruct (Repacker.r p) as [|b0 l]; [cbn in H0; lia|].
  eexists. split; reflexivity.
Qed.

(** The earlier revision at a chunk that is not IDAT and whose data stops
    short: [io.CopyN] copies what there is and returns [io.EOF]. *)
Lemma repackChunk_truncated (k part : bytes) (n : Z) (p : Repacker.repacker) :
  length k = 4%nat -> k <> IDAT -> len part < n <= maxChunkLen ->
  Repacker.r p = PutUint32 n ++ k ++ part ->
  exists p',
    Repacker.repackChunk p = (Some (Some EOF), p')
    /\ Repacker.w p' = Repacker.w p ++ PutUint32 n ++ k ++ part.
Proof.
  intros Hk Hn [Hlt Hmax] Hr. pose proof (len_nonneg part) as H0.
  unfold Repacker.repackChunk.
  rewrite (RepackerFacts.chunk_header p n k part Hk) by (lia || exact Hr).
  rewrite (bytes_eqb_neq _ _ Hn).
  unfold Repacker.handleAnyChunk, bind, gets, Repacker.write, modify,
    Repacker.copyN.
  RepackerFacts.fields.
  rewrite (head8_overwrite (PutUint32 n) k _ (PutUint32_length n) Hk).
  rewrite take_ge, drop_ge by lia.
  destruct (Z.ltb_spec (len part) n); [|lia].
  eexists. split; [reflexivity|]. RepackerFacts.fields.
  rewrite <- !app_assoc. reflexivity.
Qed.

(** The later revision at a chunk boundary with one to seven bytes left. *)
Lemma rd_partial_header (lvl : Z) (seen : bool) (q : Reader.Reader)
      (out : bytes) :
  ReaderInv.ready lvl seen q ->
  (0 < length (Reader.r q) < 8)%nat ->
  ReaderInv.Drains q out (Some ErrUnexpectedEOF, out).
Proof.
  intros (Hs & Hw & He & _) [H0 H8].
  assert (E : exists q', Reader.refill q = (Err ErrUnexpectedEOF, q')).
  { unfold Reader.refill. rewrite Hs.
    unfold Reader.chunkHeader, bind, Reader.readTmp.
    rewrite (EdgeFacts.ReadFull_short 8 (Reader.r q) H8).
    destruct (Reader.r q) as [|b0 l]; [cbn in H0; lia|].
    eexists. reflexivity. }
  destruct E as (q' & E).
  apply (ReaderInv.Drains_err q q' out ErrUnexpectedEOF Hw He E).
  discriminate.
Qed.

(** The later revision inside the data of a chunk that is not IDAT, when
    the source ends before the data does: what there is goes to the sink,
    and the [io.EOF] of the source ends the stream without an error. *)
Lemma rd_data_short (m : nat) :
  forall (part : bytes) (q : Reader.Reader) (out : bytes),
    (length part <= m)%nat ->
    Reader.stage q = Reader.stChunkData -> Reader.chunkType q <> IDAT ->
    len part < Reader.chunkLen q ->
    Reader.r q = part -> Reader.w q = [] -> Reader.eof q = false ->
    ReaderInv.Drains q out (None, out ++ part).
Proof.
  induction m as [|m IH]; intros part q out Hm Hs Hk Hl Hr Hw He.
  all: destruct part as [|b0 part'].
  1,3: (eapply (ReaderInv.Drains_eof q (Reader.set_r [] q) out Hw He);
        unfold Reader.refill; rewrite Hs; unfold Reader.handleChunkData;
        rewrite (bytes_eqb_neq _ _ Hk), Hr; reflexivity) ||
       (assert (E : Reader.refill q = (Err EOF, Reader.set_r [] q))
          by (unfold Reader.refill; rewrite Hs; unfold Reader.handleChunkData;
              rewrite (bytes_eqb_neq _ _ Hk), Hr; reflexivity);
        pose proof (ReaderInv.Drains_eof q (Reader.set_r [] q) out Hw He E) as D;
        ReaderFacts.rfields; rewrite Hw in D; exact D).
  - cbn [length] in Hm. lia.
  - set (part := b0 :: part') in *.
    set (k := Z.min Reader.bufSize (Reader.chunkLen q)).
    assert (Hk0 : 0 < k).
    { unfold k, Reader.bufSize. pose proof (len_nonneg part). lia. }
    set (q1 := Reader.set_chunkLen (Reader.chunkLen q - len (take k part))
                 (Reader.set_crc (crc32.Write (Reader.crc q) (take k part))
                    (Reader.set_w (Reader.w q ++ take k part)
                       (Reader.set_r (drop k part) q)))).
    pose proof (len_take_le k part) as Htl.
    assert (E : Reader.refill q = (Ok tt, q1)).
    { unfold Reader.refill. rewrite Hs. unfold Reader.handleChunkData.
      rewrite (bytes_eqb_neq _ _ Hk), Hr. fold k.
      unfold src_Read. unfold part at 1. fold part.
      ReaderFacts.rfields. fold q1.
      destruct (Z.eqb_spec (Reader.chunkLen q - len (take k part)) 0); [lia|].
      reflexivity. }
    eapply ReaderInv.Drains_ok; [exact Hw|exact He|exact E|].
    unfold q1 at 2. ReaderFacts.rfields. rewrite Hw. cbn [app].
    rewrite <- (take_drop k part) at 2. rewrite app_assoc.
    apply IH.
    + assert (Hne : part <> []) by (unfold part; discriminate).
      pose proof (ReaderFacts.length_drop_lt k part Hk0 Hne) as Hd.
      assert (Hp : length part = S (length part')) by reflexivity. lia.
    + unfold q1. ReaderFacts.rfields. exact Hs.
    + unfold q1. ReaderFacts.rfields. exact Hk.
    + unfold q1. ReaderFacts.rfields. rewrite len_take_drop. lia.
    + reflexivity.
    + reflexivity.
    + unfold q1. ReaderFacts.rfields. exact He.
Qed.

(** The later revision at a chunk that is not IDAT and whose data stops
    short. *)
Lemma rd_truncated (k part : bytes) (n lvl : Z) (seen : bool)
      (q : Reader.Reader) (out : bytes) :
  ReaderInv.ready lvl seen q ->
  length k = 4%nat -> k <> IDAT -> len part < n <= maxChunkLen ->
  Reader.r q = PutUint32 n ++ k ++ part ->
  ReaderInv.Drains q out (None, out ++ PutUint32 n ++ k ++ part).
Proof.
  intros (Hs & Hw & He & _) Hk Hn [Hlt Hmax] Hr.
  pose proof (len_nonneg part) as H0.
  set (q1 := Reader.set_stage Reader.stChunkData (Reader.set_chunkType k
               (Reader.set_chunkLen n
                  (Reader.set_crc (crc32.Write 0 k)
                     (Reader.set_w (Reader.w q ++ PutUint32 n ++ k)
                        (Reader.set_tmp (overwrite (PutUint32 n ++ k) (Reader.tmp q))
                           (Reader.set_r part q))))))).
  assert (E : Reader.refill q = (Ok tt, q1)).
  { unfold Reader.refill. rewrite Hs.
    rewrite (ReaderFacts.rd_chunkHeader q n k part Hk) by (lia || exact Hr).
    rewrite (bytes_eqb_neq _ _ Hn).
    destruct (Z.gtb_spec n maxChunkLen); [lia|]. reflexivity. }
  eapply ReaderInv.Drains_ok; [exact Hw|exact He|exact E|].
  unfold q1 at 2. ReaderFacts.rfields. rewrite Hw. cbn [app].
  replace (out ++ PutUint32 n ++ k ++ part)
    with ((out ++ PutUint32 n ++ k) ++ part)
    by (rewrite <- !app_assoc; reflexivity).
  apply (rd_data_short (length part)); unfold q1; ReaderFacts.rfields;
    auto.
Qed.

End WithCodec.

End TruncFacts.

(* ================================================================== *)
(** ** A decoder that gives up inside the run *)

Module DecodeFail.

Lemma removelast_cons {A} (x : A) (l : list A) :
  l <> [] -> removelast (x :: l) = x :: removelast l.
Proof. destruct l; [contradiction|reflexivity]. Qed.

Section WithCodec.
Context {codec : Codec}.

Lemma reread_nonempty (zw0 : zwriter) (outs : list bytes) :
  outs <> [] -> Run.reread zw0 outs <> [].
Proof.
  destruct outs as [|o outs]; [contradiction|]. intros _. cbn [Run.reread].
  destruct (zw_Write zw0 o) as [zw1 b1]. destruct (zw_Flush zw1) as [zw2 b2].
  destruct outs; discriminate.
Qed.

(** The loop of [handleIDAT] along a session that ends in an error other
    than [io.EOF]: the returns before the last were written as chunks, and
    what came with the error is dropped. *)
Lemma readLoop_inside_err (tail : bytes) (z : zreader) :
  forall (s s' : Run.run) (p : Repacker.repacker) (l : Repacker.locals)
         (outs : list bytes) (e : error),
    RepackerInv.inside tail s p ->
    Repacker.icrc l = 0 -> Repacker.buf l = [] ->
    Run.decode z s = ((outs, e), s') -> Run.polled s' = false -> e <> EOF ->
    exists p',
      Repacker.readLoop z l p = (Err e, p')
      /\ Repacker.w p'
         = Repacker.w p
           ++ encodes (map idat (Run.repacked (Repacker.zw l) (removelast outs))).
Proof.
  induction z as [n k IH|out k IH|out e0];
    intros s s' p l outs e Hin Hc Hb E Hp Hne; cbn [Run.decode] in E;
    cbn [Repacker.readLoop].
  - destruct (Run.read n s) as [[b eof] s1] eqn:Er.
    assert (Hp1 : Run.polled s1 = false).
    { destruct (Run.polled s1) eqn:Hp1; [|reflexivity].
      pose proof (RunFacts.decode_polled (k b eof) s1 Hp1) as Hd.
      rewrite E in Hd. cbn [snd] in Hd. congruence. }
    destruct (RepackerRun.Read_inside tail n s s1 p b eof Hin Er Hp1)
      as (p1 & E1 & Hin1 & ->).
    rewrite E1.
    destruct (IH b false s1 s' p1 l outs e Hin1 Hc Hb E Hp Hne)
      as (p' & E' & Hw).
    exists p'. split; [exact E'|]. rewrite Hw.
    apply RepackerFacts.Read_quiet in E1. destruct E1 as (Q1 & _).
    rewrite Q1. reflexivity.
  - destruct (Run.decode k s) as [[outs0 e1] s0] eqn:Ed. inversion E; subst.
    assert (Hne0 : outs0 <> []).
    { pose proof (ReaderRun.decode_nonempty k s) as H. rewrite Ed in H.
      exact H. }
    rewrite (removelast_cons out outs0 Hne0). cbn [Run.repacked].
    destruct (len out =? 0).
    + apply (IH s s' p l outs0 e Hin Hc Hb Ed Hp Hne).
    + rewrite RepackerFacts.emit_spec by assumption.
      destruct (zw_Write (Repacker.zw l) out) as [zw1 b1]. cbn [fst snd].
      destruct (zw_Flush zw1) as [zw2 b2]. cbn [fst snd].
      destruct (IH s s' (Repacker.set_w (Repacker.w p ++ encode (idat (b1 ++ b2))) p)
                  {| Repacker.zw := zw2; Repacker.icrc := 0; Repacker.buf := [] |}
                  outs0 e (RepackerRun.inside_set_w tail s p _ Hin)
                  eq_refl eq_refl Ed Hp Hne)
        as (p' & E' & Hw).
      exists p'. split; [exact E'|]. rewrite Hw. RepackerFacts.fields.
      cbn [Repacker.zw map]. rewrite RepackerRun.encodes_cons, <- !app_assoc.
      reflexivity.
  - inversion E; subst. cbn [removelast Run.repacked map encodes flat_map].
    exists p. rewrite app_nil_r. split; [|reflexivity].
    destruct e; try reflexivity. contradiction.
Qed.

(** The round of the loop of [repack] on the first IDAT chunk of such a
    run. *)
Lemma repackChunk_decode_fails (tail d0 : bytes) (ds : list bytes)
      (p : Repacker.repacker) (zw0 : zwriter) (z : zreader) (s1 s2 : Run.run)
      (outs : list bytes) (e : error) :
  Repacker.r p = encodes (map idat (d0 :: ds)) ++ tail ->
  Repacker.haveIDAT p = false -> Repacker.haveLastChunk p = false ->
  Forall (fun d => len d <= maxChunkLen) (d0 :: ds) ->
  NewWriterLevel (Repacker.level p) = inl zw0 ->
  Run.open NewReader {| Run.cur := d0; Run.next := ds; Run.polled := false |}
  = (Ok z, s1) ->
  Run.decode z s1 = ((outs, e), s2) -> Run.polled s2 = false -> e <> EOF ->
  exists p',
    Repacker.repackChunk p = (Some (Some e), p')
    /\ Repacker.w p'
       = Repacker.w p
         ++ encodes (map idat (Run.repacked zw0 (removelast outs))).
Proof.
  intros Hr Hhi Hhl Hlen Hlvl Hopen Hdec Hp2 Hne.
  inversion Hlen as [|? ? Hd0 Hds]; subst.
  cbn [map] in Hr. rewrite RepackerRun.encodes_cons in Hr.
  unfold encode at 1 in Hr. cbn [kind data idat] in Hr.
  rewrite <- !app_assoc in Hr.
  unfold Repacker.repackChunk.
  rewrite (RepackerFacts.chunk_header p (len d0) IDAT _ eq_refl
             (conj (len_nonneg d0) Hd0) Hr).
  rewrite bytes_eqb_refl. RepackerFacts.fields. rewrite Hhi.
  unfold Repacker.handleIDAT, bind, modify, gets, fail.
  match goal with
  | |- context [Repacker.newReader NewReader ?q0] => set (q := q0)
  end.
  assert (Hin : RepackerInv.inside tail
                  {| Run.cur := d0; Run.next := ds; Run.polled := false |} q).
  { exists []. unfold q. RepackerFacts.fields.
    cbn [Run.cur Run.next Run.polled app].
    pose proof (maxChunkLen_u32 (len d0) (conj (len_nonneg d0) Hd0)).
    repeat split; auto.
    apply uint32_small. assumption. }
  assert (Hp1 : Run.polled s1 = false).
  { destruct (Run.polled s1) eqn:Hp1; [|reflexivity].
    pose proof (RunFacts.decode_polled z s1 Hp1) as Hc. rewrite Hdec in Hc.
    cbn [snd] in Hc. congruence. }
  destruct (RepackerRun.newReader_inside tail NewReader _ s1 q (Ok z) Hin Hopen
              Hp1) as (p1 & E1 & Hin1).
  rewrite E1.
  pose proof E1 as Q1. apply RepackerFacts.newReader_quiet in Q1.
  destruct Q1 as (Qw & Ql & Qh & _).
  replace (Repacker.level p1) with (Repacker.level p)
    by (rewrite Ql; reflexivity).
  rewrite Hlvl.
  destruct (readLoop_inside_err tail z s1 s2 p1
              {| Repacker.zw := zw0; Repacker.icrc := crc32.NewIEEE;
                 Repacker.buf := [] |} outs e
              Hin1 eq_refl eq_refl Hdec Hp2 Hne)
    as (p2 & E2 & Hw).
  rewrite E2. exists p2. split; [reflexivity|].
  rewrite Hw, Qw. unfold q. RepackerFacts.fields. reflexivity.
Qed.

(** The rounds of [refill] in stage [stIDAT] along such a session. *)
Lemma rd_run_err (tail : bytes) (z : zreader) :
  forall (s s' : Run.run) (p : Reader.Reader) (zw0 : zwriter)
         (outs : list bytes) (e : error) (out : bytes),
    ReaderInv.inside tail s p -> Reader.stage p = Reader.stIDAT ->
    Reader.zr p = Some z -> Reader.zw p = Some zw0 ->
    Reader.zbuf p = [] -> Reader.zcrc p = 0 ->
    Reader.w p = [] -> Reader.eof p = false ->
    Run.decode z s = ((outs, e), s') -> Run.polled s' = false -> e <> EOF ->
    ReaderInv.Drains p out
      (Some e,
       out ++ encodes (map idat (removelast (Run.reread zw0 outs)))).
Proof.
  induction z as [n k IH|o k IH|o e0];
    intros s s' p zw0 outs e out Hin Hs Hz Hzw Hzb Hzc Hw He Hdec Hp Hne;
    cbn [Run.decode] in Hdec.
  - destruct (Run.read n s) as [[b eof] s1] eqn:Er.
    assert (Hp1 : Run.polled s1 = false).
    { destruct (Run.polled s1) eqn:Hp1; [|reflexivity].
      pose proof (RunFacts.decode_polled (k b eof) s1 Hp1) as Hd.
      rewrite Hdec in Hd. cbn [snd] in Hd. congruence. }
    destruct (ReaderRun.rd_Read_inside tail n s s1 p b eof Hin Er Hp1)
      as (p1 & E1 & Hin1 & ->).
    pose proof E1 as Q. apply ReaderRun.rd_Read_quiet in Q.
    destruct Q as (Q1 & Q2 & Q3 & Q4 & Q5 & Q6 & Q7 & Q8 & Q9 & _).
    apply (ReaderRun.Drains_same p (Reader.set_zr (Some (k b false)) p1)).
    + unfold Reader.refill. ReaderFacts.rfields. rewrite Hs, Q4, Hs.
      rewrite (ReaderRun.rd_handleIDAT_need n k zw0 p p1 b Hz Hzw E1).
      reflexivity.
    + ReaderFacts.rfields. congruence.
    + ReaderFacts.rfields. congruence.
    + apply (IH b false s1 s'); ReaderFacts.rfields; try congruence.
      apply (ReaderRun.rd_inside_ext tail s1 p1); auto.
  - destruct (Run.decode k s) as [[outs0 e1] s0] eqn:Ed. inversion Hdec; subst.
    assert (Hne0 : outs0 <> []).
    { pose proof (ReaderRun.decode_nonempty k s) as H. rewrite Ed in H.
      exact H. }
    set (zw2 := fst (zw_Flush (fst (zw_Write zw0 o)))).
    set (ch := snd (zw_Write zw0 o) ++ snd (zw_Flush (fst (zw_Write zw0 o)))).
    set (p2 := Reader.set_zcrc 0 (Reader.set_zbuf []
                 (Reader.set_w (Reader.w p ++ encode (idat ch))
                    (Reader.set_zw (Some zw2) (Reader.set_zr (Some k) p))))).
    assert (E : Reader.refill p = (Ok tt, p2)).
    { unfold Reader.refill. rewrite Hs. unfold Reader.handleIDAT.
      rewrite Hz, Hzw. cbn [Reader.zr_Read].
      rewrite ReaderRun.rd_emit_spec by (ReaderFacts.rfields; assumption).
      ReaderFacts.rfields. rewrite app_nil_r. reflexivity. }
    assert (Hre : Run.reread zw0 (o :: outs0) = ch :: Run.reread zw2 outs0).
    { cbn [Run.reread]. unfold ch, zw2.
      destruct (zw_Write zw0 o) as [zw1 b1]. cbn [fst snd].
      destruct (zw_Flush zw1) as [zw3 b2]. cbn [fst snd].
      destruct outs0; [contradiction|reflexivity]. }
    eapply ReaderInv.Drains_ok; [exact Hw|exact He|exact E|].
    rewrite Hre.
    rewrite removelast_cons by (apply reread_nonempty; exact Hne0).
    cbn [map]. rewrite RepackerRun.encodes_cons, !app_assoc.
    replace (out ++ Reader.w p2) with (out ++ encode (idat ch))
      by (unfold p2; ReaderFacts.rfields; rewrite Hw; reflexivity).
    apply (IH s s'); unfold p2; ReaderFacts.rfields; auto;
      try (apply (ReaderRun.rd_inside_ext tail s p); auto; fail).
  - inversion Hdec; subst.
    assert (Hre : removelast (Run.reread zw0 [o]) = []).
    { cbn [Run.reread]. destruct (zw_Write zw0 o) as [zw1 b1].
      destruct (zw_Flush zw1) as [zw3 b2]. reflexivity. }
    rewrite Hre. cbn [map encodes flat_map]. rewrite app_nil_r.
    assert (E : exists p1, Reader.refill p = (Err e, p1)).
    { unfold Reader.refill. rewrite Hs. unfold Reader.handleIDAT.
      rewrite Hz, Hzw. cbn [Reader.zr_Read].
      destruct e; try (eexists; reflexivity). contradiction. }
    destruct E as (p1 & E).
    apply (ReaderInv.Drains_err p p1 out e Hw He E Hne).
Qed.

(** From the header of the first IDAT chunk of such a run. *)
Lemma rd_enter_err (tail d0 : bytes) (ds : list bytes) (lvl : Z)
      (p : Reader.Reader) (zw0 : zwriter) (z : zreader) (s1 s2 : Run.run)
      (outs : list bytes) (e : error) (out : bytes) :
  ReaderInv.ready lvl false p ->
  Reader.r p = encodes (map idat (d0 :: ds)) ++ tail ->
  Forall (fun d => len d <= maxChunkLen) (d0 :: ds) ->
  NewWriterLevel lvl = inl zw0 ->
  Run.open NewReader {| Run.cur := d0; Run.next := ds; Run.polled := false |}
  = (Ok z, s1) ->
  Run.decode z s1 = ((outs, e), s2) -> Run.polled s2 = false -> e <> EOF ->
  ReaderInv.Drains p out
    (Some e, out ++ encodes (map idat (removelast (Run.reread zw0 outs)))).
Proof.
  intros (Hs & Hw & He & Hlv & Hpi & Hrn & Hzb & Hzc) Hr Hlen Hlvl Hopen Hdec
    Hp2 Hne.
  inversion Hlen as [|? ? Hd0 Hds]; subst.
  cbn [map] in Hr.
  change (encodes (idat d0 :: map idat ds))
    with (encode (idat d0) ++ encodes (map idat ds)) in Hr.
  unfold encode at 1 in Hr. cbn [kind data idat] in Hr.
  rewrite <- !app_assoc in Hr.
  set (rest := d0 ++ PutUint32 (crc32.ChecksumIEEE (IDAT ++ d0))
               ++ encodes (map idat ds) ++ tail) in *.
  set (p1 := Reader.set_stage Reader.stChunkData (Reader.set_chunkType IDAT
               (Reader.set_chunkLen (len d0)
                  (Reader.set_crc (crc32.Write 0 IDAT)
                     (Reader.set_w (Reader.w p ++ [])
                        (Reader.set_tmp
                           (overwrite (PutUint32 (len d0) ++ IDAT) (Reader.tmp p))
                           (Reader.set_r rest p))))))).
  assert (E1 : Reader.refill p = (Ok tt, p1)).
  { unfold Reader.refill. rewrite Hs.
    rewrite (ReaderFacts.rd_chunkHeader p (len d0) IDAT rest eq_refl
               (conj (len_nonneg _) Hd0) Hr).
    rewrite bytes_eqb_refl.
    destruct (Z.gtb_spec (len d0) maxChunkLen); [lia|]. reflexivity. }
  set (q := Reader.set_w [] p1).
  assert (Hin : ReaderInv.inside tail
                  {| Run.cur := d0; Run.next := ds; Run.polled := false |} q).
  { exists []. unfold q, p1. ReaderFacts.rfields.
    cbn [Run.cur Run.next Run.polled app]. repeat split; auto. }
  assert (Hp1 : Run.polled s1 = false).
  { destruct (Run.polled s1) eqn:Hp1; [|reflexivity].
    pose proof (RunFacts.decode_polled z s1 Hp1) as Hc. rewrite Hdec in Hc.
    cbn [snd] in Hc. congruence. }
  destruct (ReaderRun.rd_newReader_inside tail NewReader _ s1 q (Ok z) Hin Hopen
              Hp1) as (q1 & E2 & Hin1).
  pose proof E2 as Q. apply ReaderRun.rd_newReader_quiet in Q.
  destruct Q as (Q1 & Q2 & Q3 & Q4 & Q5 & Q6 & Q7 & Q8 & Q9 & _).
  unfold q, p1 in Q1, Q2, Q3, Q4, Q5, Q6, Q7, Q8, Q9. ReaderFacts.rfields.
  set (q2 := Reader.set_stage Reader.stIDAT (Reader.set_processedIDAT true
               (Reader.set_zw (Some zw0) (Reader.set_zr (Some z) q1)))).
  assert (E3 : Reader.refill q = (Ok tt, q2)).
  { unfold Reader.refill.
    replace (Reader.stage q) with Reader.stChunkData by reflexivity.
    unfold Reader.handleChunkData.
    replace (Reader.chunkType q) with IDAT by reflexivity.
    rewrite bytes_eqb_refl.
    replace (Reader.processedIDAT q) with false
      by (unfold q, p1; ReaderFacts.rfields; congruence).
    rewrite E2. ReaderFacts.rfields. rewrite Q2, Hlvl. reflexivity. }
  eapply ReaderInv.Drains_ok; [exact Hw|exact He|exact E1|].
  eapply ReaderInv.Drains_ok; [reflexivity|exact He|exact E3|].
  replace ((out ++ Reader.w p1) ++ Reader.w q2) with out
    by (unfold q2, p1; ReaderFacts.rfields; rewrite Q1, Hw, !app_nil_r;
        reflexivity).
  apply (rd_run_err tail z s1 s2 (Reader.set_w [] q2) zw0 outs e out);
    unfold q2; ReaderFacts.rfields; auto; try congruence;
    try (apply (ReaderRun.rd_inside_ext tail s1 q1); auto; fail).
Qed.

End WithCodec.

End DecodeFail.

(* ================================================================== *)
(** ** [Reader.Read] as an [io.Reader] *)

Module ReadFacts.

Section WithCodec.
Context {codec : Codec}.

(** What the loop of [Read] ends with: bytes in the buffer, or an error;
    [io.EOF] only with the flag set and nothing buffered. *)
Lemma fill_result (fuel : nat) :
  forall (p p' : Reader.Reader) (x : option (bytes * option error)),
    Reader.fill fuel p = Some (x, p') ->
    match x with
    | None => Reader.w p' <> []
    | Some (b, e) =>
        b = [] /\ e <> None
        /\ (e = Some EOF -> Reader.w p' = [] /\ Reader.eof p' = true)
    end.
Proof.
  induction fuel as [|fuel IH]; intros p p' x; cbn [Reader.fill].
  - destruct (Z.eqb_spec (len (Reader.w p)) 0) as [Hz|Hnz].
    + destruct (Reader.eof p) eqn:He; [|discriminate].
      intros E. inversion E; subst. repeat split; try discriminate; auto.
      destruct (Reader.w p') as [|b0 l]; [reflexivity|].
      rewrite len_cons in Hz. pose proof (len_nonneg l). lia.
    + intros E. inversion E; subst. intros H. rewrite H in Hnz.
      apply Hnz. reflexivity.
  - destruct (Z.eqb_spec (len (Reader.w p)) 0) as [Hz|Hnz].
    + destruct (Reader.eof p) eqn:He.
      * intros E. inversion E; subst. repeat split; try discriminate; auto.
        destruct (Reader.w p') as [|b0 l]; [reflexivity|].
        rewrite len_cons in Hz. pose proof (len_nonneg l). lia.
      * destruct (Reader.refill p) as [[[]|e] p1].
        { apply IH. }
        destruct e; try (intros E; inversion E; subst;
                         repeat split; discriminate).
        apply IH.
    + intros E. inversion E; subst. intros H. rewrite H in Hnz.
      apply Hnz. reflexivity.
Qed.

End WithCodec.

End ReadFacts.

(* ================================================================== *)
(** ** What the checksum tells apart *)

Module CrcFacts.

Lemma lxor_cancel_l (a b c : Z) : Z.lxor c a = Z.lxor c b -> a = b.
Proof.
  intros H. apply (f_equal (Z.lxor c)) in H.
  rewrite <- !Z.lxor_assoc, !Z.lxor_nilpotent, !Z.lxor_0_l in H. exact H.
Qed.

Lemma lxor_cancel_r (a b c : Z) : Z.lxor a c = Z.lxor b c -> a = b.
Proof. rewrite !(Z.lxor_comm _ c). apply lxor_cancel_l. Qed.

Lemma index_range (x : Z) : 0 <= Z.land x 255 < 256.
Proof.
  change 255 with (Z.ones 8). rewrite Z.land_ones by lia.
  apply Z.mod_pos_bound. reflexivity.
Qed.

Lemma testbit_255 (n : Z) : 0 <= n < 8 -> Z.testbit 255 n = true.
Proof.
  intros Hn. change 255 with (Z.ones 8). apply Z.ones_spec_low. exact Hn.
Qed.

(** The top bytes of the 256 entries of the table are all different. *)
Lemma table_top_check :
  forallb (fun i =>
     forallb (fun j =>
        implb (Z.shiftr (crc32.table i) 24 =? Z.shiftr (crc32.table j) 24)
              (i =? j))
       (map Z.of_nat (seq 0 256)))
    (map Z.of_nat (seq 0 256)) = true.
Proof. vm_compute. reflexivity. Qed.

Lemma in_indices (i : Z) : 0 <= i < 256 -> In i (map Z.of_nat (seq 0 256)).
Proof.
  intros Hi. rewrite <- (Z2Nat.id i) by lia. apply in_map, in_seq. lia.
Qed.

Lemma table_top_inj (i j : Z) :
  0 <= i < 256 -> 0 <= j < 256 ->
  Z.shiftr (crc32.table i) 24 = Z.shiftr (crc32.table j) 24 -> i = j.
Proof.
  intros Hi Hj H. pose proof table_top_check as C.
  rewrite forallb_forall in C. specialize (C i (in_indices i Hi)).
  rewrite forallb_forall in C. specialize (C j (in_indices j Hj)).
  rewrite H, Z.eqb_refl in C. cbn [implb] in C. apply Z.eqb_eq. exact C.
Qed.

Lemma shiftr8_top (c : Z) : u32 c -> Z.shiftr (Z.shiftr c 8) 24 = 0.
Proof.
  unfold u32. intros Hc. rewrite Z.shiftr_shiftr by lia.
  rewrite Z.shiftr_div_pow2 by lia. apply Z.div_small. exact Hc.
Qed.

(** Two registers that a byte takes to the same register are the same. *)
Lemma step_inj_crc (c1 c2 : Z) (v : byte) :
  u32 c1 -> u32 c2 -> crc32.step c1 v = crc32.step c2 v -> c1 = c2.
Proof.
  intros H1 H2 E. unfold crc32.step in E.
  set (i1 := Z.land (Z.lxor c1 (byte_to_Z v)) 255) in *.
  set (i2 := Z.land (Z.lxor c2 (byte_to_Z v)) 255) in *.
  assert (Ei : i1 = i2).
  { apply table_top_inj; try apply index_range.
    apply (f_equal (fun z => Z.shiftr z 24)) in E.
    rewrite !Z.shiftr_lxor, !shiftr8_top, !Z.lxor_0_r in E by assumption.
    exact E. }
  rewrite Ei in E. apply lxor_cancel_l in E.
  unfold u32 in H1, H2. apply Z.bits_inj'. intros n Hn.
  destruct (Z.lt_ge_cases n 8) as [Hlo|Hhi].
  - apply (f_equal (fun z => Z.testbit z n)) in Ei. unfold i1, i2 in Ei.
    rewrite !Z.land_spec, !Z.lxor_spec, testbit_255, !andb_true_r in Ei by lia.
    destruct (Z.testbit c1 n), (Z.testbit c2 n), (Z.testbit (byte_to_Z v) n);
      (reflexivity || discriminate Ei).
  - apply (f_equal (fun z => Z.testbit z (n - 8))) in E.
    rewrite !Z.shiftr_spec in E by lia.
    replace (n - 8 + 8) with n in E by lia. exact E.
Qed.

(** Two bytes that take a register to the same register are the same. *)
Lemma step_inj_byte (c : Z) (x y : byte) :
  crc32.step c x = crc32.step c y -> x = y.
Proof.
  intros E. unfold crc32.step in E. apply lxor_cancel_r in E.
  assert (Ei : Z.land (Z.lxor c (byte_to_Z x)) 255
               = Z.land (Z.lxor c (byte_to_Z y)) 255).
  { apply table_top_inj; try apply index_range. rewrite E. reflexivity. }
  rewrite <- (byte_of_to_Z x), <- (byte_of_to_Z y). f_equal.
  apply Z.bits_inj'. intros n Hn.
  destruct (Z.lt_ge_cases n 8) as [Hlo|Hhi].
  - apply (f_equal (fun z => Z.testbit z n)) in Ei.
    rewrite !Z.land_spec, !Z.lxor_spec, testbit_255, !andb_true_r in Ei by lia.
    destruct (Z.testbit c n), (Z.testbit (byte_to_Z x) n),
      (Z.testbit (byte_to_Z y) n); (reflexivity || discriminate Ei).
  - rewrite !testbit_byte_high by lia. reflexivity.
Qed.

Lemma fold_step_inj (b : bytes) (c1 c2 : Z) :
  u32 c1 -> u32 c2 ->
  fold_left crc32.step b c1 = fold_left crc32.step b c2 -> c1 = c2.
Proof.
  revert c1 c2. induction b as [|v b IH]; intros c1 c2 H1 H2 E; [exact E|].
  cbn [fold_left] in E.
  apply IH in E; try (apply step_u32; assumption).
  apply (step_inj_crc c1 c2 v H1 H2 E).
Qed.

Lemma complement_inj (a b : Z) :
  crc32.complement a = crc32.complement b -> a = b.
Proof. unfold crc32.complement. apply lxor_cancel_r. Qed.

(** Changing one byte of the data changes the checksum. *)
Lemma Update_detects (c : Z) (a b : bytes) (x y : byte) :
  u32 c -> x <> y ->
  crc32.Update c (a ++ x :: b) <> crc32.Update c (a ++ y :: b).
Proof.
  intros Hc Hxy E. unfold crc32.Update in E. apply complement_inj in E.
  rewrite !fold_left_app in E. cbn [fold_left] in E.
  assert (Hs : u32 (fold_left crc32.step a (crc32.complement c)))
    by (apply fold_step_u32, complement_u32, Hc).
  apply fold_step_inj in E; try (apply step_u32; exact Hs).
  apply step_inj_byte in E. contradiction.
Qed.

Lemma Checksum_detects (k a b : bytes) (x y : byte) :
  x <> y ->
  crc32.ChecksumIEEE (k ++ a ++ x :: b) <> crc32.ChecksumIEEE (k ++ a ++ y :: b).
Proof.
  intros Hxy. unfold crc32.ChecksumIEEE. rewrite !app_assoc.
  apply Update_detects; [|exact Hxy]. unfold u32. split; [lia|reflexivity].
Qed.

End CrcFacts.

(* ================================================================== *)
(** * The claims *)

(** ** Frame of a read with an empty buffer *)

(** C10: a read of the image-stream merger with a destination buffer of
    length zero returns zero bytes and no error, and leaves the transcoder
    as it was: the source, the remaining chunk length, the checksum
    accumulator and the flags are those of the state before the call.  Both
    revisions. *)
Theorem Read_empty_buffer {codec : Codec}
    (p : Repacker.repacker) (q : Reader.Reader) :
  Repacker.Read 0 p = (([], None), p)
  /\ Reader.idatReader_Read 0 q = (([], None), q).
Proof. split; reflexivity. Qed.

(** ** The IDAT chunks written *)

(** C4: whatever the decoder and the compressor do, a call of [handleIDAT]
    appends to the output only chunks of the form: the length of the data
    in four bytes big-endian, the tag IDAT, the data, and the IEEE CRC-32 of
    tag and data in four bytes big-endian.  Such a chunk (with fewer than
    2^32 bytes of data) reads back as an IDAT chunk with this data, which is
    to say that its length field is the length of its data and that its
    checksum field is the checksum recomputed over its type and data.  In
    the later revision the compressed bytes are buffered in the [Reader];
    the buffer is empty and its accumulator reset whenever [handleIDAT] is
    entered, and they are so again when it returns. *)
Theorem IDAT_chunks_wire_format {codec : Codec} (n : Z)
    (p : Repacker.repacker) (q : Reader.Reader) :
  Reader.zbuf q = [] -> Reader.zcrc q = 0 ->
  let wire (d : bytes) : bytes :=
    PutUint32 (len d) ++ IDAT ++ d
    ++ PutUint32 (crc32.ChecksumIEEE (IDAT ++ d)) in
  (exists ds : list bytes,
      Repacker.w (snd (Repacker.handleIDAT n p))
      = Repacker.w p ++ flat_map wire ds)
  /\ (exists ds : list bytes,
         Reader.w (snd (Reader.handleIDAT q)) = Reader.w q ++ flat_map wire ds
         /\ Reader.zbuf (snd (Reader.handleIDAT q)) = []
         /\ Reader.zcrc (snd (Reader.handleIDAT q)) = 0)
  /\ (forall d : bytes,
         len d < 2 ^ 32 ->
         parse_chunks 1 (wire d) = Some [{| kind := IDAT; data := d |}]).
Proof.
  intros Hb Hc wire.
  assert (Hw : forall ds : list bytes, encodes (map idat ds) = flat_map wire ds).
  { induction ds as [|d ds IH]; [reflexivity|].
    cbn [map]. rewrite RepackerRun.encodes_cons, IH. cbn [flat_map].
    unfold wire, encode, idat. cbn [kind data]. rewrite <- !app_assoc.
    reflexivity. }
  split; [|split].
  - destruct (Repacker.handleIDAT n p) as [x p'] eqn:E.
    apply RepackerFacts.handleIDAT_appended in E.
    destruct E as [[ds Hds] _]. exists ds. cbn [snd]. rewrite Hds, Hw.
    reflexivity.
  - destruct (ReaderRun.rd_handleIDAT_writes q Hb Hc) as (ds & H1 & H2 & H3).
    exists ds. rewrite H1, Hw. auto.
  - intros d Hd.
    pose proof (ParseFacts.parse_idats [d]) as P.
    rewrite Hw in P. cbn [length flat_map] in P.
    rewrite app_nil_r in P. apply P. constructor; [exact Hd|constructor].
Qed.

(** [IDAT_chunks_wire_format] at the first IDAT chunk of [Sample.png] and at
    the last read of its decoder. *)
Lemma IDAT_chunks_wire_format_sample :
  let wire (d : bytes) : bytes :=
    PutUint32 (len d) ++ IDAT ++ d
    ++ PutUint32 (crc32.ChecksumIEEE (IDAT ++ d)) in
  (exists ds : list bytes,
      Repacker.w (snd (Repacker.handleIDAT (codec := Stored.exact) 5
                         Cases.run_start))
      = Repacker.w Cases.run_start ++ flat_map wire ds)
  /\ (exists ds : list bytes,
         Reader.w (snd (Reader.handleIDAT Cases.rd_last_read))
         = Reader.w Cases.rd_last_read ++ flat_map wire ds
         /\ Reader.zbuf (snd (Reader.handleIDAT Cases.rd_last_read)) = []
         /\ Reader.zcrc (snd (Reader.handleIDAT Cases.rd_last_read)) = 0)
  /\ (forall d : bytes,
         len d < 2 ^ 32 ->
         parse_chunks 1 (wire d) = Some [{| kind := IDAT; data := d |}]).
Proof.
  apply (@IDAT_chunks_wire_format Stored.exact 5 Cases.run_start
           Cases.rd_last_read); reflexivity.
Defined.

(** ** Pass-through of the other chunks *)

Lemma wf_file : wf_png Cases.file.
Proof.
  unfold wf_png, ancillary, wf_chunk. cbn.
  repeat match goal with
         | |- _ /\ _ => split
         | |- Forall _ _ => constructor
         | |- _ = _ => reflexivity
         | |- _ <= _ => vm_compute; discriminate
         | |- _ <> _ => discriminate
         end.
Qed.

Lemma wf_empty_last : wf_png Cases.empty_last.
Proof.
  unfold wf_png, ancillary, wf_chunk. cbn.
  repeat match goal with
         | |- _ /\ _ => split
         | |- Forall _ _ => constructor
         | |- _ = _ => reflexivity
         | |- _ <= _ => vm_compute; discriminate
         | |- _ <> _ => discriminate
         end.
Qed.




(** ** A second image-data run *)

(** C7, as the claim has it, fails: in [Cases.oversized_second_run] the
    run of [Sample.png] and the chunks after it are followed by the header
    of an IDAT chunk that declares 2^31 bytes.  The length is checked when
    the header is read, before the type is looked at, and both revisions
    fail with the error of a chunk that is too big, not with the ordering
    error. *)
Lemma oversized_second_run_too_big :
  maxChunkLen < Uint32 [x80; x00; x00; x00]
  /\ Repacker.Repack (codec := Stored.exact) Cases.oversized_second_run 6
     = (Some ErrChunkTooBig,
        rebuilt Cases.file
          (Run.repacked (codec := Stored.exact) Cases.writer6 Cases.returns))
  /\ Reader.Repack (codec := Stored.exact) 50 Cases.oversized_second_run 6
     = Some (Some ErrChunkTooBig,
             rebuilt Cases.file
               (Run.reread (codec := Stored.exact) Cases.writer6
                  Cases.returns)).
Proof. repeat split; vm_compute; reflexivity. Qed.

(** C7, amended: when the image-data run of a well-formed file has been
    processed (the decoder read it to the end of its stream) and the chunks
    after it were passed through, an IDAT chunk that follows and declares a
    length of at most 2^31-1 makes [Repack] fail with the ordering error.
    Only the header of that chunk is read, and nothing of it is written: the
    output is what was written before it.  (With a declared length above
    2^31-1 the failure is that of a chunk that is too big.)  Both
    revisions. *)
Theorem second_run_refused {codec : Codec} (f : Png) (h4 rest : bytes)
    (lvl : Z) (zw0 : zwriter) (z : zreader) (s1 s2 : Run.run)
    (outs : list bytes) :
  wf_png f ->
  NewWriterLevel lvl = inl zw0 ->
  Run.open NewReader (run_of f) = (Ok z, s1) ->
  Run.decode z s1 = ((outs, EOF), s2) -> Run.exact s2 ->
  length h4 = 4%nat -> Uint32 h4 <= maxChunkLen ->
  (exists p' : Repacker.repacker,
      Repacker.repack (Repacker.init (png_bytes f ++ h4 ++ IDAT ++ rest) lvl)
      = (Some ErrIDATOrder, p')
      /\ Repacker.w p' = rebuilt f (Run.repacked zw0 outs)
      /\ Repacker.r p' = rest)
  /\ exists fuel : nat,
      Reader.Repack fuel (png_bytes f ++ h4 ++ IDAT ++ rest) lvl
      = Some (Some ErrIDATOrder, rebuilt f (Run.reread zw0 outs)).
Proof.
  intros Hwf Hlvl Hopen Hdec Hex Hh Hsmall. split.
  - destruct (RepackerRun.repack_through f (h4 ++ IDAT ++ rest) lvl zw0 z s1 s2
                outs Hwf Hlvl Hopen Hdec Hex)
      as (p & E & Hr & Hw & _ & Hi & _).
    destruct (RepackerErr.repackChunk_order h4 rest p Hh Hr Hsmall Hi)
      as (p' & E' & Hw' & Hr').
    exists p'. rewrite E.
    rewrite (RepackerFacts.repackLoop_return _ p p' _ E').
    rewrite Hw', Hw. auto.
  - destruct (ReaderRun.rd_through f (h4 ++ IDAT ++ rest) lvl zw0 z s1 s2
                outs Hwf Hlvl Hopen Hdec Hex)
      as (q & Hready & Hr & Hd).
    apply ReaderFacts.Copies_Drains, Hd.
    apply (ReaderErr.rd_order h4 rest lvl q _ Hready Hh Hr Hsmall).
Qed.

(** [second_run_refused] on [Sample.png] followed by one more IDAT chunk. *)
Lemma second_run_refused_sample :
  (exists p' : Repacker.repacker,
      Repacker.repack (codec := Stored.exact)
        (Repacker.init
           (png_bytes Cases.file ++ [x00; x00; x00; x01] ++ IDAT ++ [x00]) 6)
      = (Some ErrIDATOrder, p')
      /\ Repacker.w p'
         = rebuilt Cases.file
             (Run.repacked (codec := Stored.exact) Cases.writer6 Cases.returns)
      /\ Repacker.r p' = [x00])
  /\ exists fuel : nat,
      Reader.Repack (codec := Stored.exact) fuel
        (png_bytes Cases.file ++ [x00; x00; x00; x01] ++ IDAT ++ [x00]) 6
      = Some (Some ErrIDATOrder,
              rebuilt Cases.file
                (Run.reread (codec := Stored.exact) Cases.writer6
                   Cases.returns)).
Proof.
  eapply (@second_run_refused Stored.exact Cases.file [x00; x00; x00; x01]
            [x00] 6 Cases.writer6 _ _ _ Cases.returns).
  - exact wf_file.
  - reflexivity.
  - reflexivity.
  - reflexivity.
  - repeat split.
  - reflexivity.
  - vm_compute. discriminate.
Defined.

(** ** A chunk whose checksum does not match *)

(** C5, as the claim has it, fails: in [Cases.corrupted] the second data
    byte of the [tEXt] chunk was changed and its CRC field kept.  [Repack]
    fails with the checksum error, yet the header and the two data bytes of
    that chunk are in the output already, which therefore does not read back
    as a sequence of chunks. *)
Lemma corrupted_chunk_already_written :
  Repacker.Repack (codec := Stored.exact) Cases.corrupted 6
  = (Some ErrChecksum,
     pngHeader ++ encode Sample.ihdr
     ++ PutUint32 2 ++ Sample.tEXt ++ [x68; x6a])
  /\ Reader.Repack (codec := Stored.exact) 50 Cases.corrupted 6
     = Some (Some ErrChecksum,
             pngHeader ++ encode Sample.ihdr
             ++ PutUint32 2 ++ Sample.tEXt ++ [x68; x6a])
  /\ parse_png (pngHeader ++ encode Sample.ihdr
                ++ PutUint32 2 ++ Sample.tEXt ++ [x68; x6a]) = None.
Proof. repeat split; vm_compute; reflexivity. Qed.

(** C5, amended: at a chunk boundary, a chunk that is not IDAT and whose
    CRC field differs from the checksum of its type and data makes the
    operation fail with the checksum error.  Its header and its data are
    written as they are read, before the CRC field is read; the CRC field is
    not written, and nothing after the chunk is read or written.  In the
    earlier revision the boundary is any state in which the loop of [repack]
    starts a round; in the later one it is a state that [ReaderInv.ready]
    describes, [out] being what the sink has received. *)
Theorem bad_checksum_stops_after_payload {codec : Codec}
    (k d c4 rest : bytes) (lvl : Z) (seen : bool) (fuel : nat)
    (p : Repacker.repacker) (q : Reader.Reader) (out : bytes) :
  length k = 4%nat -> k <> IDAT -> len d <= maxChunkLen ->
  length c4 = 4%nat ->
  Uint32 c4 <> crc32.ChecksumIEEE (k ++ d) ->
  Repacker.r p = PutUint32 (len d) ++ k ++ d ++ c4 ++ rest ->
  ReaderInv.ready lvl seen q ->
  Reader.r q = PutUint32 (len d) ++ k ++ d ++ c4 ++ rest ->
  (exists p' : Repacker.repacker,
      Repacker.repackLoop fuel p = (Some ErrChecksum, p')
      /\ Repacker.w p' = Repacker.w p ++ PutUint32 (len d) ++ k ++ d
      /\ Repacker.r p' = rest)
  /\ ReaderInv.Copies q out
       (Some ErrChecksum, out ++ PutUint32 (len d) ++ k ++ d).
Proof.
  intros Hk Hn Hl Hc Hbad Hrp Hready Hrq. split.
  - destruct (RepackerErr.repackChunk_bad_crc k d c4 rest p Hk Hn Hl Hc Hbad Hrp)
      as (p' & E & Hw & Hr).
    exists p'. rewrite (RepackerFacts.repackLoop_return fuel p p' _ E). auto.
  - apply ReaderFacts.Copies_Drains.
    apply (ReaderErr.rd_bad_crc k d c4 rest lvl seen q out Hready Hk Hn Hl Hc
             Hbad Hrq).
Qed.

(** [bad_checksum_stops_after_payload] at the corrupted chunk of
    [Cases.corrupted]. *)
Lemma bad_checksum_stops_after_payload_sample :
  (exists p' : Repacker.repacker,
      Repacker.repackLoop (codec := Stored.exact) 10
        (Repacker.init (Cases.corrupted_text ++ encode Sample.iend) 6)
      = (Some ErrChecksum, p')
      /\ Repacker.w p'
         = Repacker.w (Repacker.init (Cases.corrupted_text ++ encode Sample.iend) 6)
           ++ PutUint32 (len [x68; x6a]) ++ Sample.tEXt ++ [x68; x6a]
      /\ Repacker.r p' = encode Sample.iend)
  /\ ReaderInv.Copies
       (Cases.rd_at_chunk (Cases.corrupted_text ++ encode Sample.iend)) []
       (Some ErrChecksum,
        [] ++ PutUint32 (len [x68; x6a]) ++ Sample.tEXt ++ [x68; x6a]).
Proof.
  apply (@bad_checksum_stops_after_payload Stored.exact Sample.tEXt [x68; x6a]
           (PutUint32 (crc32.ChecksumIEEE (Sample.tEXt ++ data Sample.text)))
           (encode Sample.iend) 6 false 10
           (Repacker.init (Cases.corrupted_text ++ encode Sample.iend) 6)
           (Cases.rd_at_chunk (Cases.corrupted_text ++ encode Sample.iend)) []).
  - reflexivity.
  - discriminate.
  - vm_compute. discriminate.
  - reflexivity.
  - vm_compute. discriminate.
  - vm_compute. reflexivity.
  - repeat split.
  - vm_compute. reflexivity.
Defined.

(** ** Validation of the header chunk *)




(** ** The compressed stream written by the earlier revision *)

(** C1 at [Sample.png], whose image data is [Sample.pixels].  The earlier
    revision reports success at levels 6 and 9, and its output reads back as
    chunks; but what the compressor appends when it is closed is appended
    after the last IDAT chunk was written and is never written itself, so
    the compressed stream of the output has no end, and decompressing it
    fails with an unexpected end of input.  The later revision closes the
    compressor before it writes the last chunk: its output decompresses to
    the image data of the input at both levels. *)
Theorem Repacker_stream_not_closed :
  pixels_of (codec := Stored.exact) Sample.png = Some (Ok Sample.pixels)
  /\ fst (Repacker.Repack (codec := Stored.exact) Sample.png 6) = None
  /\ pixels_of (codec := Stored.exact)
       (snd (Repacker.Repack (codec := Stored.exact) Sample.png 6))
     = Some (Err ErrUnexpectedEOF)
  /\ fst (Repacker.Repack (codec := Stored.exact) Sample.png 9) = None
  /\ pixels_of (codec := Stored.exact)
       (snd (Repacker.Repack (codec := Stored.exact) Sample.png 9))
     = Some (Err ErrUnexpectedEOF)
  /\ (forall lvl : Z, lvl = 6 \/ lvl = 9 ->
      exists out : bytes,
        Reader.Repack (codec := Stored.exact) 50 Sample.png lvl
        = Some (None, out)
        /\ pixels_of (codec := Stored.exact) out = Some (Ok Sample.pixels)).
Proof.
  split; [vm_compute; reflexivity|].
  split; [vm_compute; reflexivity|].
  split; [vm_compute; reflexivity|].
  split; [vm_compute; reflexivity|].
  split; [vm_compute; reflexivity|].
  intros lvl [E|E]; subst lvl; eexists; (split; [vm_compute; reflexivity|]);
    vm_compute; reflexivity.
Qed.

(** ** The chunk after the run *)

(** C3, as the claim has it, fails: on [Sample.png] the run completes and
    the merger has consumed no header of a chunk after it.  In the earlier
    revision, after the round of the loop that processed the run,
    [haveLastChunk] is false and the source stands at the header of the
    [tEXt] chunk, which the next round reads from the source with [chunk];
    in the later revision, after the eight calls of [refill] that take it
    through the run (each returns without an error, and what it buffered is
    handed to the sink), [readNonIDAT] is false and [chunkHeader] reads
    that header from the source.  Both revisions succeed on the file. *)
Lemma trailer_header_left_in_source :
  (let p1 := snd (Repacker.header (Repacker.init Sample.png 6)) in
   let '(x2, p2) := Repacker.repackChunk (codec := Stored.exact) p1 in
   let '(x3, p3) := Repacker.repackChunk (codec := Stored.exact) p2 in
   fst (Repacker.header (Repacker.init Sample.png 6)) = Ok tt
   /\ x2 = None /\ x3 = None
   /\ Repacker.haveIDAT p3 = true
   /\ Repacker.haveLastChunk p3 = false
   /\ Repacker.r p3 = encodes [Sample.text; Sample.iend]
   /\ fst (Repacker.chunk p3) = Ok (2, Sample.tEXt)
   /\ Repacker.r (snd (Repacker.chunk p3))
      = skipn 8 (encodes [Sample.text; Sample.iend]))
  /\ fst (Repacker.Repack (codec := Stored.exact) Sample.png 6) = None
  /\ (let step (q : Reader.Reader (codec := Stored.exact)) :=
        Reader.set_w [] (snd (Reader.refill q)) in
      let q8 := Nat.iter 8 step (Reader.New Sample.png 6) in
      forallb (fun n : nat =>
                 match fst (Reader.refill
                              (Nat.iter n step (Reader.New Sample.png 6))) with
                 | Ok _ => true
                 | Err _ => false
                 end) (seq 0 8) = true
      /\ Reader.processedIDAT q8 = true
      /\ Reader.readNonIDAT q8 = false
      /\ Reader.r q8 = encodes [Sample.text; Sample.iend]
      /\ fst (Reader.chunkHeader q8) = Ok (2, Sample.tEXt)
      /\ Reader.r (snd (Reader.chunkHeader q8))
         = skipn 8 (encodes [Sample.text; Sample.iend]))
  /\ option_map fst (Reader.Repack (codec := Stored.exact) 50 Sample.png 6)
     = Some None.
Proof.
  split; [vm_compute; repeat split|].
  split; [vm_compute; reflexivity|].
  split; [|vm_compute; reflexivity].
  cbv zeta.
  split; [vm_compute; reflexivity|].
  split; [vm_compute; reflexivity|].
  split; [vm_compute; reflexivity|].
  split; [vm_compute; reflexivity|].
  split; vm_compute; reflexivity.
Qed.

(** C3, amended: when the image-data run of a well-formed file completes
    (the decoder reaches the end of its stream having read the run exactly
    to the end of its last chunk), the merger has consumed no chunk header:
    the flag for a header already read ([haveLastChunk], [readNonIDAT]) is
    false, the source stands at the first byte of the chunk after the run,
    and the output holds everything up to the rewritten run.  The loop goes
    on as at any chunk boundary: it reads the header of each chunk after the
    run from the source, and these chunks are passed through, header, data
    and checksum, each byte of the source being read once; what follows them
    in the source ([rest]) is left for the next round.  Both revisions; for
    the later one [ReaderInv.Drains] relates what the copy returns from a
    state, given what the sink has received, to what it returns from the
    start. *)
Theorem trailer_read_from_source {codec : Codec} (f : Png) (rest : bytes)
    (lvl : Z) (zw0 : zwriter) (z : zreader) (s1 s2 : Run.run)
    (outs : list bytes) :
  wf_png f ->
  NewWriterLevel lvl = inl zw0 ->
  Run.open NewReader (run_of f) = (Ok z, s1) ->
  Run.decode z s1 = ((outs, EOF), s2) -> Run.exact s2 ->
  (exists p p' : Repacker.repacker,
      Repacker.repack (Repacker.init (png_bytes f ++ rest) lvl)
      = Repacker.repackLoop (length (Repacker.r p)) p
      /\ Repacker.haveLastChunk p = false
      /\ Repacker.r p = encodes (post f) ++ rest
      /\ Repacker.w p
         = pngHeader ++ encode {| kind := IHDR; data := ihdr f |}
           ++ encodes (pre f) ++ encodes (map idat (Run.repacked zw0 outs))
      /\ Repacker.repackLoop (length (Repacker.r p)) p
         = Repacker.repackLoop (length (Repacker.r p')) p'
      /\ Repacker.r p' = rest
      /\ Repacker.w p' = Repacker.w p ++ encodes (post f))
  /\ (exists q q' : Reader.Reader,
         ReaderInv.ready lvl true q
         /\ Reader.readNonIDAT q = false
         /\ Reader.r q = encodes (post f) ++ rest
         /\ (forall res : option error * bytes,
                ReaderInv.Drains q
                  (pngHeader ++ encode {| kind := IHDR; data := ihdr f |}
                   ++ encodes (pre f)
                   ++ encodes (map idat (Run.reread zw0 outs))) res ->
                ReaderInv.Drains (Reader.New (png_bytes f ++ rest) lvl) [] res)
         /\ ReaderInv.ready lvl true q'
         /\ Reader.r q' = rest
         /\ (forall (out : bytes) (res : option error * bytes),
                ReaderInv.Drains q' (out ++ encodes (post f)) res ->
                ReaderInv.Drains q out res)).
Proof.
  intros Hwf Hlvl Hopen Hdec Hex.
  set (f0 := {| ihdr := ihdr f; pre := pre f; idat0 := idat0 f;
                idats := idats f; post := [] |}).
  assert (Hwf0 : wf_png f0).
  { destruct Hwf as (H1 & H2 & H3 & H4 & _).
    repeat split; try assumption. constructor. }
  assert (Hb : png_bytes f0 ++ encodes (post f) ++ rest = png_bytes f ++ rest).
  { unfold png_bytes, f0. cbn [ihdr pre idat0 idats post encodes flat_map].
    rewrite app_nil_r, <- !app_assoc. reflexivity. }
  assert (Hpost : Forall ancillary (post f)) by apply Hwf.
  split.
  - destruct (RepackerRun.repack_through f0 (encodes (post f) ++ rest) lvl zw0
                z s1 s2 outs Hwf0 Hlvl Hopen Hdec Hex)
      as (p & E & Hr & Hw & _ & _ & Hl).
    destruct (RepackerFacts.repackLoop_pass (post f) rest p Hpost Hr)
      as (p' & E' & Hr' & Hw' & _).
    exists p, p'. rewrite <- Hb, E.
    split; [reflexivity|]. split; [exact Hl|]. split; [exact Hr|].
    split; [|split; [exact E'|split; [exact Hr'|exact Hw']]].
    rewrite Hw. unfold f0. cbn [ihdr pre post encodes flat_map].
    rewrite app_nil_r. reflexivity.
  - destruct (ReaderRun.rd_through f0 (encodes (post f) ++ rest) lvl zw0
                z s1 s2 outs Hwf0 Hlvl Hopen Hdec Hex)
      as (q & Hrd & Hr & HD).
    destruct (ReaderFacts.rd_pass_list (post f) rest lvl true q Hpost Hrd Hr)
      as (q' & Hrd' & Hr' & HD').
    exists q, q'.
    split; [exact Hrd|]. split; [apply Hrd|]. split; [exact Hr|].
    split; [|split; [exact Hrd'|split; [exact Hr'|exact HD']]].
    intros res H. rewrite <- Hb. apply HD.
    unfold f0. cbn [ihdr pre post encodes flat_map].
    rewrite app_nil_r. exact H.
Qed.

(** [trailer_read_from_source] on [Sample.png] followed by one more chunk. *)
Lemma trailer_read_from_source_sample :
  (exists p p' : Repacker.repacker,
      Repacker.repack (codec := Stored.exact)
        (Repacker.init (png_bytes Cases.file ++ Cases.second_run) 6)
      = Repacker.repackLoop (codec := Stored.exact) (length (Repacker.r p)) p
      /\ Repacker.haveLastChunk p = false
      /\ Repacker.r p = encodes (post Cases.file) ++ Cases.second_run
      /\ Repacker.w p
         = pngHeader ++ encode {| kind := IHDR; data := ihdr Cases.file |}
           ++ encodes (pre Cases.file)
           ++ encodes (map idat (Run.repacked (codec := Stored.exact)
                                   Cases.writer6 Cases.returns))
      /\ Repacker.repackLoop (codec := Stored.exact) (length (Repacker.r p)) p
         = Repacker.repackLoop (codec := Stored.exact) (length (Repacker.r p')) p'
      /\ Repacker.r p' = Cases.second_run
      /\ Repacker.w p' = Repacker.w p ++ encodes (post Cases.file))
  /\ (exists q q' : Reader.Reader (codec := Stored.exact),
         ReaderInv.ready 6 true q
         /\ Reader.readNonIDAT q = false
         /\ Reader.r q = encodes (post Cases.file) ++ Cases.second_run
         /\ (forall res : option error * bytes,
                ReaderInv.Drains q
                  (pngHeader
                   ++ encode {| kind := IHDR; data := ihdr Cases.file |}
                   ++ encodes (pre Cases.file)
                   ++ encodes (map idat (Run.reread (codec := Stored.exact)
                                           Cases.writer6 Cases.returns))) res ->
                ReaderInv.Drains
                  (Reader.New (codec := Stored.exact) (png_bytes Cases.file ++ Cases.second_run) 6)
                  [] res)
         /\ ReaderInv.ready 6 true q'
         /\ Reader.r q' = Cases.second_run
         /\ (forall (out : bytes) (res : option error * bytes),
                ReaderInv.Drains q' (out ++ encodes (post Cases.file)) res ->
                ReaderInv.Drains q out res)).
Proof.
  eapply (@trailer_read_from_source Stored.exact Cases.file Cases.second_run 6
            Cases.writer6 _ _ _ Cases.returns).
  - exact wf_file.
  - reflexivity.
  - reflexivity.
  - reflexivity.
  - repeat split.
Defined.

(** ** The checksum accumulator at a chunk boundary *)


(** ** A declared length above 2^31-1 *)

(** C9 at [Cases.short_then_huge]: the compressed stream stops short in the
    only IDAT chunk, so the decoder asks for more, and the merger reads the
    next header, which declares 2^31 bytes and is not IDAT.  The earlier
    revision answers the decoder with the end of its input without looking
    at the length, and the operation fails with the decoder's error, which
    is not an error of a chunk that is too large; its own check of that
    length comes only after the decoder has returned without an error.  The
    later revision checks the length as soon as it has read the header and
    fails with the error of a chunk that is too big. *)
Theorem huge_chunk_after_short_stream :
  maxChunkLen < Uint32 (firstn 4 (skipn 50 Cases.short_then_huge))
  /\ Repacker.Repack (codec := Stored.exact) Cases.short_then_huge 6
     = (Some ErrUnexpectedEOF, pngHeader ++ encode Sample.ihdr)
  /\ chunk_too_large ErrUnexpectedEOF = false
  /\ Reader.Repack (codec := Stored.exact) 50 Cases.short_then_huge 6
     = Some (Some ErrChunkTooBig, pngHeader ++ encode Sample.ihdr)
  /\ chunk_too_large ErrChunkTooBig = true.
Proof. repeat split; vm_compute; reflexivity. Qed.

(* ================================================================== *)
(** * Further properties of the two revisions *)

(** ** Inputs that are refused at once *)

(** X1: an input whose first eight bytes are not the PNG signature is
    refused as not a PNG file, and nothing is written.  Both revisions. *)
Theorem not_a_PNG_refused {codec : Codec} (sig8 rest : bytes) (lvl : Z) :
  length sig8 = 8%nat -> sig8 <> pngHeader ->
  Repacker.Repack (sig8 ++ rest) lvl = (Some ErrNotPNG, [])
  /\ exists fuel : nat,
      Reader.Repack fuel (sig8 ++ rest) lvl = Some (Some ErrNotPNG, []).
Proof.
  intros Hl Hne. split.
  - unfold Repacker.Repack, Repacker.repack.
    destruct (EdgeFacts.header_not_png sig8 rest
                (Repacker.init (sig8 ++ rest) lvl) Hl Hne eq_refl)
      as (p' & E & Hw & _).
    rewrite E, Hw. reflexivity.
  - destruct (EdgeFacts.refill_not_png sig8 rest lvl Hl Hne) as (p' & E).
    apply ReaderFacts.Copies_Drains.
    apply (ReaderInv.Drains_err (Reader.New (sig8 ++ rest) lvl) p' []
             ErrNotPNG eq_refl eq_refl E).
    discriminate.
Qed.

(** [not_a_PNG_refused] on the first bytes of a JPEG file. *)
Lemma not_a_PNG_refused_sample :
  Repacker.Repack (codec := Stored.exact)
    ([xff; xd8; xff; xe0; x00; x10; x4a; x46] ++ [x49; x46; x00]) 6
  = (Some ErrNotPNG, [])
  /\ exists fuel : nat,
      Reader.Repack (codec := Stored.exact) fuel
        ([xff; xd8; xff; xe0; x00; x10; x4a; x46] ++ [x49; x46; x00]) 6
      = Some (Some ErrNotPNG, []).
Proof.
  apply (@not_a_PNG_refused Stored.exact
           [xff; xd8; xff; xe0; x00; x10; x4a; x46] [x49; x46; x00] 6).
  - reflexivity.
  - discriminate.
Defined.

(** X2: an input of fewer than eight bytes.  The earlier revision fails
    with the error of [io.ReadFull]: [io.EOF] for the empty input and
    [io.ErrUnexpectedEOF] otherwise.  The later revision fails in the same
    way on one to seven bytes, but takes the [io.EOF] of the empty input for
    the end of the stream and returns no error.  Nothing is written in
    either case. *)
Theorem input_shorter_than_signature {codec : Codec} (input : bytes) (lvl : Z) :
  (length input < 8)%nat ->
  Repacker.Repack input lvl = (Some (short_error input), [])
  /\ exists fuel : nat,
      Reader.Repack fuel input lvl
      = Some (match input with
              | [] => None
              | _ => Some ErrUnexpectedEOF
              end, []).
Proof.
  intros Hl. split.
  - unfold Repacker.Repack, Repacker.repack.
    destruct (EdgeFacts.header_short (Repacker.init input lvl) Hl)
      as (p' & E & Hw & _).
    rewrite E, Hw. reflexivity.
  - destruct (EdgeFacts.refill_short input lvl Hl) as (p' & E & Hw).
    apply ReaderFacts.Copies_Drains.
    destruct input as [|b0 input'].
    + cbn [short_error] in E.
      pose proof (ReaderInv.Drains_eof (Reader.New [] lvl) p' [] eq_refl
                    eq_refl E) as D.
      rewrite Hw in D. exact D.
    + cbn [short_error] in E.
      apply (ReaderInv.Drains_err (Reader.New (b0 :: input') lvl) p' []
               ErrUnexpectedEOF eq_refl eq_refl E).
      discriminate.
Qed.

(** [input_shorter_than_signature] on the first four bytes of the
    signature. *)
Lemma input_shorter_than_signature_sample :
  Repacker.Repack (codec := Stored.exact) [x89; x50; x4e; x47] 6
  = (Some (short_error [x89; x50; x4e; x47]), [])
  /\ exists fuel : nat,
      Reader.Repack (codec := Stored.exact) fuel [x89; x50; x4e; x47] 6
      = Some (Some ErrUnexpectedEOF, []).
Proof.
  apply (@input_shorter_than_signature Stored.exact [x89; x50; x4e; x47] 6).
  cbn. lia.
Defined.

(** ** Files without image data *)

(** X3: a file that is the signature, a header chunk and chunks other than
    IDAT, all with the checksums they declare, and that ends after the last
    of them, is copied as it is, at any level; the compressor is never asked
    for, so that a level it would refuse is accepted too.  Neither an IDAT
    chunk nor a closing IEND chunk is required.  Both revisions. *)
Theorem file_without_IDAT_copied {codec : Codec} (d13 : bytes)
    (cs : list Chunk) (lvl : Z) :
  length d13 = 13%nat -> nth 10 d13 x00 = x00 -> Forall ancillary cs ->
  let input :=
    pngHeader ++ encode {| kind := IHDR; data := d13 |} ++ encodes cs in
  Repacker.Repack input lvl = (None, input)
  /\ exists fuel : nat, Reader.Repack fuel input lvl = Some (None, input).
Proof.
  intros Hl H10 Hcs input.
  assert (Hin : input = pngHeader ++ encode {| kind := IHDR; data := d13 |}
                        ++ encodes cs ++ []).
  { unfold input. rewrite app_nil_r. reflexivity. }
  split.
  - destruct (RepackerRun.repack_before d13 cs [] lvl Hl H10 Hcs)
      as (p & E & Hr & Hw & _).
    destruct (RepackerFacts.repackChunk_eof p Hr) as (p' & E' & Hw').
    unfold Repacker.Repack. rewrite Hin, E.
    rewrite (RepackerFacts.repackLoop_return _ p p' _ E'), Hw', Hw.
    rewrite app_nil_r. reflexivity.
  - destruct (ReaderRun.rd_before d13 cs [] lvl Hl H10 Hcs)
      as (q & Hready & Hr & Hd).
    apply ReaderFacts.Copies_Drains. rewrite Hin. apply Hd.
    rewrite <- Hin. apply (ReaderFacts.rd_eof lvl false q _ Hready Hr).
Qed.

(** [file_without_IDAT_copied] on a header chunk, a [tEXt] chunk and an
    IEND chunk, at a level that no compressor takes. *)
Lemma file_without_IDAT_copied_sample :
  let input :=
    pngHeader ++ encode {| kind := IHDR; data := data Sample.ihdr |}
    ++ encodes [Sample.text; Sample.iend] in
  Repacker.Repack (codec := Stored.exact) input 99 = (None, input)
  /\ exists fuel : nat,
      Reader.Repack (codec := Stored.exact) fuel input 99 = Some (None, input).
Proof.
  apply (@file_without_IDAT_copied Stored.exact (data Sample.ihdr)
           [Sample.text; Sample.iend] 99).
  - reflexivity.
  - reflexivity.
  - unfold ancillary, wf_chunk.
    repeat constructor; try discriminate; vm_compute; discriminate.
Defined.

(** ** A declared length above 2^31-1 at a chunk boundary *)

(** X4: after the header chunk and chunks other than IDAT, a chunk header
    that declares more than 2^31-1 bytes makes the operation fail with the
    error of a chunk that is too big, whatever the type of the chunk (IDAT
    included).  Nothing of that chunk is written: the output is the input up
    to it.  Both revisions. *)
Theorem oversized_chunk_refused {codec : Codec} (d13 : bytes)
    (cs : list Chunk) (h4 k rest : bytes) (lvl : Z) :
  length d13 = 13%nat -> nth 10 d13 x00 = x00 -> Forall ancillary cs ->
  length h4 = 4%nat -> length k = 4%nat -> maxChunkLen < Uint32 h4 ->
  let before :=
    pngHeader ++ encode {| kind := IHDR; data := d13 |} ++ encodes cs in
  Repacker.Repack (before ++ h4 ++ k ++ rest) lvl
  = (Some ErrChunkTooBig, before)
  /\ exists fuel : nat,
      Reader.Repack fuel (before ++ h4 ++ k ++ rest) lvl
      = Some (Some ErrChunkTooBig, before).
Proof.
  intros Hl H10 Hcs Hh Hk Hbig before.
  assert (Hin : before ++ h4 ++ k ++ rest
                = pngHeader ++ encode {| kind := IHDR; data := d13 |}
                  ++ encodes cs ++ h4 ++ k ++ rest).
  { unfold before. rewrite <- !app_assoc. reflexivity. }
  rewrite Hin. split.
  - destruct (RepackerRun.repack_before d13 cs (h4 ++ k ++ rest) lvl Hl H10 Hcs)
      as (p & E & Hr & Hw & _).
    destruct (RepackerErr.repackChunk_too_big h4 k rest p Hh Hk Hr Hbig)
      as (p' & E' & Hw' & _).
    unfold Repacker.Repack. rewrite E.
    rewrite (RepackerFacts.repackLoop_return _ p p' _ E'), Hw', Hw.
    reflexivity.
  - destruct (ReaderRun.rd_before d13 cs (h4 ++ k ++ rest) lvl Hl H10 Hcs)
      as (q & Hready & Hr & Hd).
    apply ReaderFacts.Copies_Drains, Hd.
    apply (ReaderErr.rd_too_big h4 k rest lvl false q _ Hready Hh Hk Hr Hbig).
Qed.

(** [oversized_chunk_refused] on an IDAT chunk that declares 2^32-1 bytes,
    after a header chunk and a [tEXt] chunk. *)
Lemma oversized_chunk_refused_sample :
  let before :=
    pngHeader ++ encode {| kind := IHDR; data := data Sample.ihdr |}
    ++ encodes [Sample.text] in
  Repacker.Repack (codec := Stored.exact)
    (before ++ [xff; xff; xff; xff] ++ IDAT ++ [x78; x06]) 6
  = (Some ErrChunkTooBig, before)
  /\ exists fuel : nat,
      Reader.Repack (codec := Stored.exact) fuel
        (before ++ [xff; xff; xff; xff] ++ IDAT ++ [x78; x06]) 6
      = Some (Some ErrChunkTooBig, before).
Proof.
  apply (@oversized_chunk_refused Stored.exact (data Sample.ihdr)
           [Sample.text] [xff; xff; xff; xff] IDAT [x78; x06] 6).
  - reflexivity.
  - reflexivity.
  - unfold ancillary, wf_chunk.
    repeat constructor; try discriminate; vm_compute; discriminate.
  - reflexivity.
  - reflexivity.
  - vm_compute. reflexivity.
Defined.

(** ** The output as a PNG file *)

(** X5: for a well-formed file whose run the decoder reads exactly to the
    end of its stream, and as long as the compressor gives less than 2^32
    bytes at a time, the output of either revision reads back as a sequence
    of chunks whose checksums all verify: the header chunk, the chunks
    before the run, the IDAT chunks written, and the chunks after the run.
    The concatenated data of its IDAT chunks is what the compressor gave:
    for each read of the decoder the bytes of [Write] and [Flush] (the
    earlier revision skips reads that return nothing), and in the later
    revision the bytes of [Close] at the end. *)
Theorem output_reads_back {codec : Codec} (f : Png) (lvl : Z)
    (zw0 : zwriter) (z : zreader) (s1 s2 : Run.run) (outs : list bytes) :
  wf_png f ->
  NewWriterLevel lvl = inl zw0 ->
  Run.open NewReader (run_of f) = (Ok z, s1) ->
  Run.decode z s1 = ((outs, EOF), s2) -> Run.exact s2 ->
  Forall (fun d => len d < 2 ^ 32) (Run.repacked zw0 outs) ->
  Forall (fun d => len d < 2 ^ 32) (Run.reread zw0 outs) ->
  (exists out : bytes,
      Repacker.Repack (png_bytes f) lvl = (None, out)
      /\ parse_png out = Some (chunks_of f (Run.repacked zw0 outs))
      /\ idat_stream (chunks_of f (Run.repacked zw0 outs))
         = concat (Run.repacked zw0 outs))
  /\ (exists (fuel : nat) (out : bytes),
         Reader.Repack fuel (png_bytes f) lvl = Some (None, out)
         /\ parse_png out = Some (chunks_of f (Run.reread zw0 outs))
         /\ idat_stream (chunks_of f (Run.reread zw0 outs))
            = concat (Run.reread zw0 outs)).
Proof.
  intros Hwf Hlvl Hopen Hdec Hex H1 H2. split.
  - exists (rebuilt f (Run.repacked zw0 outs)).
    split; [apply (RepackerRun.Repack_exact f lvl zw0 z s1 s2 outs); assumption|].
    apply ParseFacts.parse_rebuilt; assumption.
  - destruct (ReaderRun.rd_Repack_exact f lvl zw0 z s1 s2 outs Hwf Hlvl Hopen
                Hdec Hex) as (fuel & E).
    exists fuel, (rebuilt f (Run.reread zw0 outs)).
    split; [exact E|]. apply ParseFacts.parse_rebuilt; assumption.
Qed.

(** [output_reads_back] on [Sample.png]. *)
Lemma output_reads_back_sample :
  (exists out : bytes,
      Repacker.Repack (codec := Stored.exact) (png_bytes Cases.file) 6
      = (None, out)
      /\ parse_png out
         = Some (chunks_of Cases.file
                   (Run.repacked (codec := Stored.exact) Cases.writer6
                      Cases.returns))
      /\ idat_stream
           (chunks_of Cases.file
              (Run.repacked (codec := Stored.exact) Cases.writer6 Cases.returns))
         = concat (Run.repacked (codec := Stored.exact) Cases.writer6
                     Cases.returns))
  /\ (exists (fuel : nat) (out : bytes),
         Reader.Repack (codec := Stored.exact) fuel (png_bytes Cases.file) 6
         = Some (None, out)
         /\ parse_png out
            = Some (chunks_of Cases.file
                      (Run.reread (codec := Stored.exact) Cases.writer6
                         Cases.returns))
         /\ idat_stream
              (chunks_of Cases.file
                 (Run.reread (codec := Stored.exact) Cases.writer6
                    Cases.returns))
            = concat (Run.reread (codec := Stored.exact) Cases.writer6
                        Cases.returns)).
Proof.
  eapply (@output_reads_back Stored.exact Cases.file 6 Cases.writer6
            _ _ _ Cases.returns).
  - exact wf_file.
  - reflexivity.
  - reflexivity.
  - reflexivity.
  - repeat split.
  - repeat constructor.
  - repeat constructor.
Defined.

(** ** A run that cannot be entered *)

(** X6: a level that [zlib.NewWriterLevel] refuses is reported when the
    first IDAT chunk is reached, after the decoder has read the head of the
    stream: the operation fails with the error of [zlib.NewWriterLevel],
    and the output is the input up to the run.  Both revisions.  (A file
    without IDAT chunks is copied at such a level, see
    [file_without_IDAT_copied].) *)
Theorem level_refused_at_first_IDAT {codec : Codec} (f : Png) (lvl : Z)
    (z : zreader) (s1 : Run.run) (e : error) :
  wf_png f ->
  Run.open NewReader (run_of f) = (Ok z, s1) -> Run.polled s1 = false ->
  NewWriterLevel lvl = inr e -> e <> EOF ->
  let before :=
    pngHeader ++ encode {| kind := IHDR; data := ihdr f |} ++ encodes (pre f) in
  Repacker.Repack (png_bytes f) lvl = (Some e, before)
  /\ exists fuel : nat,
      Reader.Repack fuel (png_bytes f) lvl = Some (Some e, before).
Proof.
  intros (Hl & H10 & Hpre & Hlen & _) Hopen Hp1 Hlvl Hne before.
  unfold png_bytes. split.
  - destruct (RepackerRun.repack_before (ihdr f) (pre f)
                (encodes (map idat (idat0 f :: idats f)) ++ encodes (post f))
                lvl Hl H10 Hpre)
      as (p & E & Hr & Hw & Hlv & Hi & Hh).
    destruct (RunFail.repackChunk_open (encodes (post f)) (idat0 f) (idats f)
                p (Ok z) s1 Hr Hi Hh Hlen Hopen Hp1) as (p1 & Hw1 & H1).
    unfold Repacker.Repack. rewrite E.
    rewrite (RepackerFacts.repackLoop_return _ p p1 (Some e)).
    + rewrite Hw1, Hw. reflexivity.
    + apply H1. right. exists z. rewrite Hlv. auto.
  - destruct (ReaderRun.rd_before (ihdr f) (pre f)
                (encodes (map idat (idat0 f :: idats f)) ++ encodes (post f))
                lvl Hl H10 Hpre)
      as (q & Hready & Hr & Hd).
    apply ReaderFacts.Copies_Drains, Hd.
    apply (RunFail.rd_open (encodes (post f)) (idat0 f) (idats f) lvl q
             (Ok z) s1 e _ Hready Hr Hlen Hopen Hp1 Hne).
    right. exists z. auto.
Qed.

(** [level_refused_at_first_IDAT] on [Sample.png] at level 99. *)
Lemma level_refused_at_first_IDAT_sample :
  let before :=
    pngHeader ++ encode {| kind := IHDR; data := ihdr Cases.file |}
    ++ encodes (pre Cases.file) in
  Repacker.Repack (codec := Stored.exact) (png_bytes Cases.file) 99
  = (Some (ErrZlib 3), before)
  /\ exists fuel : nat,
      Reader.Repack (codec := Stored.exact) fuel (png_bytes Cases.file) 99
      = Some (Some (ErrZlib 3), before).
Proof.
  eapply (@level_refused_at_first_IDAT Stored.exact Cases.file 99 _ _
            (ErrZlib 3)).
  - exact wf_file.
  - reflexivity.
  - reflexivity.
  - reflexivity.
  - discriminate.
Defined.

(** X7: when [zlib.NewReader] refuses the head of the compressed stream,
    the operation fails with the decoder's error, and the output is the
    input up to the run: no IDAT chunk is written.  Both revisions. *)
Theorem stream_refused_by_decoder {codec : Codec} (f : Png) (lvl : Z)
    (s1 : Run.run) (e : error) :
  wf_png f ->
  Run.open NewReader (run_of f) = (Err e, s1) -> Run.polled s1 = false ->
  e <> EOF ->
  let before :=
    pngHeader ++ encode {| kind := IHDR; data := ihdr f |} ++ encodes (pre f) in
  Repacker.Repack (png_bytes f) lvl = (Some e, before)
  /\ exists fuel : nat,
      Reader.Repack fuel (png_bytes f) lvl = Some (Some e, before).
Proof.
  intros (Hl & H10 & Hpre & Hlen & _) Hopen Hp1 Hne before.
  unfold png_bytes. split.
  - destruct (RepackerRun.repack_before (ihdr f) (pre f)
                (encodes (map idat (idat0 f :: idats f)) ++ encodes (post f))
                lvl Hl H10 Hpre)
      as (p & E & Hr & Hw & Hlv & Hi & Hh).
    destruct (RunFail.repackChunk_open (encodes (post f)) (idat0 f) (idats f)
                p (Err e) s1 Hr Hi Hh Hlen Hopen Hp1) as (p1 & Hw1 & H1).
    unfold Repacker.Repack. rewrite E.
    rewrite (RepackerFacts.repackLoop_return _ p p1 (Some e)).
    + rewrite Hw1, Hw. reflexivity.
    + apply H1. left. reflexivity.
  - destruct (ReaderRun.rd_before (ihdr f) (pre f)
                (encodes (map idat (idat0 f :: idats f)) ++ encodes (post f))
                lvl Hl H10 Hpre)
      as (q & Hready & Hr & Hd).
    apply ReaderFacts.Copies_Drains, Hd.
    apply (RunFail.rd_open (encodes (post f)) (idat0 f) (idats f) lvl q
             (Err e) s1 e _ Hready Hr Hlen Hopen Hp1 Hne).
    left. reflexivity.
Qed.

(** [stream_refused_by_decoder] on a file whose IDAT chunk starts with a
    gzip header. *)
Lemma stream_refused_by_decoder_sample :
  let before :=
    pngHeader ++ encode {| kind := IHDR; data := ihdr Cases.garbled |}
    ++ encodes (pre Cases.garbled) in
  Repacker.Repack (codec := Stored.exact) (png_bytes Cases.garbled) 6
  = (Some (ErrZlib 0), before)
  /\ exists fuel : nat,
      Reader.Repack (codec := Stored.exact) fuel (png_bytes Cases.garbled) 6
      = Some (Some (ErrZlib 0), before).
Proof.
  eapply (@stream_refused_by_decoder Stored.exact Cases.garbled 6 _
            (ErrZlib 0)).
  - unfold wf_png, ancillary, wf_chunk. cbn.
    repeat match goal with
           | |- _ /\ _ => split
           | |- Forall _ _ => constructor
           | |- _ = _ => reflexivity
           | |- _ <= _ => vm_compute; discriminate
           | |- _ <> _ => discriminate
           end.
  - reflexivity.
  - reflexivity.
  - discriminate.
Defined.

(** ** The loops end *)

(** X8: whatever the decoder and the compressor do, a round of the loop of
    [repack] that goes on to another round has consumed at least eight
    bytes of the source, and a round of the loop of [Read] that goes on has
    consumed twelve.  So the loops end on every finite input: with any
    number of rounds that is at least the number of bytes left in the
    source, they return what they return with exactly that number. *)
Theorem loops_end_within_input {codec : Codec} (fuel : nat)
    (p : Repacker.repacker) (q : Reader.Reader) :
  (length (Repacker.r p) <= fuel)%nat -> (length (Reader.r q) <= fuel)%nat ->
  Repacker.repackLoop fuel p
  = Repacker.repackLoop (length (Repacker.r p)) p
  /\ Repacker.skipChunks fuel p
     = Repacker.skipChunks (length (Repacker.r p)) p
  /\ Reader.skipChunks fuel q = Reader.skipChunks (length (Reader.r q)) q
  /\ (forall p', Repacker.repackChunk p = (None, p') ->
      (length (Repacker.r p') + 8 <= length (Repacker.r p))%nat)
  /\ (forall p', Repacker.nextChunk p = (None, p') ->
      (length (Repacker.r p') + 12 <= length (Repacker.r p))%nat)
  /\ (forall q', Reader.nextChunk q = (None, q') ->
      (length (Reader.r q') + 12 <= length (Reader.r q))%nat).
Proof.
  intros Hp Hq.
  split; [apply RepackerFacts.repackLoop_fuel; lia|].
  split; [apply LoopFacts.skipChunks_fuel; lia|].
  split; [apply LoopFacts.rd_skipChunks_fuel; lia|].
  split; [|split].
  - intros p' E. apply RepackerFacts.repackChunk_steady in E.
    destruct E as [_ E]. apply E. reflexivity.
  - apply LoopFacts.nextChunk_progress.
  - apply LoopFacts.rd_nextChunk_progress.
Qed.

(** [loops_end_within_input] on [Sample.png], with a thousand rounds. *)
Lemma loops_end_within_input_sample :
  Repacker.repackLoop (codec := Stored.exact) 1000 (Repacker.init Sample.png 6)
  = Repacker.repackLoop (codec := Stored.exact)
      (length (Repacker.r (Repacker.init Sample.png 6)))
      (Repacker.init Sample.png 6)
  /\ Repacker.skipChunks 1000 (Repacker.init Sample.png 6)
     = Repacker.skipChunks (length (Repacker.r (Repacker.init Sample.png 6)))
         (Repacker.init Sample.png 6)
  /\ Reader.skipChunks (codec := Stored.exact) 1000 (Reader.New (codec := Stored.exact) Sample.png 6)
     = Reader.skipChunks (length (Reader.r (Reader.New (codec := Stored.exact) Sample.png 6)))
         (Reader.New (codec := Stored.exact) Sample.png 6)
  /\ (forall p',
      Repacker.repackChunk (codec := Stored.exact) (Repacker.init Sample.png 6)
      = (None, p') ->
      (length (Repacker.r p') + 8
       <= length (Repacker.r (Repacker.init Sample.png 6)))%nat)
  /\ (forall p', Repacker.nextChunk (Repacker.init Sample.png 6) = (None, p') ->
      (length (Repacker.r p') + 12
       <= length (Repacker.r (Repacker.init Sample.png 6)))%nat)
  /\ (forall q',
      Reader.nextChunk (codec := Stored.exact) (Reader.New (codec := Stored.exact) Sample.png 6)
      = (None, q') ->
      (length (Reader.r q') + 12
       <= length (Reader.r (Reader.New (codec := Stored.exact) Sample.png 6)))%nat).
Proof.
  apply (@loops_end_within_input Stored.exact 1000 (Repacker.init Sample.png 6)
           (Reader.New (codec := Stored.exact) Sample.png 6)).
  - vm_compute. lia.
  - vm_compute. lia.
Defined.

(** ** The merger *)

(** X9: inside a run, [Read] hands the decoder the data of the IDAT chunks
    as one stream ([Run.read]): up to [n] bytes of what is left of the
    current chunk, or, when nothing is left of it, of the next chunk that
    has data, after it has checked the checksum of every chunk it leaves
    and read the header of every chunk it enters.  It never returns bytes
    of two chunks at once, nor bytes of a header or a checksum, and it
    returns no error as long as the decoder does not ask for more than the
    run has.  Both revisions. *)
Theorem merger_reads_run_as_stream {codec : Codec} (tail : bytes) (n : Z)
    (s s' : Run.run) (b : bytes) (eof : bool)
    (p : Repacker.repacker) (q : Reader.Reader) :
  RepackerInv.inside tail s p -> ReaderInv.inside tail s q ->
  Run.read n s = ((b, eof), s') -> Run.polled s' = false ->
  (exists p',
      Repacker.Read n p = ((b, None), p') /\ RepackerInv.inside tail s' p')
  /\ (exists q',
         Reader.idatReader_Read n q = ((b, None), q')
         /\ ReaderInv.inside tail s' q').
Proof.
  intros Hp Hq Er Hs. split.
  - destruct (RepackerRun.Read_inside tail n s s' p b eof Hp Er Hs)
      as (p' & E & Hin & _).
    exists p'. auto.
  - destruct (ReaderRun.rd_Read_inside tail n s s' q b eof Hq Er Hs)
      as (q' & E & Hin & _).
    exists q'. auto.
Qed.

(** [merger_reads_run_as_stream] at the start of the run of [Sample.png],
    for a read of 4096 bytes: it returns the five bytes of the first IDAT
    chunk. *)
Lemma merger_reads_run_as_stream_sample :
  (exists p',
      Repacker.Read 4096 Cases.in_run = ((data Sample.idat1, None), p')
      /\ RepackerInv.inside (encodes [Sample.text; Sample.iend])
           {| Run.cur := []; Run.next := [data Sample.idat2];
              Run.polled := false |} p')
  /\ (exists q',
         Reader.idatReader_Read 4096 Cases.rd_in_run
         = ((data Sample.idat1, None), q')
         /\ ReaderInv.inside (encodes [Sample.text; Sample.iend])
              {| Run.cur := []; Run.next := [data Sample.idat2];
                 Run.polled := false |} q').
Proof.
  apply (@merger_reads_run_as_stream Stored.exact
           (encodes [Sample.text; Sample.iend]) 4096 (run_of Cases.file)
           {| Run.cur := []; Run.next := [data Sample.idat2];
              Run.polled := false |}
           (data Sample.idat1) false Cases.in_run Cases.rd_in_run).
  - exists []. split; [vm_compute; reflexivity|].
    split; [reflexivity|]. split; [reflexivity|].
    split; [vm_compute; discriminate|].
    split; [repeat constructor; vm_compute; discriminate|].
    split; reflexivity.
  - exists []. split; [vm_compute; reflexivity|].
    split; [reflexivity|]. split; [reflexivity|].
    split; [vm_compute; discriminate|].
    split; [repeat constructor; vm_compute; discriminate|].
    split; reflexivity.
  - vm_compute. reflexivity.
  - reflexivity.
Defined.

(** X10: at the end of the data of an IDAT chunk, a read of the merger
    first reads the four bytes of the chunk's checksum; when they are not
    the checksum accumulated over the chunk's type and data, it fails with
    the error of an IDAT checksum, having consumed these four bytes and no
    more, and having written nothing.  Both revisions. *)
Theorem merger_checks_IDAT_checksum {codec : Codec} (n : Z) (c4 rest : bytes)
    (p : Repacker.repacker) (q : Reader.Reader) :
  n <> 0 -> length c4 = 4%nat ->
  Repacker.idatLength p = 0 -> Repacker.r p = c4 ++ rest ->
  Uint32 c4 <> Repacker.crc p ->
  Reader.chunkLen q = 0 -> Reader.r q = c4 ++ rest ->
  Uint32 c4 <> Reader.crc q ->
  (exists p',
      Repacker.Read n p = (([], Some ErrIDATChecksum), p')
      /\ Repacker.r p' = rest /\ Repacker.w p' = Repacker.w p)
  /\ (exists q',
         Reader.idatReader_Read n q = (([], Some ErrIDATChecksum), q')
         /\ Reader.r q' = rest /\ Reader.w q' = Reader.w q).
Proof.
  intros Hn Hc Hpi Hpr Hpc Hqi Hqr Hqc. split.
  - rewrite (LoopFacts.Read_bad_checksum n c4 rest p Hn Hc Hpi Hpr Hpc).
    eexists. repeat split.
  - rewrite (LoopFacts.rd_Read_bad_checksum n c4 rest q Hn Hc Hqi Hqr Hqc).
    eexists. repeat split.
Qed.

(** [merger_checks_IDAT_checksum] at the end of the run of [Sample.png],
    with four zero bytes where the checksum of the last IDAT chunk was. *)
Lemma merger_checks_IDAT_checksum_sample :
  (exists p',
      Repacker.Read 4096
        (Repacker.set_r ([x00; x00; x00; x00] ++ encode Sample.iend)
           Cases.run_end)
      = (([], Some ErrIDATChecksum), p')
      /\ Repacker.r p' = encode Sample.iend
      /\ Repacker.w p'
         = Repacker.w (Repacker.set_r ([x00; x00; x00; x00] ++ encode Sample.iend)
                         Cases.run_end))
  /\ (exists q',
         Reader.idatReader_Read 4096
           (Reader.set_r ([x00; x00; x00; x00] ++ encode Sample.iend)
              Cases.rd_run_end)
         = (([], Some ErrIDATChecksum), q')
         /\ Reader.r q' = encode Sample.iend
         /\ Reader.w q'
            = Reader.w (Reader.set_r ([x00; x00; x00; x00] ++ encode Sample.iend)
                          Cases.rd_run_end)).
Proof.
  apply (@merger_checks_IDAT_checksum Stored.exact 4096 [x00; x00; x00; x00]
           (encode Sample.iend)
           (Repacker.set_r ([x00; x00; x00; x00] ++ encode Sample.iend)
              Cases.run_end)
           (Reader.set_r ([x00; x00; x00; x00] ++ encode Sample.iend)
              Cases.rd_run_end)).
  - discriminate.
  - reflexivity.
  - reflexivity.
  - reflexivity.
  - vm_compute. discriminate.
  - reflexivity.
  - reflexivity.
  - vm_compute. discriminate.
Defined.

(** X11: at the end of the data of an IDAT chunk whose checksum is right,
    the merger reads the header of the next chunk.  When that header
    declares more than 2^31-1 bytes, the later revision fails with the error
    of a chunk that is too big, whatever the type; the earlier revision
    fails, with the error of an IDAT chunk that is too big, when the type is
    IDAT.  The twelve bytes are consumed and nothing is written. *)
Theorem merger_refuses_oversized_IDAT {codec : Codec} (n : Z)
    (c4 h4 k rest : bytes) (p : Repacker.repacker) (q : Reader.Reader) :
  n <> 0 -> length c4 = 4%nat -> length h4 = 4%nat -> length k = 4%nat ->
  maxChunkLen < Uint32 h4 ->
  Repacker.idatLength p = 0 -> Repacker.r p = c4 ++ h4 ++ IDAT ++ rest ->
  Uint32 c4 = Repacker.crc p ->
  Reader.chunkLen q = 0 -> Reader.r q = c4 ++ h4 ++ k ++ rest ->
  Uint32 c4 = Reader.crc q ->
  (exists p',
      Repacker.Read n p = (([], Some ErrIDATTooBig), p')
      /\ Repacker.r p' = rest /\ Repacker.w p' = Repacker.w p)
  /\ (exists q',
         Reader.idatReader_Read n q = (([], Some ErrChunkTooBig), q')
         /\ Reader.r q' = rest /\ Reader.w q' = Reader.w q).
Proof.
  intros Hn Hc Hh Hk Hbig Hpi Hpr Hpc Hqi Hqr Hqc. split.
  - apply (LoopFacts.Read_IDAT_too_big n c4 h4 rest p Hn Hc Hh Hpi Hpr Hpc Hbig).
  - apply (LoopFacts.rd_Read_too_big n c4 h4 k rest q Hn Hc Hh Hk Hqi Hqr Hqc
             Hbig).
Qed.

(** [merger_refuses_oversized_IDAT] at the end of the run of [Sample.png],
    followed by an IDAT header that declares 2^31 bytes. *)
Lemma merger_refuses_oversized_IDAT_sample :
  (exists p',
      Repacker.Read 4096
        (Repacker.set_r
           (PutUint32 (crc32.ChecksumIEEE (IDAT ++ data Sample.idat2))
            ++ [x80; x00; x00; x00] ++ IDAT ++ [x01]) Cases.run_end)
      = (([], Some ErrIDATTooBig), p')
      /\ Repacker.r p' = [x01]
      /\ Repacker.w p'
         = Repacker.w
             (Repacker.set_r
                (PutUint32 (crc32.ChecksumIEEE (IDAT ++ data Sample.idat2))
                 ++ [x80; x00; x00; x00] ++ IDAT ++ [x01]) Cases.run_end))
  /\ (exists q',
         Reader.idatReader_Read 4096
           (Reader.set_r
              (PutUint32 (crc32.ChecksumIEEE (IDAT ++ data Sample.idat2))
               ++ [x80; x00; x00; x00] ++ IDAT ++ [x01]) Cases.rd_run_end)
         = (([], Some ErrChunkTooBig), q')
         /\ Reader.r q' = [x01]
         /\ Reader.w q'
            = Reader.w
                (Reader.set_r
                   (PutUint32 (crc32.ChecksumIEEE (IDAT ++ data Sample.idat2))
                    ++ [x80; x00; x00; x00] ++ IDAT ++ [x01])
                   Cases.rd_run_end)).
Proof.
  apply (@merger_refuses_oversized_IDAT Stored.exact 4096
           (PutUint32 (crc32.ChecksumIEEE (IDAT ++ data Sample.idat2)))
           [x80; x00; x00; x00] IDAT [x01]
           (Repacker.set_r
              (PutUint32 (crc32.ChecksumIEEE (IDAT ++ data Sample.idat2))
               ++ [x80; x00; x00; x00] ++ IDAT ++ [x01]) Cases.run_end)
           (Reader.set_r
              (PutUint32 (crc32.ChecksumIEEE (IDAT ++ data Sample.idat2))
               ++ [x80; x00; x00; x00] ++ IDAT ++ [x01]) Cases.rd_run_end)).
  - discriminate.
  - reflexivity.
  - reflexivity.
  - reflexivity.
  - vm_compute. reflexivity.
  - reflexivity.
  - reflexivity.
  - vm_compute. reflexivity.
  - reflexivity.
  - reflexivity.
  - vm_compute. reflexivity.
Defined.

(** ** Inputs that stop inside a chunk *)

(** X12: when the input stops inside a chunk header, with one to seven
    bytes left after the header chunk and chunks other than IDAT, the
    operation fails with [io.ErrUnexpectedEOF]; the output is the input up
    to these bytes.  Both revisions. *)
Theorem partial_chunk_header {codec : Codec} (d13 : bytes) (cs : list Chunk)
    (extra : bytes) (lvl : Z) :
  length d13 = 13%nat -> nth 10 d13 x00 = x00 -> Forall ancillary cs ->
  (0 < length extra < 8)%nat ->
  let before :=
    pngHeader ++ encode {| kind := IHDR; data := d13 |} ++ encodes cs in
  Repacker.Repack (before ++ extra) lvl = (Some ErrUnexpectedEOF, before)
  /\ exists fuel : nat,
      Reader.Repack fuel (before ++ extra) lvl
      = Some (Some ErrUnexpectedEOF, before).
Proof.
  intros Hl H10 Hcs Hx before.
  assert (Hin : before ++ extra
                = pngHeader ++ encode {| kind := IHDR; data := d13 |}
                  ++ encodes cs ++ extra).
  { unfold before. rewrite <- !app_assoc. reflexivity. }
  rewrite Hin. split.
  - destruct (RepackerRun.repack_before d13 cs extra lvl Hl H10 Hcs)
      as (p & E & Hr & Hw & _).
    destruct (TruncFacts.repackChunk_partial_header p) as (p' & E' & Hw').
    { rewrite Hr. exact Hx. }
    unfold Repacker.Repack. rewrite E.
    rewrite (RepackerFacts.repackLoop_return _ p p' _ E'), Hw', Hw.
    reflexivity.
  - destruct (ReaderRun.rd_before d13 cs extra lvl Hl H10 Hcs)
      as (q & Hready & Hr & Hd).
    apply ReaderFacts.Copies_Drains, Hd.
    apply (TruncFacts.rd_partial_header lvl false q _ Hready).
    rewrite Hr. exact Hx.
Qed.

(** [partial_chunk_header] on a header chunk followed by three bytes. *)
Lemma partial_chunk_header_sample :
  let before :=
    pngHeader ++ encode {| kind := IHDR; data := data Sample.ihdr |}
    ++ encodes [] in
  Repacker.Repack (codec := Stored.exact) (before ++ [x00; x00; x00]) 6
  = (Some ErrUnexpectedEOF, before)
  /\ exists fuel : nat,
      Reader.Repack (codec := Stored.exact) fuel (before ++ [x00; x00; x00]) 6
      = Some (Some ErrUnexpectedEOF, before).
Proof.
  apply (@partial_chunk_header Stored.exact (data Sample.ihdr) []
           [x00; x00; x00] 6).
  - reflexivity.
  - reflexivity.
  - constructor.
  - cbn. lia.
Defined.

(** X13: when the input stops inside the data of a chunk that is not IDAT
    (after the header chunk and chunks other than IDAT), everything that was
    read has been written: the output is the whole input.  The earlier
    revision fails with the [io.EOF] of [io.CopyN]; the later revision takes
    the [io.EOF] of its source for the end of the stream and returns no
    error. *)
Theorem truncated_payload {codec : Codec} (d13 : bytes) (cs : list Chunk)
    (k part : bytes) (n lvl : Z) :
  length d13 = 13%nat -> nth 10 d13 x00 = x00 -> Forall ancillary cs ->
  length k = 4%nat -> k <> IDAT -> len part < n <= maxChunkLen ->
  let input :=
    pngHeader ++ encode {| kind := IHDR; data := d13 |} ++ encodes cs
    ++ PutUint32 n ++ k ++ part in
  Repacker.Repack input lvl = (Some EOF, input)
  /\ exists fuel : nat, Reader.Repack fuel input lvl = Some (None, input).
Proof.
  intros Hl H10 Hcs Hk Hn Hlen input. unfold input. split.
  - destruct (RepackerRun.repack_before d13 cs (PutUint32 n ++ k ++ part) lvl
                Hl H10 Hcs) as (p & E & Hr & Hw & _).
    destruct (TruncFacts.repackChunk_truncated k part n p Hk Hn Hlen Hr)
      as (p' & E' & Hw').
    unfold Repacker.Repack. rewrite E.
    rewrite (RepackerFacts.repackLoop_return _ p p' _ E'), Hw', Hw.
    rewrite <- !app_assoc. reflexivity.
  - destruct (ReaderRun.rd_before d13 cs (PutUint32 n ++ k ++ part) lvl
                Hl H10 Hcs) as (q & Hready & Hr & Hd).
    apply ReaderFacts.Copies_Drains, Hd.
    pose proof (TruncFacts.rd_truncated k part n lvl false q
                  (pngHeader ++ encode {| kind := IHDR; data := d13 |}
                   ++ encodes cs) Hready Hk Hn Hlen Hr) as D.
    rewrite <- !app_assoc in D. exact D.
Qed.

(** [truncated_payload] on a header chunk and a [tEXt] chunk that declares
    two bytes of data and has one. *)
Lemma truncated_payload_sample :
  let input :=
    pngHeader ++ encode {| kind := IHDR; data := data Sample.ihdr |}
    ++ encodes [] ++ PutUint32 2 ++ Sample.tEXt ++ [x68] in
  Repacker.Repack (codec := Stored.exact) input 6 = (Some EOF, input)
  /\ exists fuel : nat,
      Reader.Repack (codec := Stored.exact) fuel input 6 = Some (None, input).
Proof.
  apply (@truncated_payload Stored.exact (data Sample.ihdr) [] Sample.tEXt
           [x68] 2 6).
  - reflexivity.
  - reflexivity.
  - constructor.
  - reflexivity.
  - discriminate.
  - vm_compute. split; [reflexivity|discriminate].
Defined.

(** ** One byte of a chunk changed *)

(** X14: the IEEE CRC-32 of [hash/crc32] tells apart any two byte strings
    that differ in one byte.  So when one byte of the data of a chunk that
    is not IDAT is changed and the chunk's CRC field is left as it was, the
    check of that chunk fails: the operation returns the checksum error,
    and the output is the input up to the end of that chunk's data.  Both
    revisions. *)
Theorem changed_byte_is_detected {codec : Codec} (d13 : bytes)
    (cs : list Chunk) (k a b rest : bytes) (x y : byte) (lvl : Z) :
  length d13 = 13%nat -> nth 10 d13 x00 = x00 -> Forall ancillary cs ->
  length k = 4%nat -> k <> IDAT -> len (a ++ y :: b) <= maxChunkLen ->
  x <> y ->
  crc32.ChecksumIEEE (k ++ a ++ x :: b) <> crc32.ChecksumIEEE (k ++ a ++ y :: b)
  /\ let before :=
       pngHeader ++ encode {| kind := IHDR; data := d13 |} ++ encodes cs in
     let changed := PutUint32 (len (a ++ y :: b)) ++ k ++ a ++ y :: b in
     let field := PutUint32 (crc32.ChecksumIEEE (k ++ a ++ x :: b)) in
     Repacker.Repack (before ++ changed ++ field ++ rest) lvl
     = (Some ErrChecksum, before ++ changed)
     /\ exists fuel : nat,
         Reader.Repack fuel (before ++ changed ++ field ++ rest) lvl
         = Some (Some ErrChecksum, before ++ changed).
Proof.
  intros Hl H10 Hcs Hk Hn Hlen Hxy.
  pose proof (CrcFacts.Checksum_detects k a b x y Hxy) as Hd.
  split; [exact Hd|]. intros before changed field.
  assert (Hbad : Uint32 field <> crc32.ChecksumIEEE (k ++ a ++ y :: b)).
  { unfold field. rewrite Uint32_PutUint32 by apply Checksum_u32. exact Hd. }
  assert (Hin : before ++ changed ++ field ++ rest
                = pngHeader ++ encode {| kind := IHDR; data := d13 |}
                  ++ encodes cs
                  ++ PutUint32 (len (a ++ y :: b)) ++ k ++ (a ++ y :: b)
                  ++ field ++ rest).
  { unfold before, changed. rewrite <- !app_assoc. reflexivity. }
  assert (Hout : before ++ changed
                 = (pngHeader ++ encode {| kind := IHDR; data := d13 |}
                    ++ encodes cs)
                   ++ PutUint32 (len (a ++ y :: b)) ++ k ++ (a ++ y :: b)).
  { unfold before, changed. rewrite <- !app_assoc. reflexivity. }
  rewrite Hin, Hout. split.
  - destruct (RepackerRun.repack_before d13 cs
                (PutUint32 (len (a ++ y :: b)) ++ k ++ (a ++ y :: b)
                 ++ field ++ rest) lvl Hl H10 Hcs)
      as (p & E & Hr & Hw & _).
    destruct (RepackerErr.repackChunk_bad_crc k (a ++ y :: b) field rest p Hk Hn
                Hlen eq_refl Hbad Hr) as (p' & E' & Hw' & _).
    unfold Repacker.Repack. rewrite E.
    rewrite (RepackerFacts.repackLoop_return _ p p' _ E'), Hw', Hw.
    reflexivity.
  - destruct (ReaderRun.rd_before d13 cs
                (PutUint32 (len (a ++ y :: b)) ++ k ++ (a ++ y :: b)
                 ++ field ++ rest) lvl Hl H10 Hcs)
      as (q & Hready & Hr & HD).
    apply ReaderFacts.Copies_Drains, HD.
    apply (ReaderErr.rd_bad_crc k (a ++ y :: b) field rest lvl false q _
             Hready Hk Hn Hlen eq_refl Hbad Hr).
Qed.

(** [changed_byte_is_detected] on [Cases.corrupted]: the [tEXt] chunk with
    data [hi] changed to [hj]. *)
Lemma changed_byte_is_detected_sample :
  crc32.ChecksumIEEE (Sample.tEXt ++ [x68] ++ x69 :: [])
  <> crc32.ChecksumIEEE (Sample.tEXt ++ [x68] ++ x6a :: [])
  /\ let before :=
       pngHeader ++ encode {| kind := IHDR; data := data Sample.ihdr |}
       ++ encodes [] in
     let changed :=
       PutUint32 (len ([x68] ++ x6a :: [])) ++ Sample.tEXt ++ [x68] ++ x6a :: [] in
     let field :=
       PutUint32 (crc32.ChecksumIEEE (Sample.tEXt ++ [x68] ++ x69 :: [])) in
     Repacker.Repack (codec := Stored.exact)
       (before ++ changed ++ field ++ encode Sample.iend) 6
     = (Some ErrChecksum, before ++ changed)
     /\ exists fuel : nat,
         Reader.Repack (codec := Stored.exact) fuel
           (before ++ changed ++ field ++ encode Sample.iend) 6
         = Some (Some ErrChecksum, before ++ changed).
Proof.
  apply (@changed_byte_is_detected Stored.exact (data Sample.ihdr) []
           Sample.tEXt [x68] [] (encode Sample.iend) x69 x6a 6).
  - reflexivity.
  - reflexivity.
  - constructor.
  - reflexivity.
  - discriminate.
  - vm_compute. discriminate.
  - discriminate.
Defined.

(** ** The checksum of the header chunk *)

(** X15: the CRC field of the header chunk is checked.  When the header
    chunk is as it should be but for its CRC field, the operation fails with
    the checksum error.  The earlier revision has written the signature and
    the chunk's header and data by then; the later revision, which fails in
    its first round, has handed nothing to its reader. *)
Theorem header_chunk_checksum_checked {codec : Codec} (d13 c4 rest : bytes)
    (lvl : Z) :
  length d13 = 13%nat -> nth 10 d13 x00 = x00 -> length c4 = 4%nat ->
  Uint32 c4 <> crc32.ChecksumIEEE (IHDR ++ d13) ->
  let input := pngHeader ++ PutUint32 13 ++ IHDR ++ d13 ++ c4 ++ rest in
  Repacker.Repack input lvl
  = (Some ErrChecksum, pngHeader ++ PutUint32 13 ++ IHDR ++ d13)
  /\ exists fuel : nat,
      Reader.Repack fuel input lvl = Some (Some ErrChecksum, []).
Proof.
  intros Hl H10 Hc Hbad input. unfold input. split.
  - unfold Repacker.Repack, Repacker.repack.
    destruct (EdgeFacts.header_bad_crc d13 c4 rest
                (Repacker.init (pngHeader ++ PutUint32 13 ++ IHDR ++ d13
                                ++ c4 ++ rest) lvl) Hl H10 Hc Hbad eq_refl)
      as (p' & E & _ & Hw).
    rewrite E, Hw. reflexivity.
  - destruct (EdgeFacts.refill_bad_crc d13 c4 rest lvl Hl H10 Hc Hbad)
      as (p' & E).
    apply ReaderFacts.Copies_Drains.
    apply (ReaderInv.Drains_err
             (Reader.New (pngHeader ++ PutUint32 13 ++ IHDR ++ d13 ++ c4 ++ rest)
                lvl) p' [] ErrChecksum eq_refl eq_refl E).
    discriminate.
Qed.

(** [header_chunk_checksum_checked] on the header chunk of [Sample.png]
    with four zero bytes for its CRC field. *)
Lemma header_chunk_checksum_checked_sample :
  let input :=
    pngHeader ++ PutUint32 13 ++ IHDR ++ data Sample.ihdr
    ++ [x00; x00; x00; x00] ++ encode Sample.iend in
  Repacker.Repack (codec := Stored.exact) input 6
  = (Some ErrChecksum, pngHeader ++ PutUint32 13 ++ IHDR ++ data Sample.ihdr)
  /\ exists fuel : nat,
      Reader.Repack (codec := Stored.exact) fuel input 6
      = Some (Some ErrChecksum, []).
Proof.
  apply (@header_chunk_checksum_checked Stored.exact (data Sample.ihdr)
           [x00; x00; x00; x00] (encode Sample.iend) 6).
  - reflexivity.
  - reflexivity.
  - reflexivity.
  - vm_compute. discriminate.
Defined.

(** ** A decoder that gives up inside the run *)

(** X16: when the decoder returns an error other than [io.EOF] inside the
    run, without having asked for more than the run has, the operation
    fails with that error.  What the decoder returned before is in the
    output, recompressed, as IDAT chunks after the input up to the run; what
    it returned together with the error is dropped, the compressor is not
    closed, and nothing after the run is written.  Both revisions. *)
Theorem decoder_error_ends_run {codec : Codec} (f : Png) (lvl : Z)
    (zw0 : zwriter) (z : zreader) (s1 s2 : Run.run) (outs : list bytes)
    (e : error) :
  wf_png f ->
  NewWriterLevel lvl = inl zw0 ->
  Run.open NewReader (run_of f) = (Ok z, s1) ->
  Run.decode z s1 = ((outs, e), s2) -> Run.polled s2 = false -> e <> EOF ->
  let before :=
    pngHeader ++ encode {| kind := IHDR; data := ihdr f |} ++ encodes (pre f) in
  Repacker.Repack (png_bytes f) lvl
  = (Some e,
     before ++ encodes (map idat (Run.repacked zw0 (removelast outs))))
  /\ exists fuel : nat,
      Reader.Repack fuel (png_bytes f) lvl
      = Some (Some e,
              before
              ++ encodes (map idat (removelast (Run.reread zw0 outs)))).
Proof.
  intros (Hl & H10 & Hpre & Hlen & _) Hlvl Hopen Hdec Hp2 Hne before.
  unfold png_bytes. split.
  - destruct (RepackerRun.repack_before (ihdr f) (pre f)
                (encodes (map idat (idat0 f :: idats f)) ++ encodes (post f))
                lvl Hl H10 Hpre)
      as (p & E & Hr & Hw & Hlv & Hi & Hh).
    rewrite <- Hlv in Hlvl.
    destruct (DecodeFail.repackChunk_decode_fails (encodes (post f)) (idat0 f)
                (idats f) p zw0 z s1 s2 outs e Hr Hi Hh Hlen Hlvl Hopen Hdec
                Hp2 Hne) as (p' & E' & Hw').
    unfold Repacker.Repack. rewrite E.
    rewrite (RepackerFacts.repackLoop_return _ p p' _ E'), Hw', Hw.
    unfold before. rewrite <- !app_assoc. reflexivity.
  - destruct (ReaderRun.rd_before (ihdr f) (pre f)
                (encodes (map idat (idat0 f :: idats f)) ++ encodes (post f))
                lvl Hl H10 Hpre)
      as (q & Hready & Hr & Hd).
    apply ReaderFacts.Copies_Drains, Hd.
    pose proof (DecodeFail.rd_enter_err (encodes (post f)) (idat0 f) (idats f)
                  lvl q zw0 z s1 s2 outs e
                  (pngHeader ++ encode {| kind := IHDR; data := ihdr f |}
                   ++ encodes (pre f))
                  Hready Hr Hlen Hlvl Hopen Hdec Hp2 Hne) as D.
    exact D.
Qed.

(** [decoder_error_ends_run] on [Cases.broken]: the decoder returns one
    byte, and then an error with no bytes. *)
Lemma decoder_error_ends_run_sample :
  let before :=
    pngHeader ++ encode {| kind := IHDR; data := ihdr Cases.broken |}
    ++ encodes (pre Cases.broken) in
  Repacker.Repack (codec := Stored.exact) (png_bytes Cases.broken) 6
  = (Some (ErrZlib 1),
     before
     ++ encodes (map idat (Run.repacked (codec := Stored.exact) Cases.writer6
                             (removelast [[x0a]; []]))))
  /\ exists fuel : nat,
      Reader.Repack (codec := Stored.exact) fuel (png_bytes Cases.broken) 6
      = Some (Some (ErrZlib 1),
              before
              ++ encodes (map idat
                            (removelast
                               (Run.reread (codec := Stored.exact)
                                  Cases.writer6 [[x0a]; []])))).
Proof.
  eapply (@decoder_error_ends_run Stored.exact Cases.broken 6 Cases.writer6
            _ _ _ [[x0a]; []] (ErrZlib 1)).
  - unfold wf_png, ancillary, wf_chunk. cbn.
    repeat match goal with
           | |- _ /\ _ => split
           | |- Forall _ _ => constructor
           | |- _ = _ => reflexivity
           | |- _ <= _ => vm_compute; discriminate
           | |- _ <> _ => discriminate
           end.
  - reflexivity.
  - reflexivity.
  - reflexivity.
  - reflexivity.
  - discriminate.
Defined.

(** ** [Reader.Read] as an [io.Reader] *)


